(** * Attune: dependency resolution and service lifecycle

    A shallow embedding of [src/index.js] (the [System] constructor and its
    [start] / [stop] methods, with the helpers they use) together with the
    properties of the start order and of the lifecycle operations.

    Conventions of the embedding.
    - A JavaScript object whose key order is observable ([Object.keys],
      [Object.entries]) is an association list in enumeration order; keys
      are assumed pairwise distinct, as in any object.  The mutable
      [_services] object is read and written by key, and is a [gmap] of its
      own properties.
    - The configuration, the registry and [_services] are plain objects: a
      read that finds no own property finds the member of
      [Object.prototype] of that name, if there is one.  One thing is left
      out: [stop('__proto__')], where [__proto__] is no own property of
      [_services], replaces the prototype of [_services] by [null]; the
      model leaves [_services] as it is, so that its inherited members
      stay readable.
    - A [System] is an object whose four fields are data properties.  The
      constructor also defines a getter for every service; the object it
      returns is described with these getters, and is a [System] unless a
      getter has replaced a field.  A getter that hides a method is
      accounted for where the method is called on the object.
    - Arrays hold strings (service names); that is the only kind of array
      the program builds or expects.
    - Exceptions are an explicit outcome; an exception leaves the state
      reached so far in place, as in JavaScript.
    - The recursion of [start] is bounded by fuel; running out of fuel is a
      separate outcome and is proved not to happen on acyclic inputs. *)

From stdpp Require Import gmap strings list relations.
From Stdlib Require Import ZArith.

Local Open Scope string_scope.
Local Open Scope list_scope.
#[local] Set Warnings "-register-all,-clear-no-such-hyp".

(** ** Values, exceptions, outcomes *)

Inductive value : Type :=
| VUndefined
| VNull
| VBool (b : bool)
| VNum (n : Z)
| VStr (s : string)
| VArr (xs : list string)
| VFun (id : nat)
| VObj (fields : list (string * value)).

Inductive exn : Type :=
| TypeError (msg : string)
| CycleError (node : string)
| UnknownNodeError
| Thrown (v : value).

Inductive outcome (A : Type) : Type :=
| Ok (a : A)
| Throw (e : exn)
| OutOfFuel.
Arguments Ok {A} a.
Arguments Throw {A} e.
Arguments OutOfFuel {A}.

#[global] Instance outcome_ret : MRet outcome := @Ok.
#[global] Instance outcome_bind : MBind outcome := λ A B f m,
  match m with
  | Ok a => f a
  | Throw e => Throw e
  | OutOfFuel => OutOfFuel
  end.

(** [xs.forEach(f)] / [xs.reduce(f, acc)] with a fallible body: the first
    exception stops the iteration. *)
Fixpoint foldM {A S : Type} (f : S → A → outcome S) (acc : S) (xs : list A)
  : outcome S :=
  match xs with
  | [] => Ok acc
  | x :: xs' => acc' ← f acc x; foldM f acc' xs'
  end.

(** [xs.flatMap(f)] with a fallible body. *)
Fixpoint flatMapM {A B : Type} (f : A → outcome (list B)) (xs : list A)
  : outcome (list B) :=
  match xs with
  | [] => Ok []
  | x :: xs' => ys ← f x; zs ← flatMapM f xs'; Ok (ys ++ zs)
  end.

(** ** Objects as association lists *)

Definition obj (A : Type) : Type := list (string * A).

(** [Object.keys(o)] *)
Definition keys {A : Type} (o : obj A) : list string := o.*1.

(** [o[k]] on own properties; [None] is [undefined]. *)
Fixpoint prop {A : Type} (o : obj A) (k : string) : option A :=
  match o with
  | [] => None
  | (k', v) :: o' => if decide (k' = k) then Some v else prop o' k
  end.

(** [v.k] for a value that is neither [null] nor [undefined]. *)
Definition member (v : value) (k : string) : value :=
  match v with
  | VObj fields => default VUndefined (prop fields k)
  | _ => VUndefined
  end.

(** [k in v] for an object [v]. *)
Definition has_member (v : value) (k : string) : bool :=
  match v with
  | VObj fields => bool_decide (is_Some (prop fields k))
  | _ => false
  end.

(** [Object.entries(v)] restricted to the values: the entries of an array of
    strings are strings. *)
Definition entry_values (v : value) : list value :=
  match v with
  | VObj fields => fields.*2
  | VArr xs => VStr <$> xs
  | _ => []
  end.

Definition truthy (v : value) : bool :=
  match v with
  | VUndefined | VNull => false
  | VBool b => b
  | VNum n => negb (Z.eqb n 0)
  | VStr s => negb (String.eqb s "")
  | VArr _ | VFun _ | VObj _ => true
  end.

Definition is_null (v : value) : bool :=
  match v with VNull => true | _ => false end.

Definition nullish (v : value) : bool :=
  match v with VNull | VUndefined => true | _ => false end.

(** ** The prototype of plain objects

    The configuration, the behaviour registry, [_services] and the objects
    that [collectDeps] builds are plain objects: a read [o[k]] that finds
    no own property [k] goes on to [Object.prototype]. *)

(** The names of the members of [Object.prototype]. *)
Definition Object_prototype : list string :=
  [ "constructor"; "hasOwnProperty"; "isPrototypeOf"; "propertyIsEnumerable";
    "toLocaleString"; "toString"; "valueOf"; "__defineGetter__";
    "__defineSetter__"; "__lookupGetter__"; "__lookupSetter__"; "__proto__" ].

(** The member that a plain object inherits under the name [k]: a function,
    a different one for each name, and under [__proto__] the prototype
    itself, an object without enumerable property. *)
Definition inherited (k : string) : option value :=
  if decide (k = "__proto__") then Some (VObj [])
  else (λ ix, VFun ix.1) <$> list_find (λ n, n = k) Object_prototype.

(** [o[k]] on a plain object; [None] is [undefined]. *)
Definition lookup (o : obj value) (k : string) : option value :=
  match prop o k with
  | Some v => Some v
  | None => inherited k
  end.

(** ** Predicates of [index.js] *)

Definition isObject (v : value) : bool :=
  match v with VObj _ | VArr _ => true | _ => false end.

Definition isFn (v : value) : bool :=
  match v with VFun _ => true | _ => false end.

Definition isDepends (v : value) : bool :=
  match v with VArr _ | VStr _ => true | _ => false end.

(** ** Graph resolver *)

Definition Config : Type := obj value.

(** Calling an array method ([map], [forEach], [reduce]) on the result of
    [dependsOn]: a [TypeError] unless it is an array. *)
Definition as_array (v : value) : outcome (list string) :=
  match v with
  | VArr xs => Ok xs
  | _ => Throw (TypeError "not a function")
  end.

Definition dependsOn (conf : Config) (service : string) : outcome value :=
  match lookup conf service with
  | None => Throw (TypeError "Cannot read property 'depends' of undefined")
  | Some r =>
      if nullish r
      then Throw (TypeError "Cannot read property 'depends' of null")
      else
        match member r "depends" with
        | VStr s => Ok (VArr [s])
        | d => if truthy d then Ok d else Ok (VArr [])
        end
  end.

(** An edge [[dep, service]] is a pair. *)
Definition edge : Type := string * string.

Definition depEdges (conf : Config) (service : string) : outcome (list edge) :=
  deps ← dependsOn conf service;
  xs ← as_array deps;
  Ok ((λ dep, (dep, service)) <$> (xs : list string)).

(** [xs.length > 0] on an edge, which always has its two components. *)
Definition isNotEmpty (e : edge) : bool := true.

Definition edges (conf : Config) : outcome (list edge) :=
  es ← flatMapM (depEdges conf) (keys conf);
  Ok (filter (λ e, isNotEmpty e = true) es).

(** *** The [toposort] package *)

Module Toposort.

(** Adding to a JavaScript [Set], which keeps insertion order. *)
Definition set_add (s : list string) (x : string) : list string :=
  if decide (x ∈ s) then s else s ++ [x].

(** Modelled from the spec: the loop body of [makeOutgoingEdges] of the
    external package [toposort]: both ends of the edge get an entry, and
    the target is added to the successors of the source. *)
Definition add_edge (m : gmap string (list string)) (e : edge)
  : gmap string (list string) :=
  let m1 := if m !! e.1 is None then <[e.1 := []]> m else m in
  let m2 := if m1 !! e.2 is None then <[e.2 := []]> m1 else m1 in
  <[e.1 := set_add (default [] (m2 !! e.1)) e.2]> m2.

(** Modelled from the spec: [makeOutgoingEdges] of the external package
    [toposort], which [index.js] requires and which is not part of the
    sources.  It maps every node of an edge to the set of its direct
    successors. *)
Definition makeOutgoingEdges (arr : list edge) : gmap string (list string) :=
  foldl add_edge ∅ arr.

(** Modelled from the spec: [makeNodesHash] of the external package
    [toposort]: each node mapped to its (last) index. *)
Definition makeNodesHash (arr : list string) : gmap string nat :=
  (foldl (λ mi x, (<[x := mi.2]> mi.1, S mi.2)) (∅, 0) arr).1.

Record state : Type := mkState {
  visited : gset nat;
  sorted : list string
}.

Section visit.
Variable nodesHash : gmap string nat.
Variable outgoingEdges : gmap string (list string).

(** Modelled from the spec: the depth-first [visit] of the external
    package [toposort].  [sorted] is filled from its last cell down,
    which is consing onto the filled suffix; [predecessors] is the set
    of nodes on the current path (added before the successors are
    visited and removed afterwards). *)
Fixpoint visit (fuel : nat) (predecessors : gset string) (st : state)
    (node : string) : outcome state :=
  match fuel with
  | 0 => OutOfFuel
  | S fuel' =>
      if decide (node ∈ predecessors) then Throw (CycleError node)
      else
        match nodesHash !! node with
        | None => Throw UnknownNodeError
        | Some i =>
            if decide (i ∈ visited st) then Ok st
            else
              let st1 := mkState ({[i]} ∪ visited st) (sorted st) in
              let outgoing := default [] (outgoingEdges !! node) in
              st2 ← foldM (visit fuel' ({[node]} ∪ predecessors)) st1
                          (reverse outgoing);
              Ok (mkState (visited st2) (node :: sorted st2))
        end
  end.
End visit.

(** Modelled from the spec: [toposort.array(nodes, edges)] of the external
    package [toposort]: a topological sort of [nodes] in which, for every
    edge [(a, b)], [a] comes before [b]; it fails when an edge names an
    unknown node and when the graph has a cycle. *)
Definition array (nodes : list string) (edges : list edge)
  : outcome (list string) :=
  let outgoingEdges := makeOutgoingEdges edges in
  let nodesHash := makeNodesHash nodes in
  _ ← foldM (λ (_ : unit) e,
               if decide (is_Some (nodesHash !! e.1) ∧ is_Some (nodesHash !! e.2))
               then Ok tt else Throw UnknownNodeError) tt edges;
  st ← foldM (λ st (ix : nat * string),
                if decide (ix.1 ∈ visited st) then Ok st
                else visit nodesHash outgoingEdges (S (length nodes)) ∅ st ix.2)
             (mkState ∅ []) (reverse (imap pair nodes));
  Ok (sorted st).

End Toposort.

Definition sortDeps (conf : Config) : outcome (list string) :=
  es ← edges conf;
  Toposort.array (keys conf) es.

(** The configuration of the test suite. *)
Definition test_conf : Config :=
  [ ("x", VObj [("val", VNum 1)]);
    ("y", VObj [("val", VNum 2); ("depends", VStr "x")]);
    ("sum", VObj [("depends", VArr ["x"; "y"])]) ].

(** ** Validation *)

Module errors.
Definition conf_object := "Service configuration entry must be an object.".
Definition conf_depends := "Depends must be either an array or string.".
Definition conf_behaviour :=
  "Service configuration data should not contain functions.".
Definition fns_object := "Service function data must be an object.".
Definition fns_start := "Start function must be present.".
Definition fns_startFn := "Start function must be a function.".
Definition fns_stop := "Stop function must be a function.".
End errors.

(** One step of the outer [forEach] of [checkConfig]. *)
Definition checkConfigEntry (v : value) : outcome unit :=
  if negb (isObject v) then Throw (TypeError errors.conf_object)
  else if has_member v "depends" && negb (isDepends (member v "depends"))
  then Throw (TypeError errors.conf_depends)
  else
    foldM (λ (_ : unit) data,
             if isFn data then Throw (TypeError errors.conf_behaviour)
             else Ok tt)
          tt (entry_values v).

Definition checkConfig (conf : Config) : outcome bool :=
  _ ← foldM (λ (_ : unit) kv, checkConfigEntry kv.2) tt conf;
  Ok true.

(** ** Behaviours

    A callback is a function of its two arguments and of the callback
    invocations made so far, which stand for whatever outside state it
    keeps; it returns a value or throws.  Callbacks that call back into the
    system they are run by are not covered. *)

Inductive result : Type :=
| Returns (v : value)
| Throws (e : exn).

(** A record of one callback invocation: the arguments passed and what came
    back, and for a start callback the service values at that moment. *)
Inductive call : Type :=
| StartCall (service : string) (deps : gmap string value)
            (values : gmap string value) (r : result)
| StopCall (service : string) (v : value) (deps : gmap string value)
           (r : result).

Definition start_fn : Type := list call → Config → gmap string value → result.
Definition stop_fn : Type := list call → value → gmap string value → result.

(** A property of a behaviour record: missing, holding something that is
    not a function, or holding a function. *)
Inductive slot (F : Type) : Type :=
| Absent
| Data (v : value)
| Callable (f : F).
Arguments Absent {F}.
Arguments Data {F} v.
Arguments Callable {F} f.

(** An entry of the behaviour registry: a record [{start, stop}], or a value
    with neither property (a primitive, [null], [undefined], a plain data
    object). *)
Inductive fn_entry : Type :=
| FnRecord (start : slot start_fn) (stop : slot stop_fn)
| FnOther (v : value).

Definition Fns : Type := obj fn_entry.

(** [fns[k]] on the registry, a plain object: a member of
    [Object.prototype] has neither a [start] nor a [stop] property. *)
Definition lookup_fn (fns : Fns) (k : string) : option fn_entry :=
  match prop fns k with
  | Some e => Some e
  | None => FnOther <$> inherited k
  end.

Definition slot_in {F : Type} (s : slot F) : bool :=
  match s with Absent => false | _ => true end.

Definition slot_isFn {F : Type} (s : slot F) : bool :=
  match s with Callable _ => true | _ => false end.

Definition slot_truthy {F : Type} (s : slot F) : bool :=
  match s with
  | Absent => false
  | Data v => truthy v
  | Callable _ => true
  end.

(** One step of the [forEach] of [checkFns]. *)
Definition checkFnsEntry (v : fn_entry) : outcome unit :=
  match v with
  | FnOther v =>
      if negb (isObject v) then Throw (TypeError errors.fns_object)
      else Throw (TypeError errors.fns_start)
  | FnRecord start stop =>
      if slot_in start then
        if negb (slot_isFn start) then Throw (TypeError errors.fns_startFn)
        else if slot_in stop && negb (slot_isFn stop)
             then Throw (TypeError errors.fns_stop)
             else Ok tt
      else Throw (TypeError errors.fns_start)
  end.

Definition checkFns (fns : Fns) : outcome bool :=
  _ ← foldM (λ (_ : unit) kv, checkFnsEntry kv.2) tt fns;
  Ok true.

Definition check (conf : Config) (fns : Fns) : outcome bool :=
  _ ← checkConfig conf;
  _ ← checkFns fns;
  Ok true.

(** ** The system *)

Definition nullifyVals {A : Type} (o : obj A) : gmap string value :=
  foldl (λ acc k, <[k := VNull]> acc) ∅ (keys o).

(** [services[dep]]: the own property, or else the inherited member. *)
Definition read (services : gmap string value) (k : string) : value :=
  match services !! k with
  | Some v => v
  | None => default VUndefined (inherited k)
  end.

Definition collectDeps (deps : list string) (services : gmap string value)
  : gmap string value :=
  foldl (λ acc dep, <[dep := read services dep]> acc) ∅ deps.

Record System : Type := mkSystem {
  config : Config;
  _order : list string;
  _services : gmap string value;
  _fns : Fns
}.

(** The getter defined for service [k]. *)
Definition get (sys : System) (k : string) : value := read (_services sys) k.

(** *** Stateful computations that may throw *)

Definition M (S A : Type) : Type := S → outcome A * S.

#[global] Instance M_ret {S} : MRet (M S) := λ A a s, (Ok a, s).
#[global] Instance M_bind {S} : MBind (M S) := λ A B f m s,
  match m s with
  | (Ok a, s') => f a s'
  | (Throw e, s') => (Throw e, s')
  | (OutOfFuel, s') => (OutOfFuel, s')
  end.

Definition lift {S A : Type} (o : outcome A) : M S A := λ s, (o, s).
Definition gets {S A : Type} (f : S → A) : M S A := λ s, (Ok (f s), s).
Definition modify {S : Type} (f : S → S) : M S unit := λ s, (Ok tt, f s).

(** [xs.forEach(f)] for a stateful [f]. *)
Fixpoint forEach {S A : Type} (f : A → M S unit) (xs : list A) : M S unit :=
  match xs with
  | [] => mret tt
  | x :: xs' => _ ← f x; forEach f xs'
  end.

(** *** Construction *)

(** The own properties of the object under construction, and of the
    object built: the four fields, each [None] as long as the object has no
    data property of that name, and the names for which the object has a
    getter. *)
Record partial : Type := mkPartial {
  p_config : option Config;
  p_order : option (list string);
  p_services : option (gmap string value);
  p_fns : option Fns;
  p_getters : list string
}.

Definition blank : partial := mkPartial None None None None [].

(** [Object.defineProperty(this, k, { get, ... })]: the object has a getter
    named [k] from now on.  Where [k] is the name of a field, the getter
    takes the place of the data property, whose value the object no longer
    holds. *)
Definition defineGetter (k : string) : M partial unit :=
  modify (λ p, mkPartial (if decide (k = "config") then None else p_config p)
                         (if decide (k = "_order") then None else p_order p)
                         (if decide (k = "_services") then None
                          else p_services p)
                         (if decide (k = "_fns") then None else p_fns p)
                         (p_getters p ++ [k])).

Definition construct (conf : Config) (fns : Fns) (validate : bool)
  : M partial unit :=
  _ ← (if validate then lift (check conf fns) else mret true);
  _ ← modify (λ p, mkPartial (Some conf) (p_order p) (p_services p) (p_fns p)
                             (p_getters p));
  order ← lift (sortDeps conf);
  _ ← modify (λ p, mkPartial (p_config p) (Some order) (p_services p) (p_fns p)
                             (p_getters p));
  _ ← modify (λ p, mkPartial (p_config p) (p_order p)
                             (Some (nullifyVals conf)) (p_fns p)
                             (p_getters p));
  _ ← modify (λ p, mkPartial (p_config p) (p_order p) (p_services p) (Some fns)
                             (p_getters p));
  forEach defineGetter (keys conf).

(** [System(config, fns, validate)]: the constructed object, or the
    exception that construction threw. *)
Definition new_System (conf : Config) (fns : Fns) (validate : bool)
  : outcome partial :=
  match construct conf fns validate blank with
  | (Ok _, p) => Ok p
  | (Throw e, _) => Throw e
  | (OutOfFuel, _) => OutOfFuel
  end.

(** *** Start and stop *)

(** What runs: the system and the callback invocations made so far. *)
Record world : Type := mkWorld {
  this : System;
  calls : list call
}.

(** [services[k] = v]: the own property is set, or created.  Under the
    name [__proto__], where that is not an own property, the assignment
    goes to the accessor of [Object.prototype] and no property is
    created. *)
Definition assign (k : string) (v : value) (services : gmap string value)
  : gmap string value :=
  if decide (k = "__proto__" ∧ services !! k = None) then services
  else <[k := v]> services.

Definition set_service (k : string) (v : value) : M world unit :=
  modify (λ w, mkWorld (mkSystem (config (this w)) (_order (this w))
                                 (assign k v (_services (this w)))
                                 (_fns (this w)))
                       (calls w)).

Definition set_order (order : list string) : M world unit :=
  modify (λ w, mkWorld (mkSystem (config (this w)) order
                                 (_services (this w)) (_fns (this w)))
                       (calls w)).

Definition record_call (c : call) : M world unit :=
  modify (λ w, mkWorld (this w) (calls w ++ [c])).

Definition of_result (r : result) : outcome value :=
  match r with Returns v => Ok v | Throws e => Throw e end.

(** [this._fns[service].start(this.config, deps)] *)
Definition call_start (service : string) (deps : gmap string value)
  : M world value :=
  entry ← gets (λ w, lookup_fn (_fns (this w)) service);
  match entry with
  | None => lift (Throw (TypeError "Cannot read property 'start' of undefined"))
  | Some (FnOther v) =>
      if nullish v
      then lift (Throw (TypeError "Cannot read property 'start' of null"))
      else lift (Throw (TypeError "start is not a function"))
  | Some (FnRecord (Callable f) _) =>
      r ← gets (λ w, f (calls w) (config (this w)) deps);
      values ← gets (λ w, _services (this w));
      _ ← record_call (StartCall service deps values r);
      lift (of_result r)
  | Some (FnRecord _ _) => lift (Throw (TypeError "start is not a function"))
  end.

(** [start(service)] with a service name. *)
Fixpoint start_service (fuel : nat) (service : string) : M world unit :=
  match fuel with
  | 0 => lift OutOfFuel
  | S fuel' =>
      deps ← (conf ← gets (λ w, config (this w)); lift (dependsOn conf service));
      xs ← lift (as_array deps);
      _ ← forEach (start_service fuel') xs;
      cur ← gets (λ w, read (_services (this w)) service);
      if is_null cur then
        args ← gets (λ w, collectDeps xs (_services (this w)));
        v ← call_start service args;
        set_service service v
      else mret tt
  end.

(** The depth of recursion that [start] is given: one more than the number
    of services, which is more than any acyclic chain of dependencies. *)
Definition depth (w : world) : nat := S (length (config (this w))).

(** [start(service)]; [None] is the call without an argument. *)
Definition start (service : option string) : M world unit :=
  match service with
  | Some service => fuel ← gets depth; start_service fuel service
  | None =>
      order ← gets (λ w, _order (this w));
      fuel ← gets depth;
      forEach (start_service fuel) order
  end.

(** The [stop] property read by [{ stop } = this._fns[service]]. *)
Definition read_stop (service : string) : M world (slot stop_fn) :=
  entry ← gets (λ w, lookup_fn (_fns (this w)) service);
  match entry with
  | None => lift (Throw (TypeError "Cannot destructure property 'stop' of undefined"))
  | Some (FnOther v) =>
      if nullish v
      then lift (Throw (TypeError "Cannot destructure property 'stop' of null"))
      else mret Absent
  | Some (FnRecord _ stop) => mret stop
  end.

(** [stop(this._services[service], deps)] for a truthy [stop]. *)
Definition call_stop (stop : slot stop_fn) (service : string) (v : value)
    (deps : gmap string value) : M world unit :=
  match stop with
  | Callable f =>
      r ← gets (λ w, f (calls w) v deps);
      _ ← record_call (StopCall service v deps r);
      _ ← lift (of_result r);
      mret tt
  | _ => lift (Throw (TypeError "stop is not a function"))
  end.

(** [stop(service)] with a service name. *)
Definition stop_service (service : string) : M world unit :=
  deps ← (conf ← gets (λ w, config (this w)); lift (dependsOn conf service));
  stop ← read_stop service;
  cur ← gets (λ w, read (_services (this w)) service);
  if negb (is_null cur) then
    _ ← (if slot_truthy stop then
           xs ← lift (as_array deps);
           args ← gets (λ w, collectDeps xs (_services (this w)));
           call_stop stop service cur args
         else mret tt);
    set_service service VNull
  else mret tt.

(** [stop(service)]; [None] is the call without an argument, which reverses
    the array [_order] in place and walks it. *)
Definition stop (service : option string) : M world unit :=
  match service with
  | Some service => stop_service service
  | None =>
      order ← gets (λ w, _order (this w));
      _ ← set_order (reverse order);
      forEach stop_service (reverse order)
  end.

(** *** String representation *)

(** [Object.entries(this._services)], for the [_services] that the
    constructor builds: its own properties are the services, in the order
    of the configuration, and [start] and [stop] keep the properties that
    exist and their order.  A [stop] of a name that is no own property
    creates one; where that comes in the enumeration is not described, and
    it is left out here. *)
Definition service_entries (sys : System) : list (string * value) :=
  omap (λ k, (λ v, (k, v)) <$> _services sys !! k) (keys (config sys)).

(** [xs.join(sep)] on strings. *)
Definition join (sep : string) (xs : list string) : string :=
  String.concat sep xs.

(** [System.prototype.toString]: a non-empty string is truthy. *)
Definition toString (sys : System) : string :=
  let started :=
    join ", " (fst <$> filter (λ kv, is_null kv.2 = false) (service_entries sys)) in
  let names :=
    if negb (String.eqb started "")
    then String.append "{" (String.append started "}")
    else "" in
  String.append "[object System" (String.append names "]").

(** *** Calling a method of the object built *)

(** [obj.m(...)], for a method [m] of [System.prototype] with body
    [body], on an object with the getters [getters] whose fields are data
    properties.  A getter named [m] hides the method: what is called is
    the value of the service [m], which is a [TypeError] unless that value
    is a function; what such a function would do is not described. *)
Definition send (getters : list string) (m : string) (body : M world unit)
    (w : world) : option (outcome unit * world) :=
  if decide (m ∈ getters) then
    match read (_services (this w)) m with
    | VFun _ => None
    | _ => Some (Throw (TypeError "is not a function"), w)
    end
  else Some (body w).

(** ** The scenario of the test suite *)

Definition startX : start_fn := λ _ conf _,
  Returns (member (default VUndefined (prop conf "x")) "val").
Definition startY : start_fn := λ _ conf _,
  Returns (member (default VUndefined (prop conf "y")) "val").
(** [x + y] on the numbers that the test passes; another operand is read
    as [0]. *)
Definition num (v : option value) : Z :=
  match v with Some (VNum n) => n | _ => 0%Z end.
Definition startSum : start_fn := λ _ _ deps,
  Returns (VNum (num (deps !! "x") + num (deps !! "y"))).

Definition test_fns : Fns :=
  [ ("x", FnRecord (Callable startX) Absent);
    ("y", FnRecord (Callable startY) Absent);
    ("sum", FnRecord (Callable startSum) Absent) ].

(** Run a computation on a system with no callback invoked yet. *)
Definition run {A : Type} (m : M world A) (sys : System) : outcome A * world :=
  m (mkWorld sys []).

(** * Vocabulary of the properties *)

(** ** The dependency relation *)

(** The dependency names of a service, as [depEdges] and [start] walk
    them. *)
Definition dependencies (conf : Config) (service : string)
  : outcome (list string) :=
  deps ← dependsOn conf service; as_array deps.

(** [d] is a direct dependency of [s]. *)
Definition depends (conf : Config) (d s : string) : Prop :=
  ∃ xs, dependencies conf s = Ok xs ∧ d ∈ xs.

(** [x] comes strictly before [y] in [l]. *)
Definition before (l : list string) (x y : string) : Prop :=
  ∃ i j, l !! i = Some x ∧ l !! j = Some y ∧ (i < j)%nat.

(** A configuration as the data model has it: distinct service names, and
    for every service a list of dependencies that are all configured. *)
Definition wf_config (conf : Config) : Prop :=
  NoDup (keys conf)
  ∧ ∀ s, s ∈ keys conf →
         ∃ xs, dependencies conf s = Ok xs ∧ ∀ d, d ∈ xs → d ∈ keys conf.

(** No service depends on itself, directly or through other services. *)
Definition acyclic (conf : Config) : Prop :=
  ∀ x, ¬ tc (depends conf) x x.

(** *** The dependencies in the words of the design

    What the data model of the design says of a configuration, read off
    the data and not through [dependsOn]. *)
Module Spec.

(** [dependenciesOf(config, name)]: a missing [depends] field yields an
    empty sequence, a string a single-element sequence, a sequence is
    returned as it is; there is no answer for a name that is not configured
    or whose entry is no such record. *)
Definition dependenciesOf (conf : Config) (name : string)
  : option (list string) :=
  match prop conf name with
  | Some (VObj fields) =>
      match prop fields "depends" with
      | None => Some []
      | Some (VStr d) => Some [d]
      | Some (VArr ds) => Some ds
      | Some _ => None
      end
  | _ => None
  end.

(** [d] must start before [s]: the record of [s] names [d]. *)
Definition requires (conf : Config) (d s : string) : Prop :=
  ∃ ds, dependenciesOf conf s = Some ds ∧ d ∈ ds.

(** Distinct service names, each with a record whose [depends] names
    configured services only. *)
Definition well_formed (conf : Config) : Prop :=
  NoDup (keys conf)
  ∧ ∀ s, s ∈ keys conf →
         ∃ ds, dependenciesOf conf s = Some ds ∧ ∀ d, d ∈ ds → d ∈ keys conf.

(** No service transitively depends on itself. *)
Definition acyclic (conf : Config) : Prop :=
  ∀ x, ¬ tc (requires conf) x x.

End Spec.

(** An executable check of [wf_config]. *)
Definition wf_configb (conf : Config) : bool :=
  bool_decide (NoDup (keys conf))
  && forallb (λ s, match dependencies conf s with
                   | Ok xs => forallb (λ d, bool_decide (d ∈ keys conf)) xs
                   | _ => false
                   end) (keys conf).

(** Validation is off, or it passes. *)
Definition validated (conf : Config) (fns : Fns) (validate : bool) : Prop :=
  validate = true → check conf fns = Ok true.

(** Some service record holds a function. *)
Definition has_function (conf : Config) : Prop :=
  ∃ k fields f id, (k, VObj fields) ∈ conf ∧ (f, VFun id) ∈ fields.

(** The messages of [checkConfig]. *)
Definition config_error (msg : string) : Prop :=
  msg = errors.conf_object ∨ msg = errors.conf_depends
  ∨ msg = errors.conf_behaviour.

(** ** The topological sort *)

Module Graph.
Import Toposort.

(** The edge relation of the graph. *)
Definition E (es : list edge) (a b : string) : Prop := (a, b) ∈ es.

(** What holds between two calls of [visit]: [sorted] lists, without
    repetition, the nodes whose visit is over; the nodes marked visited
    are those and the ones on the current path; every successor of a
    node of [sorted] comes later in [sorted]. *)
Record Inv (nodes : list string) (es : list edge) (preds : gset string)
    (st : state) : Prop := mkInv {
  inv_nodup : NoDup (sorted st);
  inv_visited : ∀ i x, nodes !! i = Some x →
                       i ∈ visited st ↔ x ∈ sorted st ∨ x ∈ preds;
  inv_disj : ∀ x, x ∈ sorted st → x ∉ preds;
  inv_nodes : ∀ x, x ∈ sorted st → x ∈ nodes;
  inv_topo : ∀ i x y, sorted st !! i = Some x → E es x y →
                      ∃ j, (i < j)%nat ∧ sorted st !! j = Some y
}.

(** The nodes on the path lead to the node being visited. *)
Definition on_path (es : list edge) (preds : gset string) (node : string)
  : Prop :=
  ∀ p, p ∈ preds → tc (E es) p node.

(** The loop of [toposort.array] over the nodes, last to first. *)
Definition visit_all (nodes : list string) (es : list edge) (fuel : nat)
  : outcome state :=
  foldM (λ st (ix : nat * string),
           if decide (ix.1 ∈ visited st) then Ok st
           else visit (makeNodesHash nodes) (makeOutgoingEdges es) fuel ∅ st ix.2)
        (mkState ∅ []) (reverse (imap pair nodes)).

(** The check of the edges at the start of [toposort.array]. *)
Definition known (nodes : list string) (es : list edge) : outcome unit :=
  foldM (λ (_ : unit) (e : edge),
           if decide (is_Some (makeNodesHash nodes !! e.1)
                      ∧ is_Some (makeNodesHash nodes !! e.2))
           then Ok tt else Throw UnknownNodeError) tt es.

End Graph.

(** ** Worlds and callback invocations *)

(** The service values of a world. *)
Abbreviation sv w := (_services (this w)).

(** The start callback registered for a service, if there is one. *)
Definition start_callback (fns : Fns) (s : string) : option start_fn :=
  match prop fns s with
  | Some (FnRecord (Callable f) _) => Some f
  | _ => None
  end.

(** Every configured service has an entry in [_services]. *)
Definition cover (w : world) : Prop :=
  ∀ k, k ∈ keys (config (this w)) → is_Some (sv w !! k).

(** The service holds a value other than [null]. *)
Definition running (w : world) (s : string) : Prop :=
  ∃ v, sv w !! s = Some v ∧ v ≠ VNull.

(** A world over [conf] and [fns] with a value for every service. *)
Definition good (conf : Config) (fns : Fns) (w : world) : Prop :=
  config (this w) = conf ∧ _fns (this w) = fns ∧ cover w.

(** Start callbacks that, when they return, do not return [null]; their
    first argument is always the configuration of the system. *)
Definition nonnull_fns (conf : Config) (fns : Fns) : Prop :=
  ∀ s f, start_callback fns s = Some f →
         ∀ h a v, f h conf a = Returns v → v ≠ VNull.

(** A registry as the data model has it: no start callback returns
    [null], and every configured service has a record with a start
    callback, which returns, and with no stop callback or one that
    returns. *)
Definition total_fns (conf : Config) (fns : Fns) : Prop :=
  nonnull_fns conf fns
  ∧ ∀ s, s ∈ keys conf →
         ∃ f stop_cb,
           prop fns s = Some (FnRecord (Callable f) stop_cb)
           ∧ (∀ h a, ∃ v, f h conf a = Returns v ∧ v ≠ VNull)
           ∧ (stop_cb = Absent
              ∨ ∃ g, stop_cb = Callable g ∧ ∀ h v a, ∃ r, g h v a = Returns r).

(** What a start operation with outcome [r] and final values [final] makes
    of one of the invocations [new] it recorded: a start call of a service
    in [R], made while the service was [null], on the values of its
    dependencies at that moment; if it returned a non-null value, that
    value is in place at the end; if it threw, it is the last thing that
    happened, and its exception is the outcome. *)
Definition start_event_ok (conf : Config) (R : string → Prop)
    (r : outcome unit) (final : gmap string value) (new : list call)
    (c : call) : Prop :=
  match c with
  | StartCall x args vals res =>
      R x ∧ read vals x = VNull
      ∧ (∃ xs, dependencies conf x = Ok xs ∧ args = collectDeps xs vals)
      ∧ match res with
        | Returns v => is_null v = false → final !! x = Some v
        | Throws e => r = Throw e ∧ final = vals ∧ last new = Some c
        end
  | StopCall _ _ _ _ => False
  end.

(** [evolves conf R w r w'] describes a start operation that took the
    world from [w] to [w'] with outcome [r]: configuration, order and
    registry are untouched, no key is added or removed, a value that is
    not [null] stays, a value changes only through a start call of its
    service, and the new invocations are as [start_event_ok] says. *)
Record evolves (conf : Config) (R : string → Prop) (w : world)
    (r : outcome unit) (w' : world) : Prop := mkEvolves {
  ev_config : config (this w) = conf;
  ev_config' : config (this w') = conf;
  ev_order : _order (this w') = _order (this w);
  ev_fns : _fns (this w') = _fns (this w);
  ev_dom : ∀ k, is_Some (sv w' !! k) ↔ is_Some (sv w !! k);
  ev_mono : ∀ k, is_null (read (sv w) k) = false → sv w' !! k = sv w !! k;
  ev_calls : ∃ new, calls w' = calls w ++ new
                    ∧ Forall (start_event_ok conf R r (sv w') new) new
                    ∧ ∀ k, sv w' !! k = sv w !! k
                           ∨ ∃ args vals res, StartCall k args vals res ∈ new
}.

(** A start call made when every direct dependency of the service held a
    non-null value, and given exactly these values under the names of the
    dependencies. *)
Definition ready (conf : Config) (c : call) : Prop :=
  match c with
  | StartCall x args vals _ =>
      ∃ xs, dependencies conf x = Ok xs
            ∧ (∀ d, d ∈ xs → ∃ v, vals !! d = Some v ∧ v ≠ VNull
                                  ∧ args !! d = Some v)
            ∧ ∀ d, d ∉ xs → args !! d = None
  | StopCall _ _ _ _ => False
  end.

(** The specification of one start step that the iteration lifts to all
    steps. *)
Definition step_ready (conf : Config) (w : world) (r : outcome unit)
    (w' : world) (x : string) : Prop :=
  evolves conf (λ _, True) w r w'
  ∧ (r = Ok tt → x ∈ keys conf → running w' x)
  ∧ ∀ new, calls w' = calls w ++ new → Forall (ready conf) new.

(** From a well set up world, the steps of a start operation lead to a
    well set up world in which the running services are still running,
    and every name that read as something other than [null] still does. *)
Definition carries (conf : Config) (fns : Fns) (a b : world) : Prop :=
  good conf fns a →
  good conf fns b
  ∧ (∀ k, running a k → running b k)
  ∧ ∀ k, read (sv a) k ≠ VNull → read (sv b) k ≠ VNull.


(** The invocation is a start call of [s]. *)
Definition is_start_of (s : string) (c : call) : bool :=
  match c with
  | StartCall x _ _ _ => bool_decide (x = s)
  | StopCall _ _ _ _ => false
  end.

(** The number of invocations of the start callback of [s] among [cs]. *)
Definition invocations (s : string) (cs : list call) : nat :=
  length (List.filter (is_start_of s) cs).

(** ** Objects that the constructor builds *)

(** The names of the fields. *)
Definition field_names : list string :=
  ["config"; "_order"; "_services"; "_fns"].

(** The object with the fields of [sys] and a getter for each of its
    services. *)
Definition built (sys : System) : partial :=
  mkPartial (Some (config sys)) (Some (_order sys)) (Some (_services sys))
            (Some (_fns sys)) (keys (config sys)).

(** The names of the members that [start] and [stop] use: the fields and
    the two methods themselves. *)
Definition member_names : list string := field_names ++ ["start"; "stop"].

(** What the constructor makes of [conf], [fns] and the order [order]: a
    field named as a service is hidden by the getter of that service. *)
Definition object (conf : Config) (order : list string) (fns : Fns)
  : partial :=
  mkPartial (if decide ("config" ∈ keys conf) then None else Some conf)
            (if decide ("_order" ∈ keys conf) then None else Some order)
            (if decide ("_services" ∈ keys conf) then None
             else Some (nullifyVals conf))
            (if decide ("_fns" ∈ keys conf) then None else Some fns)
            (keys conf).

(** ** Example systems *)

(** The system of the test suite as [System(conf, fns, true)] builds it. *)
Definition test_sys : System :=
  mkSystem test_conf ["x"; "y"; "sum"] (nullifyVals test_conf) test_fns.

(** The same system with an empty behaviour registry. *)
Definition bare_sys : System :=
  mkSystem test_conf ["x"; "y"; "sum"] (nullifyVals test_conf) [].

(** A stop callback whose result is to be ignored. *)
Definition stopSum : stop_fn := λ _ _ _, Returns (VStr "ignored").

(** The test system with all services running and a stop callback for
    [sum]. *)
Definition stoppable_sys : System :=
  mkSystem test_conf ["x"; "y"; "sum"]
           (<["x" := VNum 1]> (<["y" := VNum 2]> (<["sum" := VNum 3]> ∅)))
           [ ("x", FnRecord (Callable startX) Absent);
             ("y", FnRecord (Callable startY) Absent);
             ("sum", FnRecord (Callable startSum) (Callable stopSum)) ].

(** A two-service cycle. *)
Definition cycle_conf : Config :=
  [ ("a", VObj [("depends", VStr "b")]);
    ("b", VObj [("depends", VStr "a")]) ].

(** The configuration of the test suite with its services in the opposite
    order. *)
Definition shuffled_conf : Config :=
  [ ("sum", VObj [("depends", VArr ["x"; "y"])]);
    ("y", VObj [("val", VNum 2); ("depends", VStr "x")]);
    ("x", VObj [("val", VNum 1)]) ].

(** A two-service cycle one of whose services also depends on a name that
    is not configured. *)
Definition dangling_cycle_conf : Config :=
  [ ("a", VObj [("depends", VArr ["b"; "zzz"])]);
    ("b", VObj [("depends", VStr "a")]) ].

(** A single service that depends on a name that is not configured. *)
Definition dangling_conf : Config :=
  [ ("a", VObj [("depends", VStr "zzz")]) ].

(** A two-service cycle one of whose records holds a function. *)
Definition hooked_cycle_conf : Config :=
  [ ("a", VObj [("hook", VFun 0); ("depends", VStr "b")]);
    ("b", VObj [("depends", VStr "a")]) ].

(** A record that holds a function, in a configuration without cycle. *)
Definition hooked_conf : Config :=
  [ ("a", VObj [("hook", VFun 0)]);
    ("b", VObj [("depends", VStr "a")]) ].

(** The test system with a [sum] whose start callback throws. *)
Definition failing_sys : System :=
  mkSystem test_conf ["x"; "y"; "sum"] (nullifyVals test_conf)
           [ ("x", FnRecord (Callable startX) Absent);
             ("y", FnRecord (Callable startY) Absent);
             ("sum", FnRecord (Callable (λ _ _ _, Throws (Thrown (VStr "boom"))))
                              Absent) ].

(** [start('sum')] on it. *)
Definition failing_run : outcome unit * world :=
  Eval vm_compute in run (start (Some "sum")) failing_sys.





(** A service named [stop]. *)
Definition stop_conf : Config := [("stop", VObj [])].
Definition stop_fns : Fns :=
  [("stop", FnRecord (Callable (λ _ _ _, Returns (VNum 1))) Absent)].
Definition stop_named_sys : System :=
  mkSystem stop_conf ["stop"] (nullifyVals stop_conf) stop_fns.

(** A start callback that returns [null]. *)
Definition null_sys : System :=
  mkSystem [("a", VObj [])] ["a"] (nullifyVals [("a", VObj [])])
           [("a", FnRecord (Callable (λ _ _ _, Returns VNull)) Absent)].

(** ** Vocabulary of the further properties *)

(** The value of a computation that succeeded, [d] otherwise. *)
Definition ok_or {A : Type} (d : A) (o : outcome A) : A :=
  match o with Ok a => a | _ => d end.

(** A configuration entry as the design wants it, with the arrays that
    JavaScript counts as objects: an array, or an object whose [depends]
    property, if it has one, holds a string or an array, and none of whose
    properties holds a function. *)
Definition valid_entry (v : value) : Prop :=
  match v with
  | VArr _ => True
  | VObj fields =>
      (∀ d, prop fields "depends" = Some d →
            (∃ s, d = VStr s) ∨ ∃ xs, d = VArr xs)
      ∧ ∀ k id, (k, VFun id) ∉ fields
  | _ => False
  end.

(** A registry entry that [checkFns] accepts: a record with a start
    function and, if it has a [stop], a stop function. *)
Definition valid_fn_entry (e : fn_entry) : Prop :=
  ∃ f stop_cb, e = FnRecord (Callable f) stop_cb
               ∧ (stop_cb = Absent ∨ ∃ g, stop_cb = Callable g).

(** The services that a start or stop operation is asked to handle. *)
Definition targets (w : world) (service : option string) : list string :=
  match service with
  | Some s => [s]
  | None => _order (this w)
  end.






(** The running test system with a stop callback of [sum] that throws. *)
Definition stop_fails_sys : System :=
  mkSystem test_conf ["x"; "y"; "sum"]
           (<["x" := VNum 1]> (<["y" := VNum 2]> (<["sum" := VNum 3]> ∅)))
           [ ("x", FnRecord (Callable startX) Absent);
             ("y", FnRecord (Callable startY) Absent);
             ("sum", FnRecord (Callable startSum)
                              (Callable (λ _ _ _, Throws (Thrown (VStr "busy"))))) ].



(** The names that [toString] lists: the services whose value is not
    [null], in key order. *)
Definition started_names (sys : System) : list string :=
  fst <$> filter (λ kv, is_null kv.2 = false) (service_entries sys).

(** In an operation from [w] to [w'] with outcome [r], no start callback
    runs twice, none runs for a service that was running, and a service
    whose callback ran is running when the operation returns. *)
Definition once (w : world) (r : outcome unit) (w' : world) : Prop :=
  ∀ new, calls w' = calls w ++ new →
         ∀ x, (invocations x new ≤ 1)%nat
              ∧ (read (sv w) x ≠ VNull → invocations x new = 0%nat)
              ∧ (r = Ok tt → invocations x new = 1%nat →
                 read (sv w') x ≠ VNull).

(** * Properties *)

Example sortDeps_test : sortDeps test_conf = Ok ["x"; "y"; "sum"].
Proof. vm_compute. reflexivity. Qed.

Example sortDeps_cycle :
  sortDeps [("a", VObj [("depends", VStr "b")]); ("b", VObj [("depends", VStr "a")])]
  = Throw (CycleError "b").
Proof. vm_compute. reflexivity. Qed.

(** ** Outcomes and iteration *)

Lemma bind_Ok {A B : Type} (m : outcome A) (f : A → outcome B) (b : B) :
  m ≫= f = Ok b ↔ ∃ a, m = Ok a ∧ f a = Ok b.
Proof.
  destruct m; simpl; split.
  - eauto.
  - by intros (? & [= <-] & ?).
  - done.
  - by intros (? & ? & _).
  - done.
  - by intros (? & ? & _).
Qed.

(** ** Own properties *)

Lemma prop_None_keys {A : Type} (o : obj A) (k : string) :
  prop o k = None ↔ k ∉ keys o.
Proof.
  induction o as [|[k' v'] o IH]; simpl.
  - split; [by intros _ ?%elem_of_nil|done].
  - rewrite not_elem_of_cons. case_decide; subst.
    + split; [done|]. by intros [? _].
    + rewrite IH. split; [by intros ?|by intros [_ ?]].
Qed.

(** ** Inherited members *)

Lemma inherited_Some (k : string) (v : value) :
  inherited k = Some v →
  k ∈ Object_prototype ∧ (v = VObj [] ∨ ∃ i, v = VFun i).
Proof.
  unfold inherited. case_decide as Hk.
  - intros [= <-]. subst. split; [|by left].
    unfold Object_prototype. set_solver.
  - destruct (list_find _ _) as [[i n]|] eqn:Hfind; [|done].
    intros [= <-]. apply list_find_Some in Hfind as (Hin & -> & _).
    split; [by eapply list_elem_of_lookup_2|right; eauto].
Qed.

Lemma inherited_is_Some (k : string) :
  is_Some (inherited k) ↔ k ∈ Object_prototype.
Proof.
  split; [by intros [v [? _]%inherited_Some]|].
  intros Hk. unfold inherited. case_decide; [done|].
  destruct (list_find (λ n, n = k) Object_prototype) as [[i n]|] eqn:Hfind;
    [done|].
  apply list_find_None in Hfind. rewrite Forall_forall in Hfind.
  by destruct (Hfind k Hk).
Qed.

Lemma inherited_None (k : string) :
  inherited k = None ↔ k ∉ Object_prototype.
Proof. rewrite <-inherited_is_Some, eq_None_not_Some. done. Qed.

Lemma inherited_not_null (k : string) (v : value) :
  inherited k = Some v →
  v ≠ VNull ∧ nullish v = false ∧ member v "depends" = VUndefined.
Proof. by intros [_ [->|[i ->]]]%inherited_Some. Qed.

Lemma lookup_own (o : obj value) (k : string) (v : value) :
  prop o k = Some v → lookup o k = Some v.
Proof. unfold lookup. by intros ->. Qed.

Lemma lookup_fn_own (fns : Fns) (k : string) (e : fn_entry) :
  prop fns k = Some e → lookup_fn fns k = Some e.
Proof. unfold lookup_fn. by intros ->. Qed.

Lemma read_own (services : gmap string value) (k : string) (v : value) :
  services !! k = Some v → read services k = v.
Proof. unfold read. by intros ->. Qed.

Lemma assign_own (services : gmap string value) (k : string) (v : value) :
  is_Some (services !! k) → assign k v services = <[k := v]> services.
Proof.
  intros [v0 Hv0]. unfold assign. case_decide as Hd; [|done].
  destruct Hd as [_ Hd]. congruence.
Qed.


Lemma read_inherited (services : gmap string value) (k : string) :
  services !! k = None → read services k = default VUndefined (inherited k).
Proof. unfold read. by intros ->. Qed.

(** ** Direct dependencies and the edges *)

(** A name that is not configured has a dependency list only as a member
    of [Object.prototype], and then an empty one. *)
Lemma dependencies_inherited (conf : Config) (s : string) (xs : list string) :
  dependencies conf s = Ok xs → s ∉ keys conf →
  xs = [] ∧ s ∈ Object_prototype.
Proof.
  unfold dependencies, dependsOn, lookup. intros Hxs Hs.
  rewrite (proj2 (prop_None_keys conf s) Hs) in Hxs.
  destruct (inherited s) as [v|] eqn:Hv; [|done].
  destruct (inherited_not_null _ _ Hv) as (_ & Hn & Hd).
  rewrite Hn, Hd in Hxs. simpl in Hxs. injection Hxs as <-.
  split; [done|]. apply inherited_is_Some. eauto.
Qed.

Lemma dependencies_keys (conf : Config) (s d : string) (xs : list string) :
  dependencies conf s = Ok xs → d ∈ xs → s ∈ keys conf.
Proof.
  intros Hxs Hd. destruct (decide (s ∈ keys conf)) as [|Hs]; [done|].
  destruct (dependencies_inherited _ _ _ Hxs Hs) as [-> _].
  by apply elem_of_nil in Hd.
Qed.

Lemma depEdges_dependencies (conf : Config) (s : string) :
  depEdges conf s
  = dependencies conf s ≫= λ xs : list string, Ok ((λ dep, (dep, s)) <$> xs).
Proof.
  unfold depEdges, dependencies. destruct (dependsOn conf s); simpl; try done.
Qed.

Lemma flatMapM_Ok {A B : Type} (f : A → outcome (list B)) (xs : list A)
    (ys : list B) :
  flatMapM f xs = Ok ys →
  ∀ y, y ∈ ys ↔ ∃ x zs, x ∈ xs ∧ f x = Ok zs ∧ y ∈ zs.
Proof.
  revert ys. induction xs as [|x xs IH]; intros ys; simpl.
  - intros [= <-] y. split; [by intros ?%elem_of_nil|].
    by intros (? & ? & ?%elem_of_nil & _).
  - intros (zs & Hz & (ws & Hw & [= <-])%bind_Ok)%bind_Ok y.
    rewrite elem_of_app, (IH _ Hw). split.
    + intros [Hy|(x' & zs' & ? & ? & ?)].
      * exists x, zs. split; [left|done].
      * exists x', zs'. split; [by right|done].
    + intros (x' & zs' & [->|Hin]%elem_of_cons & Hf & Hy).
      * left. congruence.
      * right. eauto.
Qed.

Lemma flatMapM_total {A B : Type} (f : A → outcome (list B)) (xs : list A) :
  (∀ x, x ∈ xs → ∃ zs, f x = Ok zs) → ∃ ys, flatMapM f xs = Ok ys.
Proof.
  induction xs as [|x xs IH]; intros Hf; simpl; [eauto|].
  destruct (Hf x) as [zs ->]; [left|]. simpl.
  destruct IH as [ws ->]; [intros y Hy; apply Hf; by right|]. simpl. eauto.
Qed.

Lemma edges_spec (conf : Config) (es : list edge) :
  edges conf = Ok es →
  ∀ d s, (d, s) ∈ es ↔ depends conf d s.
Proof.
  unfold edges. intros (es' & Hes & [= <-])%bind_Ok d s.
  rewrite list_elem_of_filter, (flatMapM_Ok _ _ _ Hes). unfold depends. split.
  - intros (_ & s' & zs & Hs' & Hz & Hin).
    rewrite depEdges_dependencies in Hz.
    apply bind_Ok in Hz as (xs & Hxs & [= <-]).
    apply list_elem_of_fmap in Hin as (d' & [= -> ->] & Hd). eauto.
  - intros (xs & Hxs & Hd). split; [done|].
    exists s, ((λ dep, (dep, s)) <$> xs). split; [by eapply dependencies_keys|].
    rewrite depEdges_dependencies, Hxs. split; [done|].
    apply list_elem_of_fmap. eauto.
Qed.

Lemma edges_total (conf : Config) :
  (∀ s, s ∈ keys conf → ∃ xs, dependencies conf s = Ok xs) →
  ∃ es, edges conf = Ok es.
Proof.
  intros Hd. unfold edges.
  destruct (flatMapM_total (depEdges conf) (keys conf)) as [es ->]; [|simpl; eauto].
  intros s Hs. destruct (Hd s Hs) as [xs Hxs].
  rewrite depEdges_dependencies, Hxs. simpl. eauto.
Qed.

Lemma foldM_unit_Ok {A : Type} (f : unit → A → outcome unit) (xs : list A) :
  foldM f tt xs = Ok tt ↔ ∀ x, x ∈ xs → f tt x = Ok tt.
Proof.
  induction xs as [|x xs IH]; simpl.
  - split; [by intros _ ? ?%elem_of_nil|done].
  - split.
    + intros ([] & Hx & Hxs)%bind_Ok y [->|Hy]%elem_of_cons; [done|].
      by apply IH.
    + intros Hall. rewrite (Hall x) by left. simpl.
      apply IH. intros y Hy. apply Hall. by right.
Qed.

(** A successful [foldM] establishes, for each element, a property of the
    final state that later steps keep. *)
Lemma foldM_collect {A S : Type} (P : S → Prop) (Q : A → S → Prop)
    (f : S → A → outcome S) (xs : list A) (acc acc' : S) :
  (∀ s x s', x ∈ xs → P s → f s x = Ok s' →
             P s' ∧ Q x s' ∧ ∀ y, Q y s → Q y s') →
  P acc → foldM f acc xs = Ok acc' →
  P acc' ∧ (∀ x, x ∈ xs → Q x acc') ∧ ∀ y, Q y acc → Q y acc'.
Proof.
  revert acc.
  induction xs as [|x xs IH]; intros acc Hstep HP Hrun; simpl in *.
  - inversion Hrun; subst. split_and!; [done| |done]. by intros ? ?%elem_of_nil.
  - apply bind_Ok in Hrun as (s1 & H1 & H2).
    destruct (Hstep _ _ _ (list_elem_of_here _ _) HP H1) as (HP1 & HQ1 & Hmono1).
    destruct (IH s1) as (HP' & HQ' & Hmono'); [|done|done|].
    { intros s y s' Hy. apply Hstep. by right. }
    split_and!; [done| |by auto].
    intros y [->|Hy]%elem_of_cons; auto.
Qed.

(** ** The topological sort *)

Module ToposortFacts.
Import Toposort.

Lemma set_add_elem_of (s : list string) (x y : string) :
  y ∈ set_add s x ↔ y ∈ s ∨ y = x.
Proof.
  unfold set_add. case_decide.
  - split; [auto|]. by intros [?| ->].
  - rewrite elem_of_app, list_elem_of_singleton. done.
Qed.

Lemma makeOutgoingEdges_spec (arr : list edge) (x y : string) :
  y ∈ default [] (makeOutgoingEdges arr !! x) ↔ (x, y) ∈ arr.
Proof.
  unfold makeOutgoingEdges.
  induction arr as [|[a b] arr IH] using rev_ind.
  - simpl. rewrite lookup_empty. simpl. split; by intros ?%elem_of_nil.
  - rewrite foldl_app. simpl.
    set (m := foldl add_edge ∅ arr) in *. unfold add_edge. simpl.
    set (m1 := if m !! a is None then <[a:=[]]> m else m).
    set (m2 := if m1 !! b is None then <[b:=[]]> m1 else m1).
    assert (H1 : ∀ k, default [] (m1 !! k) = default [] (m !! k)).
    { intros k. unfold m1. destruct (m !! a) eqn:Ha; [done|].
      destruct (decide (a = k)) as [->|];
        [by rewrite lookup_insert_eq, Ha|by rewrite lookup_insert_ne]. }
    assert (H2 : ∀ k, default [] (m2 !! k) = default [] (m !! k)).
    { intros k. rewrite <-H1. unfold m2. destruct (m1 !! b) eqn:Hb; [done|].
      destruct (decide (b = k)) as [->|];
        [by rewrite lookup_insert_eq, Hb|by rewrite lookup_insert_ne]. }
    rewrite elem_of_app, list_elem_of_singleton.
    destruct (decide (a = x)) as [->|Hne].
    + rewrite lookup_insert_eq. simpl.
      rewrite set_add_elem_of, H2, IH. naive_solver.
    + rewrite lookup_insert_ne by done. rewrite H2, IH. naive_solver.
Qed.

Lemma makeNodesHash_fold (arr : list string) (m : gmap string nat) (n : nat) :
  let m' := (foldl (λ mi x, (<[x := mi.2]> mi.1, S mi.2)) (m, n) arr).1 in
  (∀ x i, m' !! x = Some i →
          (m !! x = Some i ∧ x ∉ arr)
          ∨ ((n ≤ i)%nat ∧ arr !! (i - n)%nat = Some x))
  ∧ (∀ x, x ∈ arr ∨ is_Some (m !! x) → is_Some (m' !! x)).
Proof.
  revert m n. induction arr as [|a arr IH]; intros m n; simpl.
  - split; [|by intros x [?%elem_of_nil|?]].
    intros x i Hx. left. split; [done|]. by intros ?%elem_of_nil.
  - destruct (IH (<[a:=n]> m) (S n)) as [IH1 IH2]. split.
    + intros x i Hx. destruct (IH1 x i Hx) as [[Hm Hnin]|[Hle Hl]].
      * destruct (decide (a = x)) as [->|Hne].
        -- rewrite lookup_insert_eq in Hm. injection Hm as <-.
           right. split; [lia|]. by rewrite Nat.sub_diag.
        -- rewrite lookup_insert_ne in Hm by done.
           left. split; [done|]. by intros [->|?]%elem_of_cons.
      * right. split; [lia|].
        replace (i - n) with (S (i - S n)) by lia. done.
    + intros x Hx. apply IH2.
      destruct (decide (a = x)) as [->|Hne].
      * right. rewrite lookup_insert_eq. eauto.
      * destruct Hx as [[->|?]%elem_of_cons|Hm]; [done|by left|].
        right. by rewrite lookup_insert_ne.
Qed.

Lemma makeNodesHash_lookup (nodes : list string) (x : string) (i : nat) :
  makeNodesHash nodes !! x = Some i → nodes !! i = Some x.
Proof.
  intros Hx. destruct (makeNodesHash_fold nodes ∅ 0) as [H1 _].
  destruct (H1 x i Hx) as [[Hm _]|[_ Hl]].
  - by rewrite lookup_empty in Hm.
  - by rewrite Nat.sub_0_r in Hl.
Qed.

Lemma makeNodesHash_is_Some (nodes : list string) (x : string) :
  is_Some (makeNodesHash nodes !! x) ↔ x ∈ nodes.
Proof.
  split.
  - intros [i Hi]. apply makeNodesHash_lookup in Hi.
    by eapply list_elem_of_lookup_2.
  - intros Hx. destruct (makeNodesHash_fold nodes ∅ 0) as [_ H2].
    apply H2. by left.
Qed.

End ToposortFacts.

Module ToposortCorrect.
Import Toposort ToposortFacts Graph.

Section graph.
Variable nodes : list string.
Variable es : list edge.
Hypothesis nodes_NoDup : NoDup nodes.
Hypothesis es_closed : ∀ a b, (a, b) ∈ es → a ∈ nodes ∧ b ∈ nodes.

Lemma Inv_initial : Inv nodes es ∅ (mkState ∅ []).
Proof.
  split; simpl.
  - constructor.
  - intros i x _. split; [set_solver|]. intros [?%elem_of_nil|?]; set_solver.
  - by intros x ?%elem_of_nil.
  - by intros x ?%elem_of_nil.
  - by intros i x y ?.
Qed.

(** Entering a node: it is marked and joins the path. *)
Lemma Inv_enter (preds : gset string) (st : state) (node : string) (i : nat) :
  Inv nodes es preds st → nodes !! i = Some node → i ∉ visited st →
  Inv nodes es ({[node]} ∪ preds) (mkState ({[i]} ∪ visited st) (sorted st)).
Proof.
  intros [Hnd Hvis Hdisj Hnodes Htopo] Hi Hnvis. split; simpl; try done.
  - intros j x Hj. rewrite elem_of_union, elem_of_singleton, (Hvis j x Hj).
    rewrite elem_of_union, elem_of_singleton.
    split.
    + intros [->|[?|?]]; [|by left|by right; right].
      right; left. congruence.
    + intros [?|[->|?]]; [by right; left| |by right; right].
      left. exact (NoDup_lookup _ _ _ _ nodes_NoDup Hj Hi).
  - intros x Hx [->%elem_of_singleton|Hp]%elem_of_union; [|by eapply Hdisj].
    apply Hnvis. apply (Hvis i node Hi). by left.
Qed.

(** Leaving a node all of whose successors are in [sorted]. *)
Lemma Inv_leave (preds : gset string) (st : state) (node : string) :
  Inv nodes es ({[node]} ∪ preds) st → node ∈ nodes → node ∉ preds →
  (∀ y, E es node y → y ∈ sorted st) →
  Inv nodes es preds (mkState (visited st) (node :: sorted st)).
Proof.
  intros [Hnd Hvis Hdisj Hnodes Htopo] Hnode Hnp Hsucc. split; simpl.
  - constructor; [|done]. intros Hin. apply (Hdisj _ Hin). set_solver.
  - intros j x Hj. rewrite (Hvis j x Hj), elem_of_cons. set_solver.
  - intros x [->|Hx]%elem_of_cons; [done|].
    intros Hp. apply (Hdisj _ Hx). set_solver.
  - intros x [->|Hx]%elem_of_cons; auto.
  - intros [|i] x y Hi Hxy; simpl in Hi.
    + injection Hi as <-.
      apply Hsucc, list_elem_of_lookup_1 in Hxy as [j Hj].
      exists (S j). split; [lia|done].
    + destruct (Htopo i x y Hi Hxy) as (j & Hlt & Hj).
      exists (S j). split; [lia|done].
Qed.

(** A successful [visit] keeps the invariant, puts the node in [sorted]
    and removes nothing from it. *)
Lemma visit_sound (fuel : nat) :
  ∀ (preds : gset string) (st : state) (node : string) (st' : state),
    Inv nodes es preds st →
    visit (makeNodesHash nodes) (makeOutgoingEdges es) fuel preds st node = Ok st' →
    Inv nodes es preds st' ∧ node ∈ sorted st'
    ∧ ∀ x, x ∈ sorted st → x ∈ sorted st'.
Proof.
  induction fuel as [|fuel IH]; intros preds st node st' HInv Hrun;
    simpl in Hrun; [done|].
  destruct (decide (node ∈ preds)) as [|Hnp]; [done|].
  destruct ((makeNodesHash nodes) !! node) as [i|] eqn:Hi; [|done].
  pose proof (makeNodesHash_lookup _ _ _ Hi) as Hnode.
  destruct (decide (i ∈ visited st)) as [Hvis|Hnvis].
  - injection Hrun as <-. split_and!; [done| |done].
    apply (inv_visited _ _ _ _ HInv i node Hnode) in Hvis as [?|?]; done.
  - apply bind_Ok in Hrun as (st2 & Hch & [= <-]).
    pose proof (Inv_enter _ _ _ _ HInv Hnode Hnvis) as HInv1.
    destruct (foldM_collect (Inv nodes es ({[node]} ∪ preds)) (λ c s, c ∈ sorted s)
                _ _ _ _ (λ s x s' _ HP Hs, IH _ s x s' HP Hs) HInv1 Hch)
      as (HInv2 & Hsucc & Hmono).
    simpl in Hmono. split_and!.
    + apply Inv_leave; [done|by eapply list_elem_of_lookup_2|done|].
      intros y Hy. apply Hsucc. rewrite elem_of_reverse.
      by apply makeOutgoingEdges_spec.
    + left.
    + intros x Hx. right. auto.
Qed.

(** [visit] reports a cycle only when there is one. *)
Lemma visit_CycleError (fuel : nat) :
  ∀ (preds : gset string) (st : state) (node x : string),
    on_path es preds node →
    visit (makeNodesHash nodes) (makeOutgoingEdges es) fuel preds st node = Throw (CycleError x) →
    ∃ y, tc (E es) y y.
Proof.
  induction fuel as [|fuel IH]; intros preds st node x Hpath Hrun;
    simpl in Hrun; [done|].
  destruct (decide (node ∈ preds)) as [Hp|Hnp]; [by eauto|].
  destruct ((makeNodesHash nodes) !! node) as [i|] eqn:Hi; [|done].
  destruct (decide (i ∈ visited st)); [done|].
  set (st1 := mkState _ _) in Hrun.
  assert (Hout : ∀ c, c ∈ reverse (default [] ((makeOutgoingEdges es) !! node)) →
                      E es node c).
  { intros c Hc. rewrite elem_of_reverse in Hc.
    by apply makeOutgoingEdges_spec in Hc. }
  revert Hout Hrun. generalize (reverse (default [] ((makeOutgoingEdges es) !! node))).
  generalize st1. intros s cs. revert s.
  induction cs as [|c cs IHcs]; intros s Hout Hrun; simpl in Hrun; [done|].
  destruct (visit (makeNodesHash nodes) (makeOutgoingEdges es) fuel ({[node]} ∪ preds) s c)
    as [s'| |] eqn:Hc; simpl in Hrun.
  - apply (IHcs s'); [|done]. intros c' Hc'. apply Hout. by right.
  - injection Hrun as ->. eapply IH; [|exact Hc].
    intros p [->%elem_of_singleton|Hp]%elem_of_union.
    + apply tc_once, Hout. left.
    + eapply tc_r; [by apply Hpath|]. apply Hout. left.
  - done.
Qed.

(** No other exception comes out of [visit] on a known node. *)
Lemma visit_Throw (fuel : nat) :
  ∀ (preds : gset string) (st : state) (node : string) (e : exn),
    node ∈ nodes →
    visit (makeNodesHash nodes) (makeOutgoingEdges es) fuel preds st node = Throw e →
    ∃ x, e = CycleError x.
Proof.
  induction fuel as [|fuel IH]; intros preds st node e Hnode Hrun;
    simpl in Hrun; [done|].
  destruct (decide (node ∈ preds)) as [Hp|Hnp]; [injection Hrun as <-; eauto|].
  destruct ((makeNodesHash nodes) !! node) as [i|] eqn:Hi.
  2:{ apply makeNodesHash_is_Some in Hnode as [? Hn].
      congruence. }
  destruct (decide (i ∈ visited st)); [done|].
  set (st1 := mkState _ _) in Hrun.
  assert (Hout : ∀ c, c ∈ reverse (default [] ((makeOutgoingEdges es) !! node)) →
                      c ∈ nodes).
  { intros c Hc. rewrite elem_of_reverse in Hc.
    apply makeOutgoingEdges_spec in Hc. by apply es_closed in Hc as []. }
  revert Hout Hrun. generalize (reverse (default [] ((makeOutgoingEdges es) !! node))).
  generalize st1. intros s cs. revert s.
  induction cs as [|c cs IHcs]; intros s Hout Hrun; simpl in Hrun; [done|].
  destruct (visit (makeNodesHash nodes) (makeOutgoingEdges es) fuel ({[node]} ∪ preds) s c)
    as [s'| |] eqn:Hc; simpl in Hrun.
  - apply (IHcs s'); [|done]. intros c' Hc'. apply Hout. by right.
  - injection Hrun as ->. eapply IH; [|exact Hc]. apply Hout. left.
  - done.
Qed.

(** The path is made of distinct known nodes, so it is no longer than
    the list of nodes: [visit] does not run out of fuel. *)
Lemma visit_fuel (fuel : nat) :
  ∀ (preds : gset string) (st : state) (node : string),
    preds ⊆ list_to_set nodes →
    (length nodes < fuel + size preds)%nat →
    visit (makeNodesHash nodes) (makeOutgoingEdges es) fuel preds st node ≠ OutOfFuel.
Proof.
  induction fuel as [|fuel IH]; intros preds st node Hsub Hlen; simpl.
  - exfalso. apply subseteq_size in Hsub.
    rewrite size_list_to_set in Hsub by done. simpl in Hlen. lia.
  - destruct (decide (node ∈ preds)) as [Hp|Hnp]; [done|].
    destruct ((makeNodesHash nodes) !! node) as [i|] eqn:Hi; [|done].
    destruct (decide (i ∈ visited st)); [done|].
    set (st1 := mkState _ _).
    generalize (reverse (default [] ((makeOutgoingEdges es) !! node))).
    generalize st1. intros s cs. revert s.
    induction cs as [|c cs IHcs]; intros s; simpl; [done|].
    destruct (visit (makeNodesHash nodes) (makeOutgoingEdges es) fuel ({[node]} ∪ preds) s c)
      as [s'| |] eqn:Hc; simpl.
    + apply IHcs.
    + done.
    + exfalso. revert Hc. apply IH.
      * apply union_subseteq. split; [|done].
        apply singleton_subseteq_l, elem_of_list_to_set.
        apply makeNodesHash_is_Some. eauto.
      * rewrite size_union by set_solver. rewrite size_singleton. lia.
Qed.

Lemma elem_of_indexed (ix : nat * string) :
  ix ∈ reverse (imap pair nodes) ↔ nodes !! ix.1 = Some ix.2.
Proof.
  rewrite elem_of_reverse, elem_of_lookup_imap. split.
  - by intros (i & x & -> & Hx).
  - destruct ix as [i x]. eauto.
Qed.

Lemma visit_all_sound (fuel : nat) (st : state) :
  visit_all nodes es fuel = Ok st →
  sorted st ≡ₚ nodes
  ∧ ∀ i x y, sorted st !! i = Some x → E es x y →
             ∃ j, (i < j)%nat ∧ sorted st !! j = Some y.
Proof.
  intros Hrun. unfold visit_all in Hrun.
  apply (foldM_collect (Inv nodes es ∅) (λ ix s, ix.2 ∈ sorted s)) in Hrun
    as (HInv & Hall & _); [| |apply Inv_initial].
  - split; [|by apply (inv_topo _ _ _ _ HInv)].
    apply NoDup_Permutation; [by apply (inv_nodup _ _ _ _ HInv)|done|].
    intros x. split; [by apply (inv_nodes _ _ _ _ HInv)|].
    intros [i Hi]%list_elem_of_lookup_1.
    by apply (Hall (i, x)), elem_of_indexed.
  - intros s [i x] s' Hix%elem_of_indexed HInv Hstep. simpl in *.
    destruct (decide (i ∈ visited s)) as [Hvis|Hnvis].
    + injection Hstep as <-. split_and!; [done| |done].
      apply (inv_visited _ _ _ _ HInv i x Hix) in Hvis as [?|?]; set_solver.
    + destruct (visit_sound _ _ _ _ _ HInv Hstep) as (? & ? & ?).
      split_and!; [done|done|]. intros []; simpl; auto.
Qed.

Lemma visit_all_outcome (fuel : nat) :
  (length nodes < fuel)%nat →
  (∃ st, visit_all nodes es fuel = Ok st)
  ∨ (∃ x, visit_all nodes es fuel = Throw (CycleError x) ∧ ∃ y, tc (E es) y y).
Proof.
  intros Hfuel. unfold visit_all.
  assert (Hin : ∀ ix, ix ∈ reverse (imap pair nodes) → ix.2 ∈ nodes).
  { intros ix Hix%elem_of_indexed. by eapply list_elem_of_lookup_2. }
  revert Hin. generalize (reverse (imap pair nodes)).
  generalize (mkState ∅ []). intros s l. revert s.
  induction l as [|[i x] l IH]; intros s Hin; simpl; [by eauto|].
  assert (Hl : ∀ ix, ix ∈ l → ix.2 ∈ nodes).
  { intros ix Hix. apply Hin. by right. }
  destruct (decide (i ∈ visited s)); simpl; [by apply IH|].
  destruct (visit (makeNodesHash nodes) (makeOutgoingEdges es) fuel ∅ s x) as [s'|e|] eqn:Hv;
    simpl.
  - by apply IH.
  - right. destruct (visit_Throw _ _ _ _ _ (Hin (i, x) (list_elem_of_here _ _)) Hv)
      as [z ->].
    exists z. split; [done|]. eapply visit_CycleError; [|exact Hv].
    by intros p ?%elem_of_empty.
  - exfalso. revert Hv. apply visit_fuel; [set_solver|].
    rewrite size_empty. lia.
Qed.

End graph.

Lemma array_unfold (nodes : list string) (es : list edge) :
  array nodes es
  = known nodes es ≫= λ _,
      visit_all nodes es (S (length nodes)) ≫= λ st, Ok (sorted st).
Proof. reflexivity. Qed.

Lemma known_Ok (nodes : list string) (es : list edge) :
  known nodes es = Ok tt ↔ ∀ a b, (a, b) ∈ es → a ∈ nodes ∧ b ∈ nodes.
Proof.
  unfold known. rewrite foldM_unit_Ok. split.
  - intros Hall a b Hab. specialize (Hall _ Hab). simpl in Hall.
    case_decide as Hd; [|done].
    by rewrite !makeNodesHash_is_Some in Hd.
  - intros Hall [a b] Hab. simpl. rewrite decide_True; [done|].
    rewrite !makeNodesHash_is_Some. auto.
Qed.

(** A successful [toposort.array] returns the nodes, each before all its
    successors. *)
Lemma array_sound (nodes : list string) (es : list edge) (order : list string) :
  NoDup nodes → array nodes es = Ok order →
  order ≡ₚ nodes
  ∧ (∀ a b, (a, b) ∈ es → a ∈ nodes ∧ b ∈ nodes)
  ∧ ∀ i x y, order !! i = Some x → (x, y) ∈ es →
             ∃ j, (i < j)%nat ∧ order !! j = Some y.
Proof.
  intros Hnd. rewrite array_unfold.
  intros ([] & Hk & (st & Hst & [= <-])%bind_Ok)%bind_Ok.
  pose proof (proj1 (known_Ok nodes es) Hk) as Hclosed.
  destruct (visit_all_sound nodes es Hnd Hclosed _ _ Hst) as [Hperm Htopo].
  done.
Qed.

(** On a graph whose edges join known nodes, [toposort.array] returns an
    order, or reports a cycle that the graph has. *)
Lemma array_outcome (nodes : list string) (es : list edge) :
  NoDup nodes → (∀ a b, (a, b) ∈ es → a ∈ nodes ∧ b ∈ nodes) →
  (∃ order, array nodes es = Ok order)
  ∨ (∃ x, array nodes es = Throw (CycleError x) ∧ ∃ y, tc (E es) y y).
Proof.
  intros Hnd Hclosed. rewrite array_unfold.
  rewrite (proj2 (known_Ok nodes es) Hclosed). simpl.
  destruct (visit_all_outcome nodes es Hnd Hclosed (S (length nodes)))
    as [[st ->]|(x & -> & Hcyc)]; [lia|left|right]; simpl; eauto.
Qed.

End ToposortCorrect.

(** ** The start order *)

Lemma before_trans (l : list string) (x y z : string) :
  NoDup l → before l x y → before l y z → before l x z.
Proof.
  intros Hnd (i & j & Hi & Hj & Hij) (j' & k & Hj' & Hk & Hjk).
  rewrite (NoDup_lookup _ _ _ _ Hnd Hj' Hj) in Hjk.
  exists i, k. split_and!; [done|done|lia].
Qed.

Lemma before_irrefl (l : list string) (x : string) :
  NoDup l → ¬ before l x x.
Proof.
  intros Hnd (i & j & Hi & Hj & Hij).
  rewrite (NoDup_lookup _ _ _ _ Hnd Hi Hj) in Hij. lia.
Qed.

Lemma wf_configb_spec (conf : Config) :
  wf_configb conf = true → wf_config conf.
Proof.
  unfold wf_configb, wf_config.
  intros [Hnd Hall]%andb_prop. split; [by apply bool_decide_eq_true in Hnd|].
  intros s Hs%list_elem_of_In. rewrite forallb_forall in Hall.
  specialize (Hall s Hs). destruct (dependencies conf s) as [xs| |]; try done.
  exists xs. split; [done|]. intros d Hd%list_elem_of_In.
  rewrite forallb_forall in Hall.
  by apply Hall, bool_decide_eq_true in Hd.
Qed.

Lemma wf_edges (conf : Config) :
  wf_config conf →
  ∃ es, edges conf = Ok es
        ∧ ∀ a b, (a, b) ∈ es → a ∈ keys conf ∧ b ∈ keys conf.
Proof.
  intros [Hnd Hwf].
  destruct (edges_total conf) as [es Hes].
  { intros s Hs. destruct (Hwf s Hs) as (xs & ? & _). eauto. }
  exists es. split; [done|]. intros a b Hab.
  apply (edges_spec _ _ Hes) in Hab as (xs & Hxs & Ha).
  pose proof (dependencies_keys _ _ _ _ Hxs Ha) as Hb. split; [|done].
  destruct (Hwf b Hb) as (xs' & Hxs' & Hin). rewrite Hxs in Hxs'.
  injection Hxs' as <-. auto.
Qed.

Lemma tc_edges (conf : Config) (es : list edge) (x y : string) :
  edges conf = Ok es →
  tc (Graph.E es) x y ↔ tc (depends conf) x y.
Proof.
  intros Hes. split; intros Htc; induction Htc as [x y Hxy|x y z Hxy _ IH].
  - apply tc_once. by apply (edges_spec _ _ Hes).
  - eapply tc_l; [|exact IH]. by apply (edges_spec _ _ Hes).
  - apply tc_once. by apply (edges_spec _ _ Hes).
  - eapply tc_l; [|exact IH]. by apply (edges_spec _ _ Hes).
Qed.

(** What a computed order is: all the service names, each dependency
    strictly before each service that needs it. *)
Lemma sortDeps_sound (conf : Config) (order : list string) :
  NoDup (keys conf) → sortDeps conf = Ok order →
  order ≡ₚ keys conf
  ∧ ∀ d s, tc (depends conf) d s → before order d s.
Proof.
  intros Hnd (es & Hes & Harr)%bind_Ok.
  destruct (ToposortCorrect.array_sound _ _ _ Hnd Harr)
    as (Hperm & Hclosed & Htopo).
  split; [done|].
  assert (Hnd' : NoDup order) by by rewrite Hperm.
  assert (Hstep : ∀ d s, depends conf d s → before order d s).
  { intros d s Hds. apply (edges_spec _ _ Hes) in Hds.
    destruct (Hclosed _ _ Hds) as [Hd _]. rewrite <-Hperm in Hd.
    apply list_elem_of_lookup_1 in Hd as [i Hi].
    destruct (Htopo i d s Hi Hds) as (j & Hij & Hj).
    by exists i, j. }
  intros d s Htc. induction Htc as [d s Hds|d m s Hdm _ IH]; [by auto|].
  eapply before_trans; eauto.
Qed.

Lemma sortDeps_Ok_acyclic (conf : Config) (order : list string) :
  NoDup (keys conf) → sortDeps conf = Ok order → acyclic conf.
Proof.
  intros Hnd Hrun x Hx.
  destruct (sortDeps_sound _ _ Hnd Hrun) as [Hperm Hbefore].
  apply (before_irrefl order x); [by rewrite Hperm|auto].
Qed.

(** On a well-formed configuration [sortDeps] returns an order exactly when
    there is no cycle, and throws a [CycleError] when there is one. *)
Lemma sortDeps_outcome (conf : Config) :
  wf_config conf →
  (∃ order, sortDeps conf = Ok order ∧ acyclic conf)
  ∨ (∃ x, sortDeps conf = Throw (CycleError x) ∧ ¬ acyclic conf).
Proof.
  intros Hwf. destruct (wf_edges _ Hwf) as (es & Hes & Hclosed).
  destruct Hwf as [Hnd _].
  destruct (ToposortCorrect.array_outcome _ _ Hnd Hclosed)
    as [[order Ho]|(x & Hx & y & Hy)].
  - left. exists order.
    assert (sortDeps conf = Ok order) as Hs by (unfold sortDeps; by rewrite Hes).
    split; [done|]. by eapply sortDeps_Ok_acyclic.
  - right. exists x. split; [unfold sortDeps; by rewrite Hes|].
    intros Hac. apply (Hac y). by apply (tc_edges _ _ _ _ Hes).
Qed.

(** ** Stateful iteration *)

Lemma forEach_cons {S A : Type} (f : A → M S unit) (x : A) (xs : list A) (s : S) :
  forEach f (x :: xs) s
  = match f x s with
    | (Ok _, s1) => forEach f xs s1
    | (Throw e, s1) => (Throw e, s1)
    | (OutOfFuel, s1) => (OutOfFuel, s1)
    end.
Proof. reflexivity. Qed.

(** A relation between the states before and after each step, reflexive and
    transitive, relates the states before and after the iteration, however
    it ends. *)
Lemma forEach_preorder {S A : Type} (T : S → S → Prop) (f : A → M S unit)
    (xs : list A) (s s' : S) (r : outcome unit) :
  (∀ s, T s s) → (∀ s1 s2 s3, T s1 s2 → T s2 s3 → T s1 s3) →
  (∀ x s r s', x ∈ xs → f x s = (r, s') → T s s') →
  forEach f xs s = (r, s') → T s s'.
Proof.
  intros Hrefl Htrans. revert s.
  induction xs as [|x xs IH]; intros s Hstep Hrun.
  - injection Hrun as <- <-. apply Hrefl.
  - rewrite forEach_cons in Hrun.
    destruct (f x s) as [r1 s1] eqn:Hx.
    assert (T s s1) by (eapply Hstep; [left|exact Hx]).
    assert (∀ y s r s', y ∈ xs → f y s = (r, s') → T s s') as Hstep'.
    { intros y ? ? ? Hy. apply Hstep. by right. }
    destruct r1; [|injection Hrun as <- <-; done..].
    eapply Htrans; [done|]. by apply IH.
Qed.

(** A completed iteration went through a successful step for each
    element. *)
Lemma forEach_Ok_steps {S A : Type} (T : S → S → Prop) (f : A → M S unit)
    (xs : list A) (s s' : S) :
  (∀ s, T s s) → (∀ s1 s2 s3, T s1 s2 → T s2 s3 → T s1 s3) →
  (∀ x s r s', x ∈ xs → f x s = (r, s') → T s s') →
  forEach f xs s = (Ok tt, s') →
  ∀ x, x ∈ xs → ∃ sa sb, T s sa ∧ f x sa = (Ok tt, sb) ∧ T sb s'.
Proof.
  intros Hrefl Htrans. revert s.
  induction xs as [|x xs IH]; intros s Hstep Hrun y Hy.
  - by apply elem_of_nil in Hy.
  - rewrite forEach_cons in Hrun.
    destruct (f x s) as [[[]| |] s1] eqn:Hx; try done.
    assert (T s s1) by (eapply Hstep; [left|exact Hx]).
    assert (∀ y s r s', y ∈ xs → f y s = (r, s') → T s s') as Hstep'.
    { intros z ? ? ? Hz. apply Hstep. by right. }
    apply elem_of_cons in Hy as [->|Hy].
    + exists s, s1. split_and!; [done|done|].
      eapply forEach_preorder; eauto.
    + destruct (IH s1 Hstep' Hrun y Hy) as (sa & sb & ? & ? & ?).
      exists sa, sb. split_and!; eauto.
Qed.

(** An iteration each of whose steps leaves the state as it is. *)
Lemma forEach_skip {S A : Type} (f : A → M S unit) (xs : list A) (s : S) :
  (∀ x, x ∈ xs → f x s = (Ok tt, s)) → forEach f xs s = (Ok tt, s).
Proof.
  induction xs as [|x xs IH]; intros Hf; [done|].
  rewrite forEach_cons, (Hf x) by left. apply IH.
  intros y Hy. apply Hf. by right.
Qed.

(** ** One step of [start] and [stop] *)

Lemma collectDeps_lookup (deps : list string) (services : gmap string value)
    (d : string) :
  collectDeps deps services !! d
  = if decide (d ∈ deps) then Some (read services d) else None.
Proof.
  unfold collectDeps. induction deps as [|x deps IH] using rev_ind; simpl.
  - apply lookup_empty.
  - rewrite foldl_app. simpl. destruct (decide (x = d)) as [->|Hne].
    + rewrite lookup_insert_eq.
      destruct (decide (d ∈ deps ++ [d])) as [Hd|Hd]; [done|].
      exfalso. apply Hd. set_solver.
    + rewrite lookup_insert_ne, IH by done.
      destruct (decide (d ∈ deps)), (decide (d ∈ deps ++ [x])); try done;
        set_solver.
Qed.

Lemma start_Some (s : string) (w : world) :
  start (Some s) w = start_service (depth w) s w.
Proof. reflexivity. Qed.

Lemma start_None (w : world) :
  start None w = forEach (start_service (depth w)) (_order (this w)) w.
Proof. reflexivity. Qed.

Lemma start_service_S (fuel : nat) (s : string) (w : world) :
  start_service (S fuel) s w
  = match dependencies (config (this w)) s with
    | Ok xs =>
        match forEach (start_service fuel) xs w with
        | (Ok _, w1) =>
            if is_null (read (sv w1) s) then
              match call_start s (collectDeps xs (sv w1)) w1 with
              | (Ok v, w2) => set_service s v w2
              | (Throw e, w2) => (Throw e, w2)
              | (OutOfFuel, w2) => (OutOfFuel, w2)
              end
            else (Ok tt, w1)
        | (Throw e, w1) => (Throw e, w1)
        | (OutOfFuel, w1) => (OutOfFuel, w1)
        end
    | Throw e => (Throw e, w)
    | OutOfFuel => (OutOfFuel, w)
    end.
Proof.
  unfold dependencies. simpl.
  unfold mbind, M_bind, gets, lift. simpl.
  destruct (dependsOn (config (this w)) s) as [deps| |]; simpl; try done.
  destruct (as_array deps) as [xs| |]; simpl; try done.
  destruct (forEach (start_service fuel) xs w) as [[[]| |] w1]; try done.
  by destruct (is_null (read (sv w1) s)).
Qed.

Lemma call_start_Some (s : string) (args : gmap string value) (w : world)
    (f : start_fn) :
  start_callback (_fns (this w)) s = Some f →
  call_start s args w
  = let r := f (calls w) (config (this w)) args in
    (of_result r, mkWorld (this w) (calls w ++ [StartCall s args (sv w) r])).
Proof.
  unfold start_callback, call_start, lookup_fn, mbind, M_bind, gets, lift,
    record_call, modify. simpl.
  destruct (prop (_fns (this w)) s) as [[[| |g] ?|]|]; try done.
  intros [= ->]. simpl. by destruct (f _ _ _).
Qed.

Lemma call_start_None (s : string) (args : gmap string value) (w : world) :
  start_callback (_fns (this w)) s = None →
  ∃ msg, call_start s args w = (Throw (TypeError msg), w).
Proof.
  unfold start_callback, call_start, lookup_fn, mbind, M_bind, gets, lift.
  simpl.
  destruct (prop (_fns (this w)) s) as [[[| |g] ?|v]|]; try done; eauto.
  - destruct (nullish v); eauto.
  - destruct (inherited s) as [v|]; simpl; eauto. destruct (nullish v); eauto.
Qed.

Lemma is_null_true (v : value) : is_null v = true ↔ v = VNull.
Proof. by destruct v. Qed.

Lemma read_null (services : gmap string value) (k : string) :
  read services k = VNull ↔ services !! k = Some VNull.
Proof.
  unfold read. destruct (services !! k) as [v|]; simpl; [split; congruence|].
  destruct (inherited k) as [v|] eqn:Hv; simpl; [|done].
  destruct (inherited_not_null _ _ Hv) as [? _]. done.
Qed.

(** ** What a start operation does to the system *)

Lemma evolves_same (conf : Config) (R : string → Prop) (w : world)
    (r : outcome unit) :
  config (this w) = conf → evolves conf R w r w.
Proof.
  intros Hc. split; try done. exists []. rewrite app_nil_r. auto.
Qed.

Lemma evolves_seq (conf : Config) (R : string → Prop) (w w1 w2 : world)
    (r : outcome unit) :
  evolves conf R w (Ok tt) w1 → evolves conf R w1 r w2 → evolves conf R w r w2.
Proof.
  intros [Hc1 Hc1' Ho1 Hf1 Hd1 Hm1 (new1 & Hn1 & Hev1 & Ht1)]
         [Hc2 Hc2' Ho2 Hf2 Hd2 Hm2 (new2 & Hn2 & Hev2 & Ht2)].
  split; try congruence.
  - intros k. by rewrite Hd2, Hd1.
  - intros k Hk. rewrite Hm2, Hm1; [done..|]. unfold read. by rewrite Hm1.
  - exists (new1 ++ new2). split; [by rewrite Hn2, Hn1, app_assoc|]. split.
    + apply Forall_app. split.
      * eapply Forall_impl; [exact Hev1|].
        intros [x args vals [v|e]|] Hc; simpl in *; try done.
        -- destruct Hc as (? & ? & ? & Hv). split_and!; try done.
           intros Hnn. rewrite Hm2; [by apply Hv|].
           unfold read. by rewrite (Hv Hnn).
        -- by destruct Hc as (_ & _ & _ & ? & _).
      * apply Forall_forall. intros c Hin.
        rewrite Forall_forall in Hev2. specialize (Hev2 c Hin).
        destruct c as [x args vals [v|e]|]; simpl in *; try done.
        destruct Hev2 as (? & ? & ? & ? & ? & Hlast). split_and!; try done.
        by rewrite last_app, Hlast.
    + intros k. destruct (Ht1 k) as [E1|(a & vs & res & Hin)].
      * destruct (Ht2 k) as [E2|(a & vs & res & Hin)].
        -- left. congruence.
        -- right. exists a, vs, res. apply elem_of_app. by right.
      * right. exists a, vs, res. apply elem_of_app. by left.
Qed.

Lemma evolves_weaken (conf : Config) (R R' : string → Prop) (w w' : world)
    (r : outcome unit) :
  (∀ x, R x → R' x) → evolves conf R w r w' → evolves conf R' w r w'.
Proof.
  intros HR [Hc Hc' Ho Hf Hd Hm (new & Hn & Hev & Ht)]. split; try done.
  exists new. split; [done|]. split; [|done].
  eapply Forall_impl; [exact Hev|].
  intros [x args vals res|]; simpl; [|done].
  intros (? & ? & ? & ?). split_and!; auto.
Qed.

Lemma forEach_evolves (conf : Config) (R : string → Prop)
    (f : string → M world unit) (xs : list string) :
  (∀ x w r w', x ∈ xs → config (this w) = conf → f x w = (r, w') →
               evolves conf R w r w') →
  ∀ w r w', config (this w) = conf → forEach f xs w = (r, w') →
            evolves conf R w r w'.
Proof.
  induction xs as [|x xs IH]; intros Hstep w r w' Hc Hrun.
  - injection Hrun as <- <-. by apply evolves_same.
  - rewrite forEach_cons in Hrun. destruct (f x w) as [r1 w1] eqn:Hx.
    pose proof (Hstep x w r1 w1 (list_elem_of_here _ _) Hc Hx) as H1.
    destruct r1 as [[]| |]; [|by injection Hrun as <- <-..].
    eapply evolves_seq; [exact H1|].
    apply IH; [|by apply (ev_config' _ _ _ _ _ H1)|done].
    intros y ? ? ? Hy. apply Hstep. by right.
Qed.

(** The last step of [start(service)]: the callback runs and its result is
    stored. *)
Lemma call_start_evolves (conf : Config) (s : string) (xs : list string)
    (w r' : world) (r : outcome unit) :
  config (this w) = conf → dependencies conf s = Ok xs →
  read (sv w) s = VNull →
  match call_start s (collectDeps xs (sv w)) w with
  | (Ok v, w2) => set_service s v w2
  | (Throw e, w2) => (Throw e, w2)
  | (OutOfFuel, w2) => (OutOfFuel, w2)
  end = (r, r') →
  evolves conf (λ x, x = s) w r r'.
Proof.
  intros Hc Hxs Hnull Hrun.
  assert (is_Some (sv w !! s)) as Hown by (apply read_null in Hnull; eauto).
  destruct (start_callback (_fns (this w)) s) as [f|] eqn:Hf.
  - rewrite (call_start_Some _ _ _ _ Hf) in Hrun. simpl in Hrun.
    set (args := collectDeps xs (sv w)) in *.
    destruct (f (calls w) (config (this w)) args) as [v|e] eqn:Hres;
      simpl in Hrun; injection Hrun as <- <-.
    + split; simpl; rewrite ?(assign_own _ _ _ Hown); try done.
      * intros k. destruct (decide (s = k)) as [<-|Hne].
        -- rewrite lookup_insert_eq. apply read_null in Hnull.
           rewrite Hnull. split; eauto.
        -- by rewrite lookup_insert_ne.
      * intros k Hk. rewrite lookup_insert_ne; [done|].
        intros <-. by rewrite Hnull in Hk.
      * eexists. split; [done|]. split.
        -- constructor; [|done]. simpl.
           split_and!; [done|done|by eauto|].
           intros _. by rewrite lookup_insert_eq.
        -- intros k. destruct (decide (s = k)) as [<-|Hne].
           ++ right. eexists _, _, _. apply list_elem_of_here.
           ++ left. by rewrite lookup_insert_ne.
    + split; simpl; try done.
      eexists. split; [done|]. split; [|by left].
      constructor; [|done]. simpl.
      split_and!; [done|done|by eauto|done|done|done].
  - destruct (call_start_None s (collectDeps xs (sv w)) w Hf) as [msg Hmsg].
    rewrite Hmsg in Hrun. injection Hrun as <- <-. by apply evolves_same.
Qed.

Lemma start_service_evolves (conf : Config) (fuel : nat) :
  ∀ (s : string) (w : world) (r : outcome unit) (w' : world),
    config (this w) = conf →
    start_service fuel s w = (r, w') →
    evolves conf (λ x, rtc (depends conf) x s) w r w'.
Proof.
  induction fuel as [|fuel IH]; intros s w r w' Hc Hrun.
  { injection Hrun as <- <-. by apply evolves_same. }
  rewrite start_service_S, Hc in Hrun.
  destruct (dependencies conf s) as [xs| |] eqn:Hxs;
    [|injection Hrun as <- <-; by apply evolves_same..].
  destruct (forEach (start_service fuel) xs w) as [r1 w1] eqn:Hdeps.
  assert (evolves conf (λ x, rtc (depends conf) x s) w r1 w1) as H1.
  { eapply forEach_evolves; [|done|exact Hdeps].
    intros d w0 r0 w0' Hd Hc0 Hrun0.
    eapply evolves_weaken; [|by eapply IH].
    intros x Hx. eapply rtc_r; [exact Hx|]. by exists xs. }
  destruct r1 as [[]| |]; [|by injection Hrun as <- <-..].
  pose proof (ev_config' _ _ _ _ _ H1) as Hc1.
  destruct (is_null (read (sv w1) s)) eqn:Hnull;
    [|by injection Hrun as <- <-].
  apply is_null_true in Hnull.
  eapply evolves_seq; [exact H1|].
  eapply evolves_weaken; [|by eapply call_start_evolves].
  by intros x ->.
Qed.

(** The same for any start operation; [R] is then no restriction. *)
Lemma start_evolves (service : option string) (w : world) (r : outcome unit)
    (w' : world) :
  start service w = (r, w') →
  evolves (config (this w)) (λ _, True) w r w'.
Proof.
  destruct service as [s|]; [rewrite start_Some|rewrite start_None];
    intros Hrun.
  - eapply evolves_weaken; [|by eapply start_service_evolves]. done.
  - eapply forEach_evolves; [|done|exact Hrun].
    intros x w0 r0 w0' _ Hc0 Hx.
    eapply evolves_weaken; [|by eapply start_service_evolves]. done.
Qed.

(** ** One step of [stop] *)

Lemma stop_service_unfold (s : string) (w : world) :
  stop_service s w
  = match dependsOn (config (this w)) s with
    | Ok deps =>
        match read_stop s w with
        | (Ok stop, _) =>
            if negb (is_null (read (sv w) s)) then
              match
                (if slot_truthy stop then
                   match as_array deps with
                   | Ok xs =>
                       call_stop stop s (read (sv w) s) (collectDeps xs (sv w)) w
                   | Throw e => (Throw e, w)
                   | OutOfFuel => (OutOfFuel, w)
                   end
                 else (Ok tt, w))
              with
              | (Ok _, w1) => set_service s VNull w1
              | (Throw e, w1) => (Throw e, w1)
              | (OutOfFuel, w1) => (OutOfFuel, w1)
              end
            else (Ok tt, w)
        | (Throw e, _) => (Throw e, w)
        | (OutOfFuel, _) => (OutOfFuel, w)
        end
    | Throw e => (Throw e, w)
    | OutOfFuel => (OutOfFuel, w)
    end.
Proof.
  unfold stop_service, read_stop, lookup_fn, mbind, M_bind, gets, lift. simpl.
  destruct (dependsOn (config (this w)) s) as [deps| |]; simpl; try done.
  destruct (prop (_fns (this w)) s) as [[start stop|v]|]; simpl; try done.
  - destruct (is_null (read (sv w) s)); simpl; [done|].
    destruct (slot_truthy stop); simpl; [|done].
    destruct (as_array deps); simpl; try done.
  - destruct (nullish v); simpl; [done|].
    destruct (is_null (read (sv w) s)); simpl; done.
  - destruct (inherited s) as [v|]; simpl; [|done].
    destruct (nullish v); simpl; [done|].
    destruct (is_null (read (sv w) s)); simpl; done.
Qed.

Lemma dependencies_Ok (conf : Config) (s : string) (xs : list string) :
  dependencies conf s = Ok xs →
  ∃ deps, dependsOn conf s = Ok deps ∧ as_array deps = Ok xs.
Proof. unfold dependencies. by intros ?%bind_Ok. Qed.

Lemma dependsOn_outcome (conf : Config) (s : string) :
  (∃ deps, dependsOn conf s = Ok deps)
  ∨ (∃ msg, dependsOn conf s = Throw (TypeError msg)).
Proof.
  unfold dependsOn. destruct (lookup conf s) as [r|]; [|by eauto].
  destruct (nullish r); [by eauto|].
  destruct (member r "depends") as [| |b|n|d|xs|id|fields]; simpl; eauto.
  - destruct b; eauto.
  - destruct (negb _); eauto.
Qed.

(** *** C10 *)



Example new_System_test :
  new_System test_conf test_fns true = Ok (built test_sys).
Proof. vm_compute. reflexivity. Qed.


(** *** C7 *)

(** The design's dependency list is the one that [dependsOn] returns. *)
Lemma dependenciesOf_dependencies (conf : Config) (s : string)
    (ds : list string) :
  Spec.dependenciesOf conf s = Some ds → dependencies conf s = Ok ds.
Proof.
  unfold Spec.dependenciesOf, dependencies, dependsOn, lookup.
  destruct (prop conf s) as [[| | | | | | |fields]|]; try done. simpl.
  destruct (prop fields "depends") as [[| | | |d|xs| |]|]; simpl; try done;
    by intros [= <-].
Qed.




(** ** The stored order *)



Lemma start_order (service : option string) (w : world) (r : outcome unit)
    (w' : world) :
  start service w = (r, w') → _order (this w') = _order (this w).
Proof. intros Hrun. by eapply ev_order, start_evolves. Qed.

(** *** C1 *)

(** C1, on the code: a bulk [stop()] on the freshly built system of the
    test suite succeeds and leaves [_order] reversed, no longer the order
    computed at construction; the bulk [start()] that follows keeps the
    reversed order. *)
Theorem stop_reverses_stored_order :
  ∃ w1 w2,
    run (stop None) test_sys = (Ok tt, w1)
    ∧ start None w1 = (Ok tt, w2)
    ∧ sortDeps (config test_sys) = Ok ["x"; "y"; "sum"]
    ∧ _order test_sys = ["x"; "y"; "sum"]
    ∧ _order (this w1) = ["sum"; "y"; "x"]
    ∧ _order (this w2) = ["sum"; "y"; "x"].
Proof.
  eexists _, _. split; [vm_compute; reflexivity|].
  split; [vm_compute; reflexivity|].
  split_and!; vm_compute; reflexivity.
Qed.

(** ** Construction *)

Lemma forEach_defineGetter (ks : list string) (p : partial) :
  forEach defineGetter ks p
  = (Ok tt,
     mkPartial (if decide ("config" ∈ ks) then None else p_config p)
               (if decide ("_order" ∈ ks) then None else p_order p)
               (if decide ("_services" ∈ ks) then None else p_services p)
               (if decide ("_fns" ∈ ks) then None else p_fns p)
               (p_getters p ++ ks)).
Proof.
  revert p. induction ks as [|k ks IH]; intros p.
  - simpl. rewrite app_nil_r. by destruct p.
  - rewrite forEach_cons. unfold defineGetter at 1, modify. rewrite IH. simpl.
    rewrite <-app_assoc. simpl. f_equal.
    f_equal; repeat case_decide; try done; set_solver.
Qed.

Lemma construct_unfold (conf : Config) (fns : Fns) (validate : bool) :
  construct conf fns validate blank
  = match (if validate then check conf fns else Ok true) with
    | Ok _ =>
        match sortDeps conf with
        | Ok order => (Ok tt, object conf order fns)
        | Throw e => (Throw e, mkPartial (Some conf) None None None [])
        | OutOfFuel => (OutOfFuel, mkPartial (Some conf) None None None [])
        end
    | Throw e => (Throw e, blank)
    | OutOfFuel => (OutOfFuel, blank)
    end.
Proof.
  unfold construct, mbind, M_bind, lift, modify. simpl.
  destruct validate; simpl.
  - destruct (check conf fns); simpl; try done.
    destruct (sortDeps conf); simpl; try done.
    by rewrite forEach_defineGetter.
  - destruct (sortDeps conf); simpl; try done.
    by rewrite forEach_defineGetter.
Qed.

Lemma new_System_unfold (conf : Config) (fns : Fns) (validate : bool) :
  new_System conf fns validate
  = _ ← (if validate then check conf fns else Ok true);
    order ← sortDeps conf;
    Ok (object conf order fns).
Proof.
  unfold new_System. rewrite construct_unfold.
  destruct (if validate then check conf fns else Ok true); simpl; try done.
  by destruct (sortDeps conf).
Qed.

(** Where no service is named as a field, the object is a system with a
    getter for each service. *)
Lemma object_built (conf : Config) (order : list string) (fns : Fns) :
  (∀ f, f ∈ field_names → f ∉ keys conf) →
  object conf order fns = built (mkSystem conf order (nullifyVals conf) fns).
Proof.
  intros Hf. unfold object, built. simpl.
  rewrite !decide_False; [done|apply Hf; unfold field_names; set_solver..].
Qed.

Lemma nullifyVals_lookup {A : Type} (o : obj A) (k : string) :
  nullifyVals o !! k = if decide (k ∈ keys o) then Some VNull else None.
Proof.
  unfold nullifyVals. generalize (keys o). intros l.
  induction l as [|x l IH] using rev_ind; simpl.
  - apply lookup_empty.
  - rewrite foldl_app. simpl. destruct (decide (x = k)) as [->|Hne].
    + rewrite lookup_insert_eq.
      destruct (decide (k ∈ l ++ [k])) as [Hd|Hd]; [done|].
      exfalso. apply Hd. set_solver.
    + rewrite lookup_insert_ne, IH by done.
      destruct (decide (k ∈ l)), (decide (k ∈ l ++ [x])); try done;
        set_solver.
Qed.

(** ** The design's dependency relation and the code's *)

Lemma Spec_requires_depends (conf : Config) (d s : string) :
  Spec.requires conf d s → depends conf d s.
Proof.
  intros (ds & Hds & Hd). exists ds.
  split; [by apply dependenciesOf_dependencies|done].
Qed.

Lemma Spec_wf_config (conf : Config) : Spec.well_formed conf → wf_config conf.
Proof.
  intros [Hnd Hwf]. split; [done|]. intros s Hs.
  destruct (Hwf s Hs) as (ds & Hds & Hin). exists ds.
  split; [by apply dependenciesOf_dependencies|done].
Qed.

Lemma depends_Spec_requires (conf : Config) (d s : string) :
  Spec.well_formed conf → depends conf d s → Spec.requires conf d s.
Proof.
  intros [_ Hwf] (xs & Hxs & Hd).
  destruct (Hwf s (dependencies_keys _ _ _ _ Hxs Hd)) as (ds & Hds & _).
  exists ds. split; [done|].
  apply dependenciesOf_dependencies in Hds. congruence.
Qed.

Lemma tc_impl {A : Type} (R1 R2 : relation A) (x y : A) :
  (∀ a b, R1 a b → R2 a b) → tc R1 x y → tc R2 x y.
Proof.
  intros HR. induction 1 as [a b Hab|a b c Hab _ IH].
  - by apply tc_once, HR.
  - eapply tc_l; [by apply HR|done].
Qed.

Lemma Spec_acyclic (conf : Config) :
  Spec.well_formed conf → Spec.acyclic conf ↔ acyclic conf.
Proof.
  intros Hwf. split; intros Hac x Hx; apply (Hac x).
  - eapply tc_impl; [|exact Hx]. intros a b. by apply depends_Spec_requires.
  - eapply tc_impl; [|exact Hx]. intros a b. by apply Spec_requires_depends.
Qed.

Lemma flatMapM_ext {A B : Type} (f g : A → outcome (list B)) (xs : list A) :
  (∀ x, x ∈ xs → f x = g x) → flatMapM f xs = flatMapM g xs.
Proof.
  induction xs as [|x xs IH]; intros Hfg; simpl; [done|].
  rewrite (Hfg x) by left. rewrite IH; [done|].
  intros y Hy. apply Hfg. by right.
Qed.

(** The sort looks at the service names and at the dependencies that the
    records declare, and at nothing else. *)
Lemma sortDeps_ext (conf conf' : Config) :
  Spec.well_formed conf → keys conf' = keys conf →
  (∀ s, Spec.dependenciesOf conf' s = Spec.dependenciesOf conf s) →
  sortDeps conf' = sortDeps conf.
Proof.
  intros [_ Hwf] Hkeys Hdeps. unfold sortDeps, edges. rewrite Hkeys.
  rewrite (flatMapM_ext (depEdges conf') (depEdges conf)); [done|].
  intros s Hs. rewrite !depEdges_dependencies.
  destruct (Hwf s Hs) as (ds & Hds & _).
  rewrite (dependenciesOf_dependencies conf s ds Hds).
  rewrite <-Hdeps in Hds.
  by rewrite (dependenciesOf_dependencies conf' s ds Hds).
Qed.

(** *** C2 *)

(** C2.  (The sort is [Toposort.array], the model of the external
    package.)  Over distinct service names, an order that [sortDeps]
    returns lists every service name once, and every service comes
    strictly after each service that its record, or the record of a service
    it depends on, names as a dependency.  For a configuration that is well
    formed in the words of the design and in which no service transitively
    depends on itself, [sortDeps] does return an order, and this order is a
    function of the service names and of the declared dependencies: any
    configuration with these names and these dependencies is sorted into
    the same order. *)
Theorem sortDeps_dependency_order (conf : Config) :
  NoDup (keys conf) →
  (∀ order, sortDeps conf = Ok order →
            order ≡ₚ keys conf
            ∧ ∀ d s, tc (Spec.requires conf) d s → before order d s)
  ∧ (Spec.well_formed conf → Spec.acyclic conf →
     ∃ order, sortDeps conf = Ok order
              ∧ ∀ conf', keys conf' = keys conf →
                         (∀ s, Spec.dependenciesOf conf' s
                               = Spec.dependenciesOf conf s) →
                         sortDeps conf' = Ok order).
Proof.
  intros Hnd. split.
  - intros order Ho.
    destruct (sortDeps_sound _ _ Hnd Ho) as [Hperm Hbefore].
    split; [done|]. intros d s Hds. apply Hbefore.
    eapply tc_impl; [|exact Hds]. intros a b. apply Spec_requires_depends.
  - intros Hwf Hac. pose proof (Spec_wf_config _ Hwf) as Hwf'.
    destruct (sortDeps_outcome conf Hwf') as [(order & Ho & _)|(x & _ & Hcyc)];
      [|by destruct Hcyc; apply Spec_acyclic].
    exists order. split; [done|].
    intros conf' Hkeys Hdeps. by rewrite (sortDeps_ext conf conf').
Qed.

Lemma test_conf_wf : wf_config test_conf.
Proof. apply wf_configb_spec. vm_compute. reflexivity. Defined.

Lemma test_conf_acyclic : acyclic test_conf.
Proof.
  apply (sortDeps_Ok_acyclic test_conf ["x"; "y"; "sum"]).
  - apply test_conf_wf.
  - vm_compute. reflexivity.
Defined.

Lemma test_conf_well_formed : Spec.well_formed test_conf.
Proof.
  split; [apply (proj1 test_conf_wf)|]. intros s Hs.
  assert (s = "x" ∨ s = "y" ∨ s = "sum") as [->|[->| ->]]
    by (simpl in Hs; set_solver).
  - exists []. split; [reflexivity|]. by intros d ?%elem_of_nil.
  - exists ["x"]. split; [reflexivity|]. simpl. set_solver.
  - exists ["x"; "y"]. split; [reflexivity|]. simpl. set_solver.
Defined.

Lemma shuffled_conf_well_formed : Spec.well_formed shuffled_conf.
Proof.
  split.
  - refine (proj1 (wf_configb_spec shuffled_conf _)). vm_compute. reflexivity.
  - intros s Hs.
    assert (s = "sum" ∨ s = "y" ∨ s = "x") as [->|[->| ->]]
      by (simpl in Hs; set_solver).
    + exists ["x"; "y"]. split; [reflexivity|]. simpl. set_solver.
    + exists ["x"]. split; [reflexivity|]. simpl. set_solver.
    + exists []. split; [reflexivity|]. by intros d ?%elem_of_nil.
Defined.

(** The services are configured in the order [sum], [y], [x], and sorted
    into an order with [x] before [y] before [sum]. *)
Lemma sortDeps_dependency_order_witness :
  keys shuffled_conf = ["sum"; "y"; "x"]
  ∧ (∃ order, sortDeps shuffled_conf = Ok order
              ∧ order ≡ₚ keys shuffled_conf
              ∧ before order "x" "y" ∧ before order "y" "sum"
              ∧ before order "x" "sum")
  ∧ ∃ order, sortDeps shuffled_conf = Ok order
             ∧ ∀ conf', keys conf' = keys shuffled_conf →
                        (∀ s, Spec.dependenciesOf conf' s
                              = Spec.dependenciesOf shuffled_conf s) →
                        sortDeps conf' = Ok order.
Proof.
  destruct (sortDeps_dependency_order shuffled_conf
              (proj1 shuffled_conf_well_formed)) as [Hsound Hreturns].
  assert (Spec.requires shuffled_conf "x" "y") as Hxy.
  { exists ["x"]. split; [reflexivity|]. apply list_elem_of_here. }
  assert (Spec.requires shuffled_conf "y" "sum") as Hys.
  { exists ["x"; "y"]. split; [reflexivity|].
    apply list_elem_of_further, list_elem_of_here. }
  split; [reflexivity|]. split.
  - destruct (sortDeps shuffled_conf) as [order| |] eqn:Ho;
      [|vm_compute in Ho; discriminate Ho..].
    destruct (Hsound order eq_refl) as [Hperm Hbefore].
    exists order. split_and!; [reflexivity|exact Hperm|..].
    + apply Hbefore, tc_once, Hxy.
    + apply Hbefore, tc_once, Hys.
    + apply Hbefore. eapply tc_l; [exact Hxy|apply tc_once, Hys].
  - apply Hreturns; [apply shuffled_conf_well_formed|].
    apply Spec_acyclic; [apply shuffled_conf_well_formed|].
    apply (sortDeps_Ok_acyclic shuffled_conf ["x"; "y"; "sum"]).
    + apply (proj1 shuffled_conf_well_formed).
    + vm_compute. reflexivity.
Defined.

(** *** C3 *)

(** C3, as stated, fails: a configuration with a cycle need not end in a
    [CycleError], and one without cycle need not be constructed.  When a
    dependency names no configured service the sort throws its unknown-node
    error, whether or not there is a cycle. *)
Lemma construct_dangling_dependency :
  tc (Spec.requires dangling_cycle_conf) "a" "a"
  ∧ new_System dangling_cycle_conf [] false = Throw UnknownNodeError
  ∧ Spec.acyclic dangling_conf
  ∧ new_System dangling_conf [] false = Throw UnknownNodeError.
Proof.
  split_and!.
  - apply (tc_l _ "a" "b" "a"); [|apply tc_once].
    + exists ["a"]. split; [reflexivity|]. apply list_elem_of_here.
    + exists ["b"; "zzz"]. split; [reflexivity|]. apply list_elem_of_here.
  - vm_compute. reflexivity.
  - assert (∀ x y, tc (Spec.requires dangling_conf) x y →
                   x = "zzz" ∧ y = "a") as Hshape.
    { assert (∀ x y, Spec.requires dangling_conf x y → x = "zzz" ∧ y = "a")
        as Hstep.
      { intros x y (ds & Hds & Hx). unfold Spec.dependenciesOf in Hds.
        simpl in Hds. case_decide as Hy; [|done]. subst y.
        simpl in Hds. injection Hds as <-.
        by apply list_elem_of_singleton in Hx as ->. }
      intros x y. induction 1 as [a b Hab|a b c Hab _ [-> _]]; [by apply Hstep|].
      by destruct (Hstep _ _ Hab). }
    intros x Hx. by destruct (Hshape x x Hx) as [-> ?].
  - vm_compute. reflexivity.
Qed.

(** C3, amended.  (Cycles are found by [Toposort.array], the model of the
    external package.)  For a configuration that is well formed in the
    words of the design, with validation off or passing: if some service
    transitively depends on itself, construction throws a [CycleError] with
    [_services] not yet assigned and no getter defined; if no service does,
    construction returns an object with a getter for each service, and,
    unless a service bears the name of a field, this object is a system
    over that configuration and registry in which every service value is
    [null]. *)
Theorem construct_cycle_or_null (conf : Config) (fns : Fns) (validate : bool) :
  Spec.well_formed conf → validated conf fns validate →
  ((∃ x, tc (Spec.requires conf) x x) →
   ∃ node p, construct conf fns validate blank = (Throw (CycleError node), p)
             ∧ p_services p = None ∧ p_getters p = []
             ∧ new_System conf fns validate = Throw (CycleError node))
  ∧ (Spec.acyclic conf →
     ∃ obj, new_System conf fns validate = Ok obj
            ∧ p_getters obj = keys conf
            ∧ ((∀ f, f ∈ field_names → f ∉ keys conf) →
               ∃ sys, obj = built sys
                      ∧ config sys = conf ∧ _fns sys = fns
                      ∧ ∀ k, k ∈ keys conf →
                             _services sys !! k = Some VNull
                             ∧ get sys k = VNull)).
Proof.
  intros Hwf Hval. pose proof (Spec_wf_config _ Hwf) as Hwf'.
  assert (∃ b, (if validate then check conf fns else Ok true) = Ok b) as [b Hb].
  { destruct validate; [rewrite Hval by done|]; eauto. }
  rewrite new_System_unfold, construct_unfold, Hb. simpl. split.
  - intros [x Hx].
    destruct (sortDeps_outcome conf Hwf') as [(order & _ & Hac)|(node & Hn & _)].
    + destruct (Hac x). eapply tc_impl; [|exact Hx].
      intros a c. apply Spec_requires_depends.
    + rewrite Hn. simpl. eauto 10.
  - intros Hac%Spec_acyclic; [|done].
    destruct (sortDeps_outcome conf Hwf') as [(order & Ho & _)|(x & _ & Hcyc)];
      [|done].
    rewrite Ho. simpl. eexists. split_and!; try done.
    intros Hnames. rewrite (object_built _ _ _ Hnames).
    eexists. split_and!; try done. simpl.
    intros k Hk. unfold get. simpl.
    assert (nullifyVals conf !! k = Some VNull) as Hnull
      by by rewrite nullifyVals_lookup, decide_True.
    split; [done|]. by rewrite (read_own _ _ _ Hnull).
Qed.

Lemma construct_cycle_or_null_witness :
  (∃ node p, construct cycle_conf [] false blank = (Throw (CycleError node), p)
             ∧ p_services p = None ∧ p_getters p = []
             ∧ new_System cycle_conf [] false = Throw (CycleError node))
  ∧ ∃ sys, new_System test_conf test_fns true = Ok (built sys)
           ∧ p_getters (built sys) = keys test_conf
           ∧ config sys = test_conf ∧ _fns sys = test_fns
           ∧ ∀ k, k ∈ keys test_conf →
                  _services sys !! k = Some VNull ∧ get sys k = VNull.
Proof.
  assert (∀ f, f ∈ field_names → f ∉ keys test_conf) as Hnames.
  { intros f Hf Hk. unfold field_names in Hf. simpl in Hk. set_solver. }
  split.
  - apply (construct_cycle_or_null cycle_conf [] false).
    + split; [apply NoDup_cons; split; [set_solver|apply NoDup_singleton]|].
      intros s Hs.
      assert (s = "a" ∨ s = "b") as [->| ->] by (simpl in Hs; set_solver).
      * exists ["b"]. split; [reflexivity|]. simpl. set_solver.
      * exists ["a"]. split; [reflexivity|]. simpl. set_solver.
    + intros H. discriminate H.
    + exists "a". apply (tc_l _ "a" "b" "a"); [|apply tc_once].
      * exists ["a"]. split; [reflexivity|]. apply list_elem_of_here.
      * exists ["b"]. split; [reflexivity|]. apply list_elem_of_here.
  - destruct (proj2 (construct_cycle_or_null test_conf test_fns true
                      test_conf_well_formed (λ _, eq_refl)))
      as (obj & Hobj & Hgetters & Hsys).
    + apply Spec_acyclic; [apply test_conf_well_formed|apply test_conf_acyclic].
    + destruct (Hsys Hnames) as (sys & -> & Hc & Hf & Hnull).
      exists sys. split_and!; done.
Defined.

(** ** Validation of the configuration *)

Lemma foldM_unit_outcome {A : Type} (f : unit → A → outcome unit)
    (P : exn → Prop) (xs : list A) :
  (∀ x, f tt x = Ok tt ∨ ∃ e, f tt x = Throw e ∧ P e) →
  foldM f tt xs = Ok tt ∨ ∃ e, foldM f tt xs = Throw e ∧ P e.
Proof.
  intros Hf. induction xs as [|x xs IH]; simpl; [by left|].
  destruct (Hf x) as [->|(e & -> & He)]; simpl; eauto.
Qed.

Lemma checkConfigEntry_outcome (v : value) :
  checkConfigEntry v = Ok tt
  ∨ ∃ e, checkConfigEntry v = Throw e ∧ ∃ msg, e = TypeError msg ∧ config_error msg.
Proof.
  unfold checkConfigEntry, config_error.
  destruct (negb (isObject v)); [right; by eauto 10|].
  destruct (has_member v "depends" && negb (isDepends (member v "depends")));
    [right; by eauto 10|].
  apply foldM_unit_outcome. intros data.
  destruct (isFn data); [right|left]; eauto 10.
Qed.

Lemma checkConfigEntry_Ok (fields : list (string * value)) (f : string) (id : nat) :
  checkConfigEntry (VObj fields) = Ok tt → (f, VFun id) ∉ fields.
Proof.
  unfold checkConfigEntry. simpl.
  destruct (_ && _); [done|]. rewrite foldM_unit_Ok. intros Hall Hin.
  specialize (Hall (VFun id)). simpl in Hall.
  assert (VFun id ∈ fields.*2) as Hv.
  { apply list_elem_of_fmap. by exists (f, VFun id). }
  by specialize (Hall Hv).
Qed.

Lemma checkConfig_function (conf : Config) :
  has_function conf →
  ∃ msg, checkConfig conf = Throw (TypeError msg) ∧ config_error msg.
Proof.
  intros (k & fields & f & id & Hk & Hf). unfold checkConfig.
  induction conf as [|[k' v] conf IH]; [by apply elem_of_nil in Hk|]. simpl.
  destruct (checkConfigEntry_outcome v) as [Hv|(e & Hv & msg & -> & Hmsg)];
    rewrite Hv; simpl; [|by eauto].
  apply elem_of_cons in Hk as [[= <- <-]|Hk]; [|by apply IH].
  by destruct (checkConfigEntry_Ok _ f id Hv).
Qed.

(** *** C8 *)

(** C8, as stated, fails: with validation disabled, construction over a
    configuration that holds a function need not succeed.  Here a record of
    a two-service cycle holds a function: with validation the constructor
    throws a validation [TypeError], without it a [CycleError]. *)
Lemma validation_off_may_fail :
  has_function hooked_cycle_conf
  ∧ new_System hooked_cycle_conf [] true
    = Throw (TypeError errors.conf_behaviour)
  ∧ new_System hooked_cycle_conf [] false = Throw (CycleError "b")
  ∧ ¬ ∃ sys, new_System hooked_cycle_conf [] false = Ok sys.
Proof.
  split_and!.
  - exists "a", [("hook", VFun 0); ("depends", VStr "b")], "hook", 0.
    split; apply list_elem_of_here.
  - vm_compute. reflexivity.
  - vm_compute. reflexivity.
  - intros [sys Hsys]. vm_compute in Hsys. discriminate Hsys.
Qed.

(** C8, amended.  Over a configuration in which some service record holds
    a function, construction with validation throws a [TypeError] carrying
    one of the messages of [checkConfig], with no field of the object
    assigned; without validation it succeeds whenever the configuration is
    well formed and has no dependency cycle, and the object built holds
    the configuration unless a service is named [config]. *)
Theorem validation_rejects_functions (conf : Config) (fns : Fns) :
  has_function conf →
  (∃ msg, construct conf fns true blank = (Throw (TypeError msg), blank)
          ∧ config_error msg
          ∧ new_System conf fns true = Throw (TypeError msg))
  ∧ (wf_config conf → acyclic conf →
     ∃ obj, new_System conf fns false = Ok obj
            ∧ p_config obj
              = if decide ("config" ∈ keys conf) then None else Some conf).
Proof.
  intros Hfn. split.
  - destruct (checkConfig_function conf Hfn) as (msg & Hmsg & Hconf).
    exists msg. rewrite new_System_unfold, construct_unfold.
    unfold check. rewrite Hmsg. simpl. done.
  - intros Hwf Hac.
    destruct (sortDeps_outcome conf Hwf) as [(order & Ho & _)|(x & _ & Hcyc)];
      [|done].
    rewrite new_System_unfold, Ho. simpl. eauto.
Qed.

Lemma validation_rejects_functions_witness :
  (∃ msg, construct hooked_conf [] true blank = (Throw (TypeError msg), blank)
          ∧ config_error msg
          ∧ new_System hooked_conf [] true = Throw (TypeError msg))
  ∧ ∃ obj, new_System hooked_conf [] false = Ok obj
           ∧ p_config obj = Some hooked_conf.
Proof.
  assert (has_function hooked_conf) as Hfn.
  { exists "a", [("hook", VFun 0)], "hook", 0. split; apply list_elem_of_here. }
  split.
  - apply (proj1 (validation_rejects_functions hooked_conf [] Hfn)).
  - destruct (proj2 (validation_rejects_functions hooked_conf [] Hfn))
      as (obj & Hobj & Hconf).
    + apply wf_configb_spec. vm_compute. reflexivity.
    + apply (sortDeps_Ok_acyclic hooked_conf ["a"; "b"]).
      * refine (proj1 (wf_configb_spec hooked_conf _)). vm_compute. reflexivity.
      * vm_compute. reflexivity.
    + exists obj. split; [exact Hobj|]. rewrite Hconf. reflexivity.
Defined.

(** ** A start callback that throws *)

Lemma is_null_false (v : value) : is_null v = false ↔ v ≠ VNull.
Proof. destruct v; simpl; split; congruence. Qed.

(** *** C6 *)

(** C6.  If, in the course of a start operation (of one service or of all),
    a start callback throws [e], then the operation ends with exactly [e];
    the service values are those at the moment of the call, with the
    service whose callback threw still [null]; every value that was not
    [null] before the operation is kept, as is the non-null value returned
    by each callback that ran before the failure; configuration, order,
    registry and the set of service names are as before, so that every
    getter still answers. *)
Theorem start_callback_throws (service : option string) (w w' : world)
    (r : outcome unit) (new : list call) (x : string)
    (args vals : gmap string value) (e : exn) :
  start service w = (r, w') →
  calls w' = calls w ++ new →
  StartCall x args vals (Throws e) ∈ new →
  r = Throw e
  ∧ sv w' = vals
  ∧ sv w' !! x = Some VNull
  ∧ (∀ k v, sv w !! k = Some v → v ≠ VNull → sv w' !! k = Some v)
  ∧ (∀ y a vs v, StartCall y a vs (Returns v) ∈ new → v ≠ VNull →
                 sv w' !! y = Some v)
  ∧ config (this w') = config (this w)
  ∧ _order (this w') = _order (this w)
  ∧ _fns (this w') = _fns (this w)
  ∧ ∀ k, is_Some (sv w' !! k) ↔ is_Some (sv w !! k).
Proof.
  intros Hrun Hcalls Hin.
  destruct (start_evolves _ _ _ _ Hrun)
    as [Hc Hc' Ho Hf Hd Hm (new' & Hn & Hev & _)].
  rewrite Hn in Hcalls. apply app_inv_head in Hcalls as ->.
  rewrite Forall_forall in Hev.
  destruct (Hev _ Hin) as (_ & Hnull & _ & -> & Hvals & _).
  split_and!; try done.
  - rewrite Hvals. by apply read_null.
  - intros k v Hk Hv. rewrite Hm; [done|].
    unfold read. rewrite Hk. by apply is_null_false.
  - intros y a vs v Hy Hv. destruct (Hev _ Hy) as (_ & _ & _ & Hret).
    by apply Hret, is_null_false.
Qed.

Lemma start_callback_throws_witness :
  failing_run.1 = Throw (Thrown (VStr "boom"))
  ∧ sv failing_run.2 !! "sum" = Some VNull
  ∧ sv failing_run.2 !! "x" = Some (VNum 1)
  ∧ sv failing_run.2 !! "y" = Some (VNum 2).
Proof.
  destruct (start_callback_throws (Some "sum") (mkWorld failing_sys [])
              failing_run.2 failing_run.1 (calls failing_run.2) "sum"
              (collectDeps ["x"; "y"] (sv failing_run.2)) (sv failing_run.2)
              (Thrown (VStr "boom")))
    as (Hr & _ & Hsum & _ & Hret & _).
  - vm_compute. reflexivity.
  - reflexivity.
  - apply (list_elem_of_lookup_2 _ 2). vm_compute. reflexivity.
  - split; [exact Hr|]. split; [exact Hsum|]. split.
    + apply (Hret "x" ∅ (nullifyVals test_conf)); [|discriminate].
      apply (list_elem_of_lookup_2 _ 0). vm_compute. reflexivity.
    + apply (Hret "y" (collectDeps ["x"] (<["x" := VNum 1]> (nullifyVals test_conf)))
                  (<["x" := VNum 1]> (nullifyVals test_conf)));
        [|discriminate].
      apply (list_elem_of_lookup_2 _ 1). vm_compute. reflexivity.
Defined.

(** ** Termination of [start] *)

(** An iteration does not end in an outcome that none of its steps ends
    in. *)
Lemma forEach_avoid {S A : Type} (bad : outcome unit → Prop) (P : S → Prop)
    (f : A → M S unit) (xs : list A) (s : S) :
  ¬ bad (Ok tt) →
  (∀ x s, x ∈ xs → P s → ¬ bad (f x s).1 ∧ P (f x s).2) →
  P s → ¬ bad (forEach f xs s).1.
Proof.
  intros Hok. revert s. induction xs as [|x xs IH]; intros s Hstep HP; [done|].
  rewrite forEach_cons.
  destruct (Hstep x s (list_elem_of_here _ _) HP) as [Hne HP'].
  destruct (f x s) as [[[]| |] s1]; simpl in *; try done.
  apply IH; [|done]. intros y t Hy. apply Hstep. by right.
Qed.

Section termination.
Variable conf : Config.
(** An order of the services in which dependencies come first. *)
Variable o : list string.
Hypothesis o_NoDup : NoDup o.
Hypothesis o_before : ∀ d s, depends conf d s → before o d s.

(** With more fuel than the position of the service in such an order,
    [start] does not run out of fuel. *)
Lemma start_service_fuel (fuel : nat) :
  ∀ (s : string) (w : world),
    config (this w) = conf →
    (∀ i, o !! i = Some s → (i ≤ fuel)%nat) →
    (start_service (S fuel) s w).1 ≠ OutOfFuel.
Proof.
  induction fuel as [fuel IH] using lt_wf_ind. intros s w Hc Hpos.
  rewrite start_service_S, Hc.
  destruct (dependencies conf s) as [xs| |] eqn:Hxs; [|done|].
  2:{ unfold dependencies in Hxs.
      destruct (dependsOn_outcome conf s) as [[deps Hd]|[msg Hd]];
        rewrite Hd in Hxs; [|done]. simpl in Hxs. by destruct deps. }
  assert ((forEach (start_service fuel) xs w).1 ≠ OutOfFuel) as Hdeps.
  { apply (forEach_avoid (λ r, r = OutOfFuel) (λ w, config (this w) = conf));
      [done| |done].
    intros d w0 Hd Hc0.
    destruct (o_before d s) as (i & j & Hi & Hj & Hij); [by exists xs|].
    specialize (Hpos j Hj).
    destruct fuel as [|fuel']; [lia|]. split.
    - apply (IH fuel'); [lia|done|]. intros i' Hi'.
      rewrite (NoDup_lookup _ _ _ _ o_NoDup Hi' Hi). lia.
    - destruct (start_service (S fuel') d w0) as [r0 w0'] eqn:Hrun0.
      by apply (start_service_evolves conf) in Hrun0 as []. }
  destruct (forEach (start_service fuel) xs w) as [[[]| |] w1]; try done.
  destruct (is_null (read (sv w1) s)); [|done].
  destruct (start_callback (_fns (this w1)) s) as [f|] eqn:Hf.
  - rewrite (call_start_Some _ _ _ _ Hf). simpl.
    by destruct (f _ _ _).
  - destruct (call_start_None s (collectDeps xs (sv w1)) w1 Hf) as [msg ->].
    done.
Qed.

End termination.

(** On a well-formed configuration without cycle, the fuel that [start]
    passes is enough. *)
Lemma start_not_OutOfFuel (service : option string) (w : world) :
  wf_config (config (this w)) → acyclic (config (this w)) →
  (start service w).1 ≠ OutOfFuel.
Proof.
  intros Hwf Hac. set (conf := config (this w)) in *.
  destruct (sortDeps_outcome conf Hwf) as [(o & Ho & _)|(x & _ & Hcyc)];
    [|done].
  destruct (sortDeps_sound conf o (proj1 Hwf) Ho) as [Hperm Hbefore].
  assert (NoDup o) as Hnd by (rewrite Hperm; apply Hwf).
  assert (∀ d s, depends conf d s → before o d s) as Hdep.
  { intros d s Hds. by apply Hbefore, tc_once. }
  assert (∀ s i, o !! i = Some s → (i ≤ length conf)%nat) as Hpos.
  { intros s i Hi%lookup_lt_Some.
    rewrite Hperm in Hi. unfold keys in Hi. rewrite length_fmap in Hi. lia. }
  destruct service as [s|]; [rewrite start_Some|rewrite start_None];
    unfold depth; fold conf.
  - apply (start_service_fuel conf o Hnd Hdep); [done|by apply Hpos].
  - apply (forEach_avoid (λ r, r = OutOfFuel) (λ w, config (this w) = conf));
      [done| |done].
    intros s w0 _ Hc0. split.
    + apply (start_service_fuel conf o Hnd Hdep); [done|by apply Hpos].
    + destruct (start_service (S (length conf)) s w0) as [r0 w0'] eqn:Hrun0.
      by apply (start_service_evolves conf) in Hrun0 as [].
Qed.

(** ** What a start callback is given *)

Lemma evolves_good (conf : Config) (fns : Fns) (R : string → Prop)
    (w w' : world) (r : outcome unit) :
  evolves conf R w r w' → good conf fns w → good conf fns w'.
Proof.
  intros [Hc Hc' _ Hf Hd _ _] (_ & Hfns & Hcov). split_and!; [done|congruence|].
  intros k Hk. apply Hd, Hcov. congruence.
Qed.

Lemma evolves_running (conf : Config) (R : string → Prop) (w w' : world)
    (r : outcome unit) (s : string) :
  evolves conf R w r w' → running w s → running w' s.
Proof.
  intros Hev (v & Hv & Hnn). exists v. split; [|done].
  rewrite (ev_mono _ _ _ _ _ Hev); [done|].
  unfold read. rewrite Hv. by apply is_null_false.
Qed.

Lemma evolves_alive (conf : Config) (R : string → Prop) (w w' : world)
    (r : outcome unit) (k : string) :
  evolves conf R w r w' → read (sv w) k ≠ VNull → read (sv w') k ≠ VNull.
Proof.
  intros Hev Hk. unfold read at 1.
  rewrite (ev_mono _ _ _ _ _ Hev); [done|]. by apply is_null_false.
Qed.

Lemma app_inv_nil {A : Type} (l new : list A) : l = l ++ new → new = [].
Proof.
  intros H. apply (app_inv_head l). by rewrite app_nil_r.
Qed.

Lemma forEach_ready (conf : Config) (fns : Fns) (f : string → M world unit)
    (xs : list string) :
  (∀ x w r w', x ∈ xs → good conf fns w → f x w = (r, w') →
               step_ready conf w r w' x) →
  ∀ w r w', good conf fns w → forEach f xs w = (r, w') →
            evolves conf (λ _, True) w r w'
            ∧ (r = Ok tt → ∀ x, x ∈ xs → x ∈ keys conf → running w' x)
            ∧ ∀ new, calls w' = calls w ++ new → Forall (ready conf) new.
Proof.
  induction xs as [|x xs IH]; intros Hstep w r w' Hgood Hrun.
  - injection Hrun as <- <-. split_and!.
    + apply evolves_same, Hgood.
    + by intros _ x ?%elem_of_nil.
    + by intros new ->%app_inv_nil.
  - rewrite forEach_cons in Hrun. destruct (f x w) as [r0 w0] eqn:Hx.
    destruct (Hstep x w r0 w0 (list_elem_of_here _ _) Hgood Hx)
      as (E0 & N0 & F0).
    destruct r0 as [[]| |]; [|by injection Hrun as <- <-..].
    destruct (IH (λ y w r w' Hy, Hstep y w r w' (list_elem_of_further _ _ _ Hy))
                 w0 r w' (evolves_good _ _ _ _ _ _ E0 Hgood) Hrun)
      as (E1 & N1 & F1).
    split_and!.
    + by eapply evolves_seq.
    + intros Hr y [->|Hy]%elem_of_cons Hk; [|by apply N1].
      eapply evolves_running; [exact E1|by apply N0].
    + intros new Hnew.
      destruct (ev_calls _ _ _ _ _ E0) as (new0 & Hn0 & _).
      destruct (ev_calls _ _ _ _ _ E1) as (new1 & Hn1 & _).
      rewrite Hn1, Hn0, <-app_assoc in Hnew.
      apply app_inv_head in Hnew as <-.
      apply Forall_app. split; [by apply F0|by apply F1].
Qed.

Lemma wf_dependencies_keys (conf : Config) (s d : string) (xs : list string) :
  wf_config conf → dependencies conf s = Ok xs → d ∈ xs → d ∈ keys conf.
Proof.
  intros [_ Hwf] Hxs Hd.
  destruct (Hwf s (dependencies_keys _ _ _ _ Hxs Hd)) as (xs' & Hxs' & Hin).
  rewrite Hxs in Hxs'. injection Hxs' as <-. auto.
Qed.

Lemma start_service_ready (conf : Config) (fns : Fns) (fuel : nat) :
  wf_config conf → nonnull_fns conf fns →
  ∀ (s : string) (w : world) (r : outcome unit) (w' : world),
    good conf fns w → start_service fuel s w = (r, w') →
    step_ready conf w r w' s.
Proof.
  intros Hwf Hnn. induction fuel as [|fuel IH]; intros s w r w' Hgood Hrun.
  { injection Hrun as <- <-. split_and!; [apply evolves_same, Hgood|done|].
    by intros new ->%app_inv_nil. }
  assert (evolves conf (λ _, True) w r w') as Hev.
  { eapply evolves_weaken; [|eapply start_service_evolves; [apply Hgood|done]].
    done. }
  split; [done|].
  rewrite start_service_S in Hrun. rewrite (proj1 Hgood) in Hrun.
  destruct (dependencies conf s) as [xs| |] eqn:Hxs;
    [|injection Hrun as <- <-; split; [done|by intros new ->%app_inv_nil]..].
  destruct (forEach (start_service fuel) xs w) as [r1 w1] eqn:Hdeps.
  destruct (forEach_ready conf fns (start_service fuel) xs
              (λ x w r w' _, IH x w r w') w r1 w1 Hgood Hdeps)
    as (E1 & N1 & F1).
  destruct r1 as [[]| |]; [|by injection Hrun as <- <-..].
  pose proof (evolves_good _ _ _ _ _ _ E1 Hgood) as (Hc1 & Hf1 & Hcov1).
  destruct (is_null (read (sv w1) s)) eqn:Hnull.
  - apply is_null_true in Hnull.
    destruct (start_callback (_fns (this w1)) s) as [f|] eqn:Hf.
    + rewrite (call_start_Some _ _ _ _ Hf) in Hrun. simpl in Hrun.
      set (args := collectDeps xs (sv w1)) in *.
      assert (ready conf (StartCall s args (sv w1)
                            (f (calls w1) (config (this w1)) args))) as Hready.
      { exists xs. split; [done|]. split.
        - intros d Hd.
          destruct (N1 eq_refl d Hd (wf_dependencies_keys _ _ _ _ Hwf Hxs Hd))
            as (v & Hv & Hvn).
          exists v. split_and!; [done|done|].
          unfold args. rewrite collectDeps_lookup, decide_True by done.
          by rewrite (read_own _ _ _ Hv).
        - intros d Hd. unfold args.
          by rewrite collectDeps_lookup, decide_False. }
      assert (∀ new, calls w1 ++ [StartCall s args (sv w1)
                                    (f (calls w1) (config (this w1)) args)]
                     = calls w ++ new → Forall (ready conf) new) as Hall.
      { intros new Hnew.
        destruct (ev_calls _ _ _ _ _ E1) as (new1 & Hn1 & _).
        rewrite Hn1, <-app_assoc in Hnew. apply app_inv_head in Hnew as <-.
        apply Forall_app. split; [by apply F1|]. by constructor. }
      assert (is_Some (sv w1 !! s)) as Hown
        by (apply read_null in Hnull; eauto).
      destruct (f (calls w1) (config (this w1)) args) as [v|e] eqn:Hres;
        simpl in Hrun; injection Hrun as <- <-; simpl.
      * split; [|done]. intros _ _. exists v. simpl.
        rewrite (assign_own _ _ _ Hown).
        split; [by rewrite lookup_insert_eq|].
        rewrite Hf1 in Hf. rewrite Hc1 in Hres.
        eapply Hnn; [exact Hf|exact Hres].
      * done.
    + destruct (call_start_None s (collectDeps xs (sv w1)) w1 Hf) as [msg Hmsg].
      rewrite Hmsg in Hrun. injection Hrun as <- <-. done.
  - injection Hrun as <- <-. split; [|done]. intros _ Hk.
    destruct (Hcov1 s) as [v Hv]; [by rewrite Hc1|].
    exists v. split; [done|]. apply is_null_false.
    by rewrite (read_own _ _ _ Hv) in Hnull.
Qed.

(** *** C9 *)


Lemma test_fns_nonnull : nonnull_fns test_conf test_fns.
Proof.
  intros s f Hs h a v Hv. unfold start_callback in Hs. simpl in Hs.
  repeat (case_decide; simplify_eq/=); try done.
  - unfold startX in Hv. simpl in Hv. by injection Hv as <-.
  - unfold startY in Hv. simpl in Hv. by injection Hv as <-.
  - unfold startSum in Hv. by injection Hv as <-.
Defined.

Lemma nullifyVals_cover (sys : System) (cs : list call) :
  _services sys = nullifyVals (config sys) → cover (mkWorld sys cs).
Proof.
  intros Hs k Hk. simpl in *.
  rewrite Hs, nullifyVals_lookup, decide_True by done. eauto.
Defined.


(** ** Starting twice *)

Lemma invocations_app (s : string) (cs cs' : list call) :
  invocations s (cs ++ cs') = (invocations s cs + invocations s cs')%nat.
Proof. unfold invocations. by rewrite List.filter_app, length_app. Qed.

Lemma invocations_none (s : string) (cs : list call) :
  (∀ a vs res, StartCall s a vs res ∉ cs) → invocations s cs = 0%nat.
Proof.
  unfold invocations. induction cs as [|c cs IH]; intros Hnot; [done|]. simpl.
  destruct (is_start_of s c) eqn:Hc.
  - destruct c as [x a vs res|]; [|done]. simpl in Hc.
    apply bool_decide_eq_true in Hc as ->.
    destruct (Hnot a vs res). left.
  - apply IH. intros a vs res Hin. apply (Hnot a vs res). by right.
Qed.

Lemma carries_refl (conf : Config) (fns : Fns) (a : world) :
  carries conf fns a a.
Proof. by intros ?. Qed.

Lemma carries_trans (conf : Config) (fns : Fns) (a b c : world) :
  carries conf fns a b → carries conf fns b c → carries conf fns a c.
Proof.
  intros Hab Hbc Ha. destruct (Hab Ha) as (Hb & Hab' & Hab'').
  destruct (Hbc Hb) as (Hc & Hbc' & Hbc''). split_and!; auto.
Qed.

Lemma evolves_carries (conf : Config) (fns : Fns) (R : string → Prop)
    (a b : world) (r : outcome unit) :
  evolves conf R a r b → carries conf fns a b.
Proof.
  intros Hev Ha. split_and!; [by eapply evolves_good| |].
  - intros k. by eapply evolves_running.
  - intros k. by eapply evolves_alive.
Qed.

Lemma start_service_carries (conf : Config) (fns : Fns) (fuel : nat)
    (s : string) (a b : world) (r : outcome unit) :
  start_service fuel s a = (r, b) → carries conf fns a b.
Proof.
  intros Hrun Ha. eapply evolves_carries; [|done].
  eapply start_service_evolves; [apply Ha|exact Hrun].
Qed.

(** After a [start(s)] that returned, on callbacks that do not return
    [null], the name [s] reads as something other than [null]. *)
Lemma start_service_alive (conf : Config) (fns : Fns) (fuel : nat)
    (s : string) (w w1 : world) :
  nonnull_fns conf fns → config (this w) = conf → _fns (this w) = fns →
  start_service fuel s w = (Ok tt, w1) → read (sv w1) s ≠ VNull.
Proof.
  intros Hnn Hc Hf Hrun. destruct fuel as [|fuel]; [done|].
  rewrite start_service_S, Hc in Hrun.
  destruct (dependencies conf s) as [xs| |] eqn:Hxs; [|done..].
  destruct (forEach (start_service fuel) xs w) as [[[]| |] wa] eqn:Hdeps;
    [|done..].
  assert (evolves conf (λ _, True) w (Ok tt) wa) as Hev.
  { eapply forEach_evolves; [|exact Hc|exact Hdeps].
    intros d a r b _ Ha Hx.
    eapply evolves_weaken; [|by eapply start_service_evolves]. done. }
  destruct (is_null (read (sv wa) s)) eqn:Hnull.
  - apply is_null_true in Hnull.
    assert (is_Some (sv wa !! s)) as Hown
      by (apply read_null in Hnull; eauto).
    destruct (start_callback (_fns (this wa)) s) as [f|] eqn:Hcb.
    + rewrite (call_start_Some _ _ _ _ Hcb) in Hrun. simpl in Hrun.
      destruct (f _ _ _) as [v|e] eqn:Hres; simpl in Hrun; [|done].
      injection Hrun as <-. simpl. rewrite (assign_own _ _ _ Hown).
      rewrite (read_own _ _ v) by apply lookup_insert_eq.
      rewrite (ev_fns _ _ _ _ _ Hev), Hf in Hcb.
      rewrite (ev_config' _ _ _ _ _ Hev) in Hres.
      eapply Hnn; [exact Hcb|exact Hres].
    + destruct (call_start_None s (collectDeps xs (sv wa)) wa Hcb)
        as [msg Hmsg].
      by rewrite Hmsg in Hrun.
  - injection Hrun as <-. by apply is_null_false.
Qed.

(** A further [start(s)] then finds everything it looks at running: it
    returns without a callback invocation or a change, in any later state
    in which the names that read as something other than [null] still do. *)
Lemma start_service_again (conf : Config) (fns : Fns) (fuel : nat) :
  nonnull_fns conf fns →
  ∀ (s : string) (w w1 : world),
    good conf fns w → start_service fuel s w = (Ok tt, w1) →
    ∀ w2, config (this w2) = conf →
          (∀ k, read (sv w1) k ≠ VNull → read (sv w2) k ≠ VNull) →
          start_service fuel s w2 = (Ok tt, w2).
Proof.
  intros Hnn. induction fuel as [|fuel IH]; intros s w w1 Hgood Hrun w2 Hc2 Hlater;
    [done|].
  pose proof (start_service_alive conf fns (S fuel) s w w1 Hnn (proj1 Hgood)
                (proj1 (proj2 Hgood)) Hrun) as Hs.
  apply Hlater in Hs.
  rewrite start_service_S in Hrun. rewrite (proj1 Hgood) in Hrun.
  destruct (dependencies conf s) as [xs| |] eqn:Hxs; [|done..].
  destruct (forEach (start_service fuel) xs w) as [[[]| |] wa] eqn:Hdeps;
    [|done..].
  assert (∀ d, d ∈ xs → ∃ sa sb, carries conf fns w sa
                                 ∧ start_service fuel d sa = (Ok tt, sb)
                                 ∧ carries conf fns sb wa) as Hsteps.
  { eapply (forEach_Ok_steps (carries conf fns)); [| | |exact Hdeps].
    - apply carries_refl.
    - apply carries_trans.
    - intros x a r b _ Hx. by eapply start_service_carries. }
  assert (good conf fns wa) as Hgooda.
  { eapply (forEach_preorder (carries conf fns)); [| | |exact Hdeps|exact Hgood].
    - apply carries_refl.
    - apply carries_trans.
    - intros x a r b _ Hx. by eapply start_service_carries. }
  assert (∀ k, read (sv wa) k ≠ VNull → read (sv w1) k ≠ VNull) as Hlast.
  { destruct (is_null (read (sv wa) s)) eqn:Hnull;
      [|by injection Hrun as <-].
    apply is_null_true in Hnull. intros k.
    eapply evolves_alive, call_start_evolves;
      [apply Hgooda|done|done|exact Hrun]. }
  rewrite start_service_S, Hc2, Hxs.
  rewrite forEach_skip.
  - by apply is_null_false in Hs as ->.
  - intros d Hd. destruct (Hsteps d Hd) as (sa & sb & Hsa & Hd1 & Hsb).
    destruct (Hsa Hgood) as [Hga _].
    assert (good conf fns sb) as Hgb.
    { by eapply (start_service_carries conf fns). }
    destruct (Hsb Hgb) as (_ & _ & Hba).
    eapply (IH d sa sb); [done|done|done|]. auto.
Qed.

(** Over a [start(s)] that returned on a configuration without cycle, the
    start callback of [s] ran once if [s] was [null] before, and not at all
    otherwise. *)
Lemma start_service_count (conf : Config) (fuel : nat) (s : string)
    (w w1 : world) :
  acyclic conf → config (this w) = conf →
  start_service fuel s w = (Ok tt, w1) →
  ∃ new, calls w1 = calls w ++ new
         ∧ invocations s new = if is_null (read (sv w) s) then 1%nat else 0%nat.
Proof.
  intros Hac Hc Hrun. destruct fuel as [|fuel]; [done|].
  rewrite start_service_S, Hc in Hrun.
  destruct (dependencies conf s) as [xs| |] eqn:Hxs; [|done..].
  destruct (forEach (start_service fuel) xs w) as [[[]| |] wa] eqn:Hdeps;
    [|done..].
  assert (evolves conf (λ x, ∃ d, depends conf d s ∧ rtc (depends conf) x d)
                  w (Ok tt) wa) as Hev.
  { eapply forEach_evolves; [|exact Hc|exact Hdeps].
    intros d a r b Hd Ha Hx.
    eapply evolves_weaken; [|by eapply start_service_evolves].
    intros x Hxd. exists d. split; [by exists xs|done]. }
  destruct Hev as [_ Hca _ _ _ _ (new1 & Hn1 & Hev1 & Ht1)].
  assert (∀ a vs res, StartCall s a vs res ∉ new1) as Hnone.
  { intros a vs res Hin. rewrite Forall_forall in Hev1.
    destruct (Hev1 _ Hin) as ((d & Hds & Hsd) & _).
    apply (Hac s). by eapply tc_rtc_l; [|apply tc_once]. }
  assert (read (sv wa) s = read (sv w) s) as Hsame.
  { destruct (Ht1 s) as [E|(a & vs & res & Hin)]; [|by destruct (Hnone a vs res)].
    unfold read. by rewrite E. }
  rewrite Hsame in Hrun.
  destruct (is_null (read (sv w) s)) eqn:Hnull.
  - destruct (start_callback (_fns (this wa)) s) as [f|] eqn:Hf.
    + rewrite (call_start_Some _ _ _ _ Hf) in Hrun. simpl in Hrun.
      destruct (f _ _ _) as [v|e]; simpl in Hrun; [|done].
      injection Hrun as <-. simpl. eexists. rewrite Hn1, <-app_assoc.
      split; [done|]. rewrite invocations_app, (invocations_none _ _ Hnone).
      unfold invocations. simpl. by rewrite bool_decide_eq_true_2.
    + destruct (call_start_None s (collectDeps xs (sv wa)) wa Hf) as [msg Hmsg].
      by rewrite Hmsg in Hrun.
  - injection Hrun as <-. exists new1. split; [done|].
    by apply invocations_none.
Qed.

(** *** C4 *)

(** C4, as stated, fails: when the start callback returns [null] the service
    still counts as stopped, and a second [start('a')] invokes the callback
    again. *)
Lemma start_twice_null_callback :
  new_System [("a", VObj [])]
             [("a", FnRecord (Callable (λ _ _ _, Returns VNull)) Absent)] false
  = Ok (built null_sys)
  ∧ ∃ w1 w2, run (start (Some "a")) null_sys = (Ok tt, w1)
             ∧ start (Some "a") w1 = (Ok tt, w2)
             ∧ invocations "a" (calls w1) = 1%nat
             ∧ invocations "a" (calls w2) = 2%nat.
Proof.
  split; [vm_compute; reflexivity|].
  eexists _, _. split; [vm_compute; reflexivity|].
  split; [vm_compute; reflexivity|].
  split; vm_compute; reflexivity.
Qed.

(** C4, amended.  On a configuration without cycle, with start callbacks
    that do not return [null] and a value stored for every service: if
    [start(name)] returns, then a second [start(name)] returns with no
    callback invoked and no value (nor anything else) changed; over the two
    calls the start callback of [name] has been invoked exactly once if
    [name] was stopped before the first call, and not at all if it was
    running. *)
Theorem start_idempotent (s : string) (w w1 : world) :
  acyclic (config (this w)) →
  nonnull_fns (config (this w)) (_fns (this w)) → cover w →
  start (Some s) w = (Ok tt, w1) →
  start (Some s) w1 = (Ok tt, w1)
  ∧ ∃ new, calls w1 = calls w ++ new
           ∧ invocations s new
             = if is_null (read (sv w) s) then 1%nat else 0%nat.
Proof.
  intros Hac Hnn Hcov. rewrite !start_Some. intros Hrun.
  assert (good (config (this w)) (_fns (this w)) w) as Hgood by done.
  pose proof (start_service_evolves _ _ _ _ _ _ eq_refl Hrun) as Hev.
  split.
  - unfold depth. rewrite (ev_config' _ _ _ _ _ Hev).
    eapply start_service_again; [exact Hnn|exact Hgood|exact Hrun| |done].
    apply (ev_config' _ _ _ _ _ Hev).
  - by eapply start_service_count.
Qed.

Lemma start_idempotent_witness :
  ∃ w1, run (start (Some "sum")) test_sys = (Ok tt, w1)
        ∧ start (Some "sum") w1 = (Ok tt, w1)
        ∧ ∃ new, calls w1 = [] ++ new ∧ invocations "sum" new = 1%nat.
Proof.
  eexists. split; [vm_compute; reflexivity|].
  apply (start_idempotent "sum" (mkWorld test_sys [])).
  - apply test_conf_acyclic.
  - apply test_fns_nonnull.
  - apply nullifyVals_cover. reflexivity.
  - vm_compute. reflexivity.
Defined.

(** ** Start everything, then stop everything *)

Lemma total_fns_nonnull (conf : Config) (fns : Fns) :
  total_fns conf fns → nonnull_fns conf fns.
Proof.
  by intros [? _].
Qed.

Lemma start_service_no_Throw (conf : Config) (fns : Fns) (fuel : nat) :
  wf_config conf → total_fns conf fns →
  ∀ (s : string) (w : world) (e : exn),
    s ∈ keys conf → good conf fns w → (start_service fuel s w).1 ≠ Throw e.
Proof.
  intros Hwf Htot. induction fuel as [|fuel IH]; intros s w e Hs Hgood; [done|].
  rewrite start_service_S, (proj1 Hgood).
  destruct (proj2 Hwf s Hs) as (xs & -> & Hxs).
  assert ((forEach (start_service fuel) xs w).1 ≠ Throw e) as Hdeps.
  { apply (forEach_avoid (λ r, r = Throw e) (good conf fns)); [done| |done].
    intros d a Hd Ha. split; [by apply IH; auto|].
    destruct (start_service fuel d a) as [r b] eqn:Hrun. simpl.
    by eapply (start_service_carries conf fns). }
  destruct (forEach (start_service fuel) xs w) as [[[]| |] wa] eqn:Hrun;
    simpl in *; try done.
  assert (good conf fns wa) as (Hca & Hfa & _).
  { eapply (forEach_preorder (carries conf fns)); [| | |exact Hrun|exact Hgood].
    - apply carries_refl.
    - apply carries_trans.
    - intros x a r b _ Hx. by eapply start_service_carries. }
  destruct (is_null (read (sv wa) s)); [|done].
  destruct (proj2 Htot s Hs) as (f & stop_cb & Hf & Hret & _).
  rewrite (call_start_Some _ _ _ f).
  - simpl. rewrite Hca.
    by destruct (Hret (calls wa) (collectDeps xs (sv wa))) as (v & -> & _).
  - unfold start_callback. by rewrite Hfa, Hf.
Qed.

Lemma stop_service_total (conf : Config) (fns : Fns) (s : string) (w : world) :
  wf_config conf → total_fns conf fns → s ∈ keys conf →
  config (this w) = conf → _fns (this w) = fns →
  is_Some (sv w !! s) →
  ∃ w', stop_service s w = (Ok tt, w')
        ∧ config (this w') = conf ∧ _fns (this w') = fns
        ∧ _order (this w') = _order (this w)
        ∧ sv w' = <[s := VNull]> (sv w).
Proof.
  intros Hwf Htot Hs Hc Hf [v Hv].
  destruct (proj2 Hwf s Hs) as (xs & (deps & Hdeps & Hxs)%dependencies_Ok & _).
  destruct (proj2 Htot s Hs) as (f & stop_cb & Hentry & _ & Hstop).
  rewrite stop_service_unfold, Hc, Hdeps.
  unfold read_stop, mbind, M_bind, gets, lift. simpl.
  rewrite Hf, (lookup_fn_own _ _ _ Hentry). simpl.
  destruct (is_null (read (sv w) s)) eqn:Hnull; simpl.
  - exists w. split_and!; try done.
    apply is_null_true, read_null in Hnull. by rewrite insert_id.
  - unfold set_service, modify.
    destruct Hstop as [Heq|(g & Heq & Hg)]; subst stop_cb; simpl.
    + rewrite (assign_own _ _ _ (mk_is_Some _ _ Hv)).
      eexists. split; [reflexivity|]. by simpl.
    + rewrite Hxs. unfold call_stop, mbind, M_bind, gets, lift, record_call,
        modify. simpl.
      destruct (Hg (calls w) (read (sv w) s) (collectDeps xs (sv w))) as [r ->].
      simpl. rewrite (assign_own _ _ _ (mk_is_Some _ _ Hv)).
      eexists. split; [reflexivity|]. by simpl.
Qed.

Lemma nullify_fold_lookup (m : gmap string value) (l : list string) (k : string) :
  foldl (λ acc x, <[x := VNull]> acc) m l !! k
  = if decide (k ∈ l) then Some VNull else m !! k.
Proof.
  induction l as [|x l IH] using rev_ind; simpl; [done|].
  rewrite foldl_app. simpl. destruct (decide (x = k)) as [->|Hne].
  - rewrite lookup_insert_eq.
    destruct (decide (k ∈ l ++ [k])) as [Hd|Hd]; [done|].
    exfalso. apply Hd. set_solver.
  - rewrite lookup_insert_ne, IH by done.
    destruct (decide (k ∈ l)), (decide (k ∈ l ++ [x])); try done; set_solver.
Qed.

Lemma forEach_stop (conf : Config) (fns : Fns) (l : list string) :
  wf_config conf → total_fns conf fns →
  (∀ s, s ∈ l → s ∈ keys conf) →
  ∀ w, config (this w) = conf → _fns (this w) = fns →
       (∀ s, s ∈ keys conf → is_Some (sv w !! s)) →
       ∃ w', forEach stop_service l w = (Ok tt, w')
             ∧ _order (this w') = _order (this w)
             ∧ sv w' = foldl (λ acc x, <[x := VNull]> acc) (sv w) l.
Proof.
  intros Hwf Htot. induction l as [|s l IH]; intros Hl w Hc Hf Hcov.
  - exists w. by split_and!.
  - destruct (stop_service_total conf fns s w Hwf Htot)
      as (w1 & Hrun & Hc1 & Hf1 & Ho1 & Hsv1);
      [apply Hl; left|done|done|apply Hcov, Hl; left|].
    destruct (IH (λ x Hx, Hl x (list_elem_of_further _ _ _ Hx)) w1 Hc1 Hf1)
      as (w' & Hrun' & Ho' & Hsv').
    { intros k Hk. rewrite Hsv1. destruct (decide (s = k)) as [->|Hne].
      - rewrite lookup_insert_eq. eauto.
      - rewrite lookup_insert_ne by done. by apply Hcov. }
    exists w'. rewrite forEach_cons, Hrun. split_and!; [done|congruence|].
    by rewrite Hsv', Hsv1.
Qed.

(** *** C5 *)

(** C5, as stated, fails: the constructor defines a getter for every
    service, and the getter of a service named [stop] hides the method.
    On this well-formed configuration [start()] returns with the service
    running, and the call of [stop] that follows is a [TypeError] that
    leaves it running. *)
Lemma roundtrip_service_named_stop :
  wf_config stop_conf ∧ acyclic stop_conf ∧ total_fns stop_conf stop_fns
  ∧ new_System stop_conf stop_fns true = Ok (built stop_named_sys)
  ∧ ∃ w1 msg,
      send (keys stop_conf) "start" (start None) (mkWorld stop_named_sys [])
      = Some (Ok tt, w1)
      ∧ sv w1 !! "stop" = Some (VNum 1)
      ∧ send (keys stop_conf) "stop" (stop None) w1
        = Some (Throw (TypeError msg), w1).
Proof.
  split_and!.
  - apply wf_configb_spec. vm_compute. reflexivity.
  - apply (sortDeps_Ok_acyclic stop_conf ["stop"]).
    + apply NoDup_singleton.
    + vm_compute. reflexivity.
  - split.
    + intros s f Hs h a v Hv. unfold start_callback in Hs. simpl in Hs.
      case_decide; [|done]. injection Hs as <-. by injection Hv as <-.
    + intros s Hs. apply list_elem_of_singleton in Hs as ->.
      eexists _, Absent. split_and!; [reflexivity| |by left].
      intros h a. by exists (VNum 1).
  - vm_compute. reflexivity.
  - eexists _, _. split_and!; vm_compute; reflexivity.
Qed.

(** C5, amended.  For a well-formed configuration without cycle in which
    no service bears the name of a field or of [start] or [stop], and a
    registry whose start callbacks return non-null values and whose stop
    callbacks, where present, return (validation off or passing):
    construction succeeds, [start()] returns with every service running,
    the [stop()] that follows returns, and the service values are then
    those of the freshly built system, [null] for every service. *)
Theorem start_stop_roundtrip (conf : Config) (fns : Fns) (validate : bool) :
  wf_config conf → acyclic conf → total_fns conf fns →
  validated conf fns validate →
  (∀ m, m ∈ member_names → m ∉ keys conf) →
  ∃ sys w1 w2,
    new_System conf fns validate = Ok (built sys)
    ∧ send (keys conf) "start" (start None) (mkWorld sys []) = Some (Ok tt, w1)
    ∧ (∀ k, k ∈ keys conf → running w1 k)
    ∧ send (keys conf) "stop" (stop None) w1 = Some (Ok tt, w2)
    ∧ sv w2 = _services sys
    ∧ ∀ k, k ∈ keys conf → sv w2 !! k = Some VNull.
Proof.
  intros Hwf Hac Htot Hval Hnames.
  assert (∃ b, (if validate then check conf fns else Ok true) = Ok b) as [b Hb].
  { destruct validate; [rewrite Hval by done|]; eauto. }
  destruct (sortDeps_outcome conf Hwf) as [(order & Ho & _)|(x & _ & Hcyc)];
    [|done].
  destruct (sortDeps_sound conf order (proj1 Hwf) Ho) as [Hperm _].
  set (sys := mkSystem conf order (nullifyVals conf) fns).
  set (w := mkWorld sys []).
  assert (good conf fns w) as Hgood.
  { split_and!; [done|done|]. by apply nullifyVals_cover. }
  destruct (start None w) as [r w1] eqn:Hstart.
  assert (r = Ok tt) as ->.
  { pose proof (start_not_OutOfFuel None w Hwf Hac) as Hfuel.
    assert (∀ e, (start None w).1 ≠ Throw e) as Hthrow.
    { intros e. rewrite start_None.
      apply (forEach_avoid (λ r, r = Throw e) (good conf fns)); [done| |done].
      intros s a Hs Ha. split.
      - apply (start_service_no_Throw conf fns); [done|done| |done].
        simpl in Hs. by rewrite Hperm in Hs.
      - destruct (start_service (depth w) s a) as [r' b'] eqn:Hrun. simpl.
        by eapply (start_service_carries conf fns). }
    rewrite Hstart in Hfuel, Hthrow. simpl in *.
    destruct r as [[]| |]; [done|by destruct (Hthrow e)|done]. }
  rewrite start_None in Hstart.
  destruct (forEach_ready conf fns (start_service (depth w)) (_order (this w))
              (λ x a r b _, start_service_ready conf fns _ Hwf
                              (total_fns_nonnull _ _ Htot) x a r b)
              w _ w1 Hgood Hstart) as (Hev & Hrunning & _).
  destruct Hev as [_ Hc1 Ho1 Hf1 Hd1 _ _].
  assert (∀ s, s ∈ keys conf → is_Some (sv w1 !! s)) as Hcov1.
  { intros s Hs. apply Hd1. simpl.
    rewrite nullifyVals_lookup, decide_True by done. eauto. }
  assert (∀ k, k ∈ reverse (_order (this w1)) ↔ k ∈ keys conf) as Hmem.
  { intros k. rewrite elem_of_reverse, Ho1. simpl. by rewrite Hperm. }
  destruct (forEach_stop conf fns (reverse (_order (this w1))) Hwf Htot)
    with (w := mkWorld (mkSystem (config (this w1)) (reverse (_order (this w1)))
                                 (sv w1) (_fns (this w1))) (calls w1))
    as (w2 & Hstop & _ & Hsv2); try done.
  { intros s Hs. by apply Hmem. }
  assert (∀ k, sv w2 !! k = nullifyVals conf !! k) as Hlook.
  { intros k. rewrite Hsv2, nullify_fold_lookup, nullifyVals_lookup. simpl.
    destruct (decide (k ∈ keys conf)) as [Hk|Hk].
    - rewrite decide_True; [done|]. by apply Hmem.
    - rewrite decide_False by by rewrite Hmem.
      apply eq_None_not_Some. rewrite Hd1. simpl.
      rewrite nullifyVals_lookup, decide_False by done.
      by intros [? ?]. }
  assert (∀ m, m ∈ ["start"; "stop"] → m ∉ keys conf) as Hmethods.
  { intros m Hm. apply Hnames. unfold member_names. set_solver. }
  exists sys, w1, w2. split_and!.
  - rewrite new_System_unfold, Hb, Ho. simpl. f_equal. apply object_built.
    intros f Hf. apply Hnames. unfold member_names. set_solver.
  - unfold send. rewrite decide_False by (apply Hmethods; set_solver).
    fold w. by rewrite start_None, Hstart.
  - intros k Hk. apply Hrunning; [done| |done]. simpl. by rewrite Hperm.
  - unfold send. rewrite decide_False by (apply Hmethods; set_solver).
    by rewrite <-Hstop.
  - by apply map_eq.
  - intros k Hk. by rewrite Hlook, nullifyVals_lookup, decide_True.
Qed.

Lemma test_fns_total : total_fns test_conf test_fns.
Proof.
  assert (∀ s, s ∈ keys test_conf → s = "x" ∨ s = "y" ∨ s = "sum") as Hkeys.
  { intros s Hs. simpl in Hs. set_solver. }
  split; [apply test_fns_nonnull|].
  intros s [->|[->| ->]]%Hkeys.
  - exists startX, Absent. split_and!; [done| |by left].
    intros h a. exists (VNum 1). done.
  - exists startY, Absent. split_and!; [done| |by left].
    intros h a. exists (VNum 2). done.
  - exists startSum, Absent. split_and!; [done| |by left].
    intros h a. eexists. done.
Defined.

Lemma start_stop_roundtrip_witness :
  ∃ sys w1 w2,
    new_System test_conf test_fns true = Ok (built sys)
    ∧ send (keys test_conf) "start" (start None) (mkWorld sys [])
      = Some (Ok tt, w1)
    ∧ (∀ k, k ∈ keys test_conf → running w1 k)
    ∧ send (keys test_conf) "stop" (stop None) w1 = Some (Ok tt, w2)
    ∧ sv w2 = _services sys
    ∧ ∀ k, k ∈ keys test_conf → sv w2 !! k = Some VNull.
Proof.
  apply (start_stop_roundtrip test_conf test_fns true).
  - apply wf_configb_spec. vm_compute. reflexivity.
  - apply test_conf_acyclic.
  - apply test_fns_total.
  - intros _. vm_compute. reflexivity.
  - intros m Hm Hk. unfold member_names, field_names in Hm. simpl in Hk.
    set_solver.
Defined.

(** * Further properties of the code *)

(** ** The helpers *)

Lemma default_inherited (k : string) :
  (default VUndefined (inherited k) = VUndefined ↔ k ∉ Object_prototype)
  ∧ default VUndefined (inherited k) ≠ VNull.
Proof.
  destruct (inherited k) as [v|] eqn:Hv; simpl.
  - destruct (inherited_Some _ _ Hv) as [Hk [->|[i ->]]];
      (split; [split; [done|by intros []]|done]).
  - apply inherited_None in Hv. done.
Qed.

(** X1.  [nullifyVals(o)] has the keys of [o] as own properties, each
    holding [null], and no other own property: a read of any other name
    does not give [null], and gives [undefined] exactly when the name is no
    member of [Object.prototype]. *)
Theorem nullifyVals_read {A : Type} (o : obj A) (k : string) :
  (k ∈ keys o →
   nullifyVals o !! k = Some VNull ∧ read (nullifyVals o) k = VNull)
  ∧ (k ∉ keys o →
     nullifyVals o !! k = None
     ∧ read (nullifyVals o) k ≠ VNull
     ∧ (read (nullifyVals o) k = VUndefined ↔ k ∉ Object_prototype)).
Proof.
  split; intros Hk.
  - assert (nullifyVals o !! k = Some VNull) as Hnull
      by by rewrite nullifyVals_lookup, decide_True.
    split; [done|]. by rewrite (read_own _ _ _ Hnull).
  - assert (nullifyVals o !! k = None) as Hnone
      by by rewrite nullifyVals_lookup, decide_False.
    split; [done|]. rewrite (read_inherited _ _ Hnone).
    destruct (default_inherited k). done.
Qed.

Lemma nullifyVals_read_witness :
  read (nullifyVals test_conf) "x" = VNull
  ∧ read (nullifyVals test_conf) "z" = VUndefined
  ∧ read (nullifyVals test_conf) "toString" ≠ VUndefined.
Proof.
  destruct (nullifyVals_read test_conf "x") as [Hx _].
  destruct (nullifyVals_read test_conf "z") as [_ Hz].
  destruct (nullifyVals_read test_conf "toString") as [_ Ht].
  split_and!.
  - apply Hx. apply list_elem_of_here.
  - apply Hz; [|apply inherited_None; reflexivity].
    simpl. intros Hin. set_solver.
  - intros Hu. apply Ht in Hu; [|simpl; intros Hin; set_solver].
    apply Hu. apply inherited_is_Some. vm_compute. eauto.
Defined.

(** X2.  [collectDeps(deps, services)] has exactly the names of [deps] as
    own properties, however often a name occurs.  Under each it holds the
    value that [services] has for it as own property; for a name that
    [services] does not have, it holds [undefined], unless the name is a
    member of [Object.prototype]: then it holds that member. *)
Theorem collectDeps_exact (deps : list string) (services : gmap string value) :
  dom (collectDeps deps services) = list_to_set deps
  ∧ (∀ d v, d ∈ deps → services !! d = Some v →
            collectDeps deps services !! d = Some v)
  ∧ ∀ d, d ∈ deps → services !! d = None →
         ∃ v, collectDeps deps services !! d = Some v
              ∧ v ≠ VNull
              ∧ (v = VUndefined ↔ d ∉ Object_prototype).
Proof.
  split_and!.
  - apply set_eq. intros d. rewrite elem_of_dom, collectDeps_lookup.
    rewrite elem_of_list_to_set.
    case_decide as Hd; split; intros H; try done; eauto; by destruct H.
  - intros d v Hd Hv. rewrite collectDeps_lookup, decide_True by done.
    by rewrite (read_own _ _ _ Hv).
  - intros d Hd Hv. rewrite collectDeps_lookup, decide_True by done.
    rewrite (read_inherited _ _ Hv). eexists. split; [done|].
    destruct (default_inherited d). done.
Qed.

Lemma collectDeps_exact_witness :
  collectDeps ["x"; "toString"; "z"] (<["x" := VNum 1]> ∅) !! "x"
  = Some (VNum 1)
  ∧ collectDeps ["x"; "toString"; "z"] (<["x" := VNum 1]> ∅) !! "z"
    = Some VUndefined
  ∧ collectDeps ["x"; "toString"; "z"] (<["x" := VNum 1]> ∅) !! "toString"
    ≠ Some VUndefined.
Proof.
  destruct (collectDeps_exact ["x"; "toString"; "z"] (<["x" := VNum 1]> ∅))
    as (_ & Hown & Hnone).
  split_and!.
  - apply Hown; [apply list_elem_of_here|reflexivity].
  - destruct (Hnone "z") as (v & Hv & _ & Hu); [set_solver|reflexivity|].
    rewrite Hv. f_equal. apply Hu. apply inherited_None. reflexivity.
  - destruct (Hnone "toString") as (v & Hv & _ & Hu);
      [set_solver|reflexivity|].
    rewrite Hv. intros [= ->]. apply (proj1 Hu eq_refl).
    apply inherited_is_Some. vm_compute. eauto.
Defined.

Lemma dependencies_outcome (conf : Config) (s : string) :
  (∃ xs, dependencies conf s = Ok xs)
  ∨ (∃ msg, dependencies conf s = Throw (TypeError msg)).
Proof.
  unfold dependencies.
  destruct (dependsOn_outcome conf s) as [[deps ->]|[msg ->]]; simpl; [|eauto].
  destruct deps; simpl; eauto.
Qed.

Lemma flatMapM_exact {A B : Type} (f : A → outcome (list B)) (xs : list A)
    (ys : list B) :
  flatMapM f xs = Ok ys →
  ys = xs ≫= (λ x, ok_or [] (f x)) ∧ ∀ x, x ∈ xs → ∃ zs, f x = Ok zs.
Proof.
  revert ys. induction xs as [|x xs IH]; intros ys; simpl.
  - intros [= <-]. split; [done|]. by intros x ?%elem_of_nil.
  - intros (zs & Hz & (ws & Hw & [= <-])%bind_Ok)%bind_Ok.
    destruct (IH _ Hw) as [-> Hall]. rewrite Hz. simpl. split; [done|].
    intros y [->|Hy]%elem_of_cons; eauto.
Qed.

Lemma flatMapM_fails {A B : Type} (f : A → outcome (list B)) (xs : list A)
    (P : exn → Prop) :
  (∀ x, (∃ zs, f x = Ok zs) ∨ ∃ e, f x = Throw e ∧ P e) →
  (∃ x, x ∈ xs ∧ ∀ zs, f x ≠ Ok zs) →
  ∃ e, flatMapM f xs = Throw e ∧ P e.
Proof.
  intros Hf. induction xs as [|x xs IH]; intros (y & Hy & Hbad).
  - by apply elem_of_nil in Hy.
  - simpl. destruct (Hf x) as [[zs Hz]|(e & He & HP)].
    + rewrite Hz. simpl. destruct IH as (e & -> & HP); [|simpl; eauto].
      apply elem_of_cons in Hy as [->|Hy]; [by destruct (Hbad zs)|eauto].
    + rewrite He. simpl. eauto.
Qed.

Lemma filter_isNotEmpty (es : list edge) :
  filter (λ e, isNotEmpty e = true) es = es.
Proof.
  induction es as [|e es IH]; [done|].
  rewrite filter_cons. by rewrite decide_True, IH.
Qed.

(** X3.  When [edges(conf)] returns, the dependency list of every service
    resolved, and the result is, service by service in key order, the pairs
    [(dep, service)] in the order of the dependency list; a service without
    dependencies contributes nothing. *)
Theorem edges_exact (conf : Config) (es : list edge) :
  edges conf = Ok es →
  es = keys conf ≫= (λ s, (λ d, (d, s)) <$> ok_or [] (dependencies conf s))
  ∧ ∀ s, s ∈ keys conf → ∃ xs, dependencies conf s = Ok xs.
Proof.
  unfold edges. intros (es' & Hes & [= <-])%bind_Ok.
  rewrite filter_isNotEmpty.
  destruct (flatMapM_exact _ _ _ Hes) as [-> Hall]. split.
  - apply list_bind_ext; [|done]. intros s.
    rewrite depEdges_dependencies.
    by destruct (dependencies conf s).
  - intros s Hs. destruct (Hall s Hs) as [zs Hz].
    rewrite depEdges_dependencies in Hz.
    destruct (dependencies conf s); simpl in Hz; [eauto|done..].
Qed.

Lemma edges_exact_witness :
  edges test_conf = Ok [("x", "y"); ("x", "sum"); ("y", "sum")]
  ∧ ∀ s, s ∈ keys test_conf → ∃ xs, dependencies test_conf s = Ok xs.
Proof.
  destruct (edges_exact test_conf [("x", "y"); ("x", "sum"); ("y", "sum")])
    as [_ Hall]; [vm_compute; reflexivity|].
  split; [vm_compute; reflexivity|exact Hall].
Defined.

(** ** Validation *)

Lemma foldM_unit_Ok_any {A : Type} (f : unit → A → outcome unit) (xs : list A)
    (u : unit) :
  foldM f tt xs = Ok u ↔ ∀ x, x ∈ xs → f tt x = Ok tt.
Proof. destruct u. apply foldM_unit_Ok. Qed.

Lemma checkConfigEntry_valid (v : value) :
  checkConfigEntry v = Ok tt ↔ valid_entry v.
Proof.
  unfold checkConfigEntry, valid_entry.
  destruct v as [| | | | |xs| |fields]; simpl; try done.
  - split; [done|]. intros _. apply foldM_unit_Ok.
    by intros data (? & -> & _)%list_elem_of_fmap.
  - assert (foldM (λ (_ : unit) data,
                     if isFn data then Throw (TypeError errors.conf_behaviour)
                     else Ok tt) tt fields.*2 = Ok tt
            ↔ ∀ k id, (k, VFun id) ∉ fields) as Hfns.
    { rewrite foldM_unit_Ok. split.
      - intros Hall k id Hin. specialize (Hall (VFun id)). simpl in Hall.
        assert (VFun id ∈ fields.*2) as Hv
          by (apply list_elem_of_fmap; by exists (k, VFun id)).
        by specialize (Hall Hv).
      - intros Hnone data ([k d] & -> & Hin)%list_elem_of_fmap. simpl.
        destruct d; try done. by destruct (Hnone k id). }
    destruct (prop fields "depends") as [d|] eqn:Hd; simpl.
    + destruct (isDepends d) eqn:Hdep; simpl.
      * rewrite Hfns. split; [|by intros [_ ?]]. intros Hnone.
        split; [|done]. intros d' [= <-].
        destruct d; try done; eauto.
      * split; [done|]. intros [Hdep' _].
        destruct (Hdep' d eq_refl) as [[? ->]|[? ->]]; done.
    + rewrite Hfns. split; [|by intros [_ ?]]. intros Hnone. by split.
Qed.

(** X4.  [checkConfig] returns [true] exactly when every entry of the
    configuration is an array, or an object whose [depends] property, if it
    has one, holds a string or an array and none of whose properties holds
    a function; it looks at nothing else: neither at whether the
    dependencies are configured nor at cycles. *)
Theorem checkConfig_Ok_iff (conf : Config) :
  checkConfig conf = Ok true ↔ Forall (λ kv, valid_entry kv.2) conf.
Proof.
  unfold checkConfig. rewrite Forall_forall. split.
  - intros (u & Hu & _)%bind_Ok kv Hkv.
    apply checkConfigEntry_valid.
    by apply (proj1 (foldM_unit_Ok_any _ _ _) Hu).
  - intros Hall.
    rewrite (proj2 (foldM_unit_Ok _ conf)); [done|].
    intros kv Hkv. simpl. by apply checkConfigEntry_valid, Hall.
Qed.

Lemma checkConfig_Ok_iff_witness :
  checkConfig test_conf = Ok true
  ∧ ¬ Forall (λ kv, valid_entry kv.2) hooked_conf.
Proof.
  split.
  - apply (proj2 (checkConfig_Ok_iff test_conf)).
    apply Forall_forall. intros kv Hkv. simpl in Hkv.
    assert (∀ fields : list (string * value),
              fields = [("val", VNum 1)]
              ∨ fields = [("val", VNum 2); ("depends", VStr "x")]
              ∨ fields = [("depends", VArr ["x"; "y"])] →
              valid_entry (VObj fields)) as Hvalid.
    { intros fields [->|[->| ->]]; simpl; (split; [|set_solver]);
        intros d Hd; try discriminate Hd; injection Hd as <-; eauto. }
    repeat (apply elem_of_cons in Hkv as [->|Hkv]; [apply Hvalid; auto|]).
    by apply elem_of_nil in Hkv.
  - intros Hv. apply (proj2 (checkConfig_Ok_iff hooked_conf)) in Hv.
    vm_compute in Hv. discriminate Hv.
Defined.

Lemma checkFnsEntry_valid (e : fn_entry) :
  checkFnsEntry e = Ok tt ↔ valid_fn_entry e.
Proof.
  unfold checkFnsEntry, valid_fn_entry. destruct e as [start stop_cb|v].
  - destruct start as [|v|f]; simpl.
    + split; [done|]. by intros (? & ? & ? & _).
    + split; [done|]. by intros (? & ? & ? & _).
    + destruct stop_cb as [|v|g]; simpl.
      * split; [|done]. intros _. eexists _, _. split; [done|by left].
      * split; [done|]. intros (? & ? & [= <- <-] & [?|[? ?]]); done.
      * split; [|done]. intros _. eexists _, _. split; [done|right; eauto].
  - destruct (negb (isObject v)); (split; [done|]); by intros (? & ? & ? & _).
Qed.

(** X5.  [checkFns] returns [true] exactly when every entry of the registry
    is a record with a [start] function and with no [stop] or a [stop]
    function; it does not look at which services the registry covers. *)
Theorem checkFns_Ok_iff (fns : Fns) :
  checkFns fns = Ok true ↔ Forall (λ kv, valid_fn_entry kv.2) fns.
Proof.
  unfold checkFns. rewrite Forall_forall. split.
  - intros (u & Hu & _)%bind_Ok kv Hkv.
    apply checkFnsEntry_valid.
    by apply (proj1 (foldM_unit_Ok_any _ _ _) Hu).
  - intros Hall.
    rewrite (proj2 (foldM_unit_Ok _ fns)); [done|].
    intros kv Hkv. simpl. by apply checkFnsEntry_valid, Hall.
Qed.

Lemma prop_keys_elem_of {A : Type} (o : obj A) (k : string) :
  k ∈ keys o → ∃ v, prop o k = Some v ∧ (k, v) ∈ o.
Proof.
  induction o as [|[k' v'] o IH]; simpl; [by intros ?%elem_of_nil|].
  intros Hk. case_decide as Hd.
  - subst. exists v'. split; [done|left].
  - apply elem_of_cons in Hk as [->|Hk]; [done|].
    destruct (IH Hk) as (v & ? & ?). exists v. split; [done|by right].
Qed.

Lemma valid_entry_dependencies (conf : Config) (s : string) (v : value) :
  prop conf s = Some v → valid_entry v → ∃ xs, dependencies conf s = Ok xs.
Proof.
  intros Hs Hv. unfold dependencies, dependsOn.
  rewrite (lookup_own _ _ _ Hs).
  destruct v as [| | | | |xs| |fields]; try done; simpl; [by eauto|].
  destruct Hv as [Hdep _].
  destruct (prop fields "depends") as [d|] eqn:Hd; simpl; [|by eauto].
  destruct (Hdep d eq_refl) as [[? ->]|[? ->]]; simpl; eauto.
Qed.

Lemma known_outcome (nodes : list string) (es : list edge) :
  Graph.known nodes es = Ok tt ∨ Graph.known nodes es = Throw UnknownNodeError.
Proof.
  unfold Graph.known. induction es as [|e es IH]; simpl; [by left|].
  case_decide; simpl; [done|by right].
Qed.

(** On distinct nodes [toposort.array] returns an order, reports an unknown
    node or reports a cycle. *)
Lemma array_outcomes (nodes : list string) (es : list edge) :
  NoDup nodes →
  (∃ order, Toposort.array nodes es = Ok order)
  ∨ Toposort.array nodes es = Throw UnknownNodeError
  ∨ ∃ x, Toposort.array nodes es = Throw (CycleError x).
Proof.
  intros Hnd. destruct (known_outcome nodes es) as [Hk|Hk].
  - destruct (ToposortCorrect.array_outcome nodes es Hnd)
      as [?|(x & ? & _)]; [by apply ToposortCorrect.known_Ok|by left|].
    right; right. eauto.
  - right; left. rewrite ToposortCorrect.array_unfold, Hk. done.
Qed.

(** X6.  A configuration that passes [check] holds no function and gives
    every service a dependency list, so that construction with validation
    can only end in a system, in the unknown-node error or in the cycle
    error of the sort, never in a [TypeError]. *)
Theorem check_Ok_construction (conf : Config) (fns : Fns) :
  check conf fns = Ok true → NoDup (keys conf) →
  (∀ s, s ∈ keys conf → ∃ xs, dependencies conf s = Ok xs)
  ∧ ¬ has_function conf
  ∧ ((∃ sys, new_System conf fns true = Ok sys)
     ∨ new_System conf fns true = Throw UnknownNodeError
     ∨ ∃ x, new_System conf fns true = Throw (CycleError x)).
Proof.
  intros Hcheck Hnd.
  assert (checkConfig conf = Ok true) as Hconf.
  { unfold check in Hcheck. apply bind_Ok in Hcheck as (b & Hc & _).
    rewrite Hc. unfold checkConfig in Hc.
    by apply bind_Ok in Hc as (? & _ & [= <-]). }
  assert (∀ s, s ∈ keys conf → ∃ xs, dependencies conf s = Ok xs) as Hdeps.
  { intros s (v & Hv & Hin)%prop_keys_elem_of.
    eapply valid_entry_dependencies; [done|].
    unfold checkConfig in Hconf. apply bind_Ok in Hconf as (u & Hu & _).
    apply checkConfigEntry_valid.
    by apply (proj1 (foldM_unit_Ok_any _ _ _) Hu (s, v)). }
  split_and!; [done| |].
  - intros (msg & Hmsg & _)%checkConfig_function. congruence.
  - rewrite new_System_unfold, Hcheck. simpl.
    destruct (edges_total conf Hdeps) as [es Hes].
    unfold sortDeps. rewrite Hes. simpl.
    destruct (array_outcomes (keys conf) es Hnd) as [[o ->]|[->|[x ->]]];
      simpl; eauto.
Qed.

Lemma check_Ok_construction_witness :
  (∀ s, s ∈ keys test_conf → ∃ xs, dependencies test_conf s = Ok xs)
  ∧ ¬ has_function test_conf
  ∧ ((∃ sys, new_System test_conf test_fns true = Ok sys)
     ∨ new_System test_conf test_fns true = Throw UnknownNodeError
     ∨ ∃ x, new_System test_conf test_fns true = Throw (CycleError x)).
Proof.
  apply (check_Ok_construction test_conf test_fns).
  - vm_compute. reflexivity.
  - apply test_conf_wf.
Defined.

(** ** Construction *)

(** X7.  Without validation, a record from which no dependency list can be
    read (a [null] entry, a [depends] that is neither string, array nor
    falsy) makes construction throw a [TypeError] after [config] has been
    assigned and before [_order], [_services] and [_fns] are. *)
Theorem construct_malformed (conf : Config) (fns : Fns) (s : string) :
  s ∈ keys conf → (∀ xs, dependencies conf s ≠ Ok xs) →
  ∃ msg, construct conf fns false blank
         = (Throw (TypeError msg), mkPartial (Some conf) None None None [])
         ∧ new_System conf fns false = Throw (TypeError msg).
Proof.
  intros Hs Hbad.
  destruct (flatMapM_fails (depEdges conf) (keys conf)
              (λ e, ∃ msg, e = TypeError msg)) as (e & He & msg & ->).
  - intros x. rewrite depEdges_dependencies.
    destruct (dependencies_outcome conf x) as [[xs ->]|[msg ->]]; simpl; eauto.
  - exists s. split; [done|]. intros zs. rewrite depEdges_dependencies.
    destruct (dependencies conf s) as [xs| |] eqn:Hx; simpl; try done.
    by destruct (Hbad xs).
  - exists msg. rewrite new_System_unfold, construct_unfold.
    unfold sortDeps, edges. rewrite He. done.
Qed.

(** A configuration with a [null] entry. *)
Lemma construct_malformed_witness :
  ∃ msg, construct [("a", VObj []); ("b", VNull)] [] false blank
         = (Throw (TypeError msg),
            mkPartial (Some [("a", VObj []); ("b", VNull)]) None None None [])
         ∧ new_System [("a", VObj []); ("b", VNull)] [] false
           = Throw (TypeError msg).
Proof.
  apply (construct_malformed [("a", VObj []); ("b", VNull)] [] "b").
  - apply list_elem_of_further, list_elem_of_here.
  - intros xs H. vm_compute in H. discriminate H.
Defined.

(** X8.  (The sort is [Toposort.array], the model of the external package.)
    When every service has a dependency list but some dependency is not a
    configured service, [sortDeps] throws the unknown-node error, cycle or
    not, and so does construction without validation. *)
Theorem sortDeps_unknown_dependency (conf : Config) (fns : Fns) (d s : string) :
  (∀ s, s ∈ keys conf → ∃ xs, dependencies conf s = Ok xs) →
  depends conf d s → d ∉ keys conf →
  sortDeps conf = Throw UnknownNodeError
  ∧ new_System conf fns false = Throw UnknownNodeError.
Proof.
  intros Hdeps Hds Hd.
  destruct (edges_total conf Hdeps) as [es Hes].
  assert (sortDeps conf = Throw UnknownNodeError) as Hsort.
  { unfold sortDeps. rewrite Hes. simpl.
    rewrite ToposortCorrect.array_unfold.
    destruct (known_outcome (keys conf) es) as [Hk| ->]; [|done].
    apply (edges_spec _ _ Hes) in Hds.
    by destruct (proj1 (ToposortCorrect.known_Ok _ _) Hk d s Hds). }
  split; [done|]. by rewrite new_System_unfold, Hsort.
Qed.

(** A cycle together with a dependency that is not configured. *)
Lemma sortDeps_unknown_dependency_witness :
  sortDeps [("a", VObj [("depends", VStr "b")]);
            ("b", VObj [("depends", VArr ["a"; "zzz"])])]
  = Throw UnknownNodeError
  ∧ new_System [("a", VObj [("depends", VStr "b")]);
                ("b", VObj [("depends", VArr ["a"; "zzz"])])] [] false
    = Throw UnknownNodeError.
Proof.
  apply (sortDeps_unknown_dependency _ [] "zzz" "b").
  - intros s Hs. simpl in Hs.
    apply elem_of_cons in Hs as [->|Hs]; [by eexists|].
    apply elem_of_cons in Hs as [->|Hs]; [by eexists|].
    by apply elem_of_nil in Hs.
  - exists ["a"; "zzz"]. split; [reflexivity|].
    apply list_elem_of_further, list_elem_of_here.
  - vm_compute. intros H.
    repeat (apply elem_of_cons in H as [H|H]; [discriminate H|]).
    by apply elem_of_nil in H.
Defined.

(** ** Starting a service *)

(** X9.  [start(name)] changes the value of no service outside [name] and
    the services it depends on, directly or through other services, and
    invokes start callbacks of these services only -- never a stop
    callback -- however it ends. *)
Theorem start_touches_only_dependencies (s : string) (w w' : world)
    (r : outcome unit) :
  start (Some s) w = (r, w') →
  (∀ k, ¬ rtc (depends (config (this w))) k s → sv w' !! k = sv w !! k)
  ∧ ∃ new, calls w' = calls w ++ new
           ∧ Forall (λ c, ∃ x a vs res,
                        c = StartCall x a vs res
                        ∧ rtc (depends (config (this w))) x s) new.
Proof.
  rewrite start_Some. intros Hrun.
  destruct (start_service_evolves _ _ _ _ _ _ eq_refl Hrun)
    as [_ _ _ _ _ _ (new & Hnew & Hev & Htouch)].
  rewrite Forall_forall in Hev. split.
  - intros k Hk. destruct (Htouch k) as [?|(a & vs & res & Hin)]; [done|].
    by destruct (Hev _ Hin) as [? _].
  - exists new. split; [done|]. apply Forall_forall. intros c Hin.
    specialize (Hev c Hin). destruct c as [x a vs res|]; [|done].
    destruct Hev as [? _]. eauto 10.
Qed.

(** Starting [y] in the test system leaves [sum] alone. *)
Lemma start_touches_only_dependencies_witness :
  let w := mkWorld test_sys [] in
  let w' := (start (Some "y") w).2 in
  sv w' !! "sum" = sv w !! "sum"
  ∧ ∃ new, calls w' = calls w ++ new
           ∧ Forall (λ c, ∃ x a vs res,
                        c = StartCall x a vs res
                        ∧ rtc (depends test_conf) x "y") new.
Proof.
  intros w w'.
  destruct (start_touches_only_dependencies "y" w w' (start (Some "y") w).1)
    as [Hframe Hcalls].
  - unfold w'. by destruct (start (Some "y") w).
  - split; [|exact Hcalls]. apply Hframe.
    intros Hreach. apply rtc_tc in Hreach as [Heq|Htc]; [discriminate Heq|].
    apply (before_irrefl ["x"; "y"; "sum"] "sum").
    { apply (proj1 test_conf_wf). }
    assert (tc (depends test_conf) "y" "sum") as Hys.
    { apply tc_once. exists ["x"; "y"]. split; [reflexivity|].
      apply list_elem_of_further, list_elem_of_here. }
    destruct (sortDeps_sound test_conf ["x"; "y"; "sum"]) as [_ Hbefore].
    + apply test_conf_wf.
    + vm_compute. reflexivity.
    + apply Hbefore. by eapply tc_transitive.
Defined.

(** On a configuration without cycle, starting the dependencies of [s]
    neither changes the value of [s] nor invokes its callback. *)
Lemma dependencies_leave_service (conf : Config) (fuel : nat) (s : string)
    (xs : list string) (w w1 : world) (r1 : outcome unit) :
  acyclic conf → config (this w) = conf → dependencies conf s = Ok xs →
  forEach (start_service fuel) xs w = (r1, w1) →
  sv w1 !! s = sv w !! s
  ∧ config (this w1) = conf ∧ _fns (this w1) = _fns (this w)
  ∧ ∃ new1, calls w1 = calls w ++ new1
            ∧ ∀ a vs res, StartCall s a vs res ∉ new1.
Proof.
  intros Hac Hc Hxs Hdeps.
  assert (evolves conf (λ x, ∃ d, depends conf d s ∧ rtc (depends conf) x d)
                  w r1 w1) as Hev.
  { eapply forEach_evolves; [|exact Hc|exact Hdeps].
    intros d a r b Hd Ha Hx.
    eapply evolves_weaken; [|by eapply start_service_evolves].
    intros x Hxd. exists d. split; [by exists xs|done]. }
  destruct Hev as [_ Hca _ Hfa _ _ (new1 & Hn1 & Hev1 & Ht1)].
  assert (∀ a vs res, StartCall s a vs res ∉ new1) as Hnone.
  { intros a vs res Hin. rewrite Forall_forall in Hev1.
    destruct (Hev1 _ Hin) as ((d & Hds & Hsd) & _).
    apply (Hac s). by eapply tc_rtc_l; [|apply tc_once]. }
  split_and!; [|done|done|by eauto].
  by destruct (Ht1 s) as [E|(a & vs & res & Hin)]; [|destruct (Hnone a vs res)].
Qed.



(** X11.  On a well-formed configuration without cycle, [start(name)] for a
    stopped service that has no entry in the registry throws, and leaves
    the service [null]. *)
Theorem start_without_entry (s : string) (w w' : world) (r : outcome unit) :
  wf_config (config (this w)) → acyclic (config (this w)) →
  s ∈ keys (config (this w)) →
  prop (_fns (this w)) s = None →
  read (sv w) s = VNull →
  start (Some s) w = (r, w') →
  (∃ e, r = Throw e) ∧ read (sv w') s = VNull.
Proof.
  intros Hwf Hac Hs Hentry Hnull Hrun.
  assert (r ≠ OutOfFuel) as Hfuel.
  { pose proof (start_not_OutOfFuel (Some s) w Hwf Hac) as Hne.
    by rewrite Hrun in Hne. }
  assert ((∀ u, r ≠ Ok u) ∧ read (sv w') s = VNull) as [Hr Hnull'].
  { revert Hrun. rewrite start_Some. unfold depth. rewrite start_service_S.
    destruct (proj2 Hwf s Hs) as (xs & Hxs & _). rewrite Hxs.
    destruct (forEach (start_service (length (config (this w)))) xs w)
      as [r1 w1] eqn:Hdeps.
    destruct (dependencies_leave_service _ _ _ _ _ _ _ Hac eq_refl Hxs Hdeps)
      as (Hsame & _ & Hf1 & _).
    assert (read (sv w1) s = VNull) as Hnull1.
    { unfold read. rewrite Hsame. exact Hnull. }
    destruct r1 as [[]| |]; [|by intros [= <- <-]..].
    rewrite Hnull1. simpl.
    destruct (call_start_None s (collectDeps xs (sv w1)) w1) as [msg ->].
    { unfold start_callback. by rewrite Hf1, Hentry. }
    by intros [= <- <-]. }
  split; [|done]. destruct r as [u|e|]; [by destruct (Hr u)|eauto|done].
Qed.

Lemma start_without_entry_witness :
  (∃ e, (run (start (Some "y")) bare_sys).1 = Throw e)
  ∧ read (sv (run (start (Some "y")) bare_sys).2) "y" = VNull.
Proof.
  apply (start_without_entry "y" (mkWorld bare_sys [])).
  - apply test_conf_wf.
  - apply test_conf_acyclic.
  - apply list_elem_of_further, list_elem_of_here.
  - reflexivity.
  - reflexivity.
  - unfold run. by destruct (start (Some "y") (mkWorld bare_sys [])).
Defined.

Section all_running.
Variable conf : Config.
Variable o : list string.
Hypothesis conf_wf : wf_config conf.
Hypothesis o_NoDup : NoDup o.
Hypothesis o_before : ∀ d s, depends conf d s → before o d s.

Lemma start_service_all_running (fuel : nat) :
  ∀ (s : string) (w : world),
    config (this w) = conf → s ∈ keys conf →
    (∀ k, k ∈ keys conf → read (sv w) k ≠ VNull) →
    (∀ i, o !! i = Some s → (i ≤ fuel)%nat) →
    start_service (S fuel) s w = (Ok tt, w).
Proof.
  induction fuel as [fuel IH] using lt_wf_ind. intros s w Hc Hs Hrun Hpos.
  rewrite start_service_S, Hc.
  destruct (proj2 conf_wf s Hs) as (xs & Hxs & Hin). rewrite Hxs.
  rewrite forEach_skip.
  - by rewrite (proj2 (is_null_false _) (Hrun s Hs)).
  - intros d Hd.
    destruct (o_before d s) as (i & j & Hi & Hj & Hij); [by exists xs|].
    specialize (Hpos j Hj).
    destruct fuel as [|fuel']; [lia|].
    apply (IH fuel'); [lia|done|by apply Hin|done|]. intros i' Hi'.
    rewrite (NoDup_lookup _ _ _ _ o_NoDup Hi' Hi). lia.
Qed.

End all_running.

(** X12.  On a well-formed configuration without cycle, when no configured
    service is [null], a start of configured services -- [start(name)], or
    [start()] over whatever [_order] lists -- returns without invoking a
    callback or changing anything. *)
Theorem start_all_running (service : option string) (w : world) :
  wf_config (config (this w)) → acyclic (config (this w)) →
  (∀ s, s ∈ targets w service → s ∈ keys (config (this w))) →
  (∀ k, k ∈ keys (config (this w)) → read (sv w) k ≠ VNull) →
  start service w = (Ok tt, w).
Proof.
  intros Hwf Hac Htargets Hrunning. set (conf := config (this w)) in *.
  destruct (sortDeps_outcome conf Hwf) as [(o & Ho & _)|(x & _ & Hcyc)];
    [|done].
  destruct (sortDeps_sound conf o (proj1 Hwf) Ho) as [Hperm Hbefore].
  assert (NoDup o) as Hnd by (rewrite Hperm; apply Hwf).
  assert (∀ d s, depends conf d s → before o d s) as Hdep.
  { intros d s Hds. by apply Hbefore, tc_once. }
  assert (∀ s i, o !! i = Some s → (i ≤ length conf)%nat) as Hpos.
  { intros s i Hi%lookup_lt_Some.
    rewrite Hperm in Hi. unfold keys in Hi. rewrite length_fmap in Hi. lia. }
  destruct service as [s|]; [rewrite start_Some|rewrite start_None];
    unfold depth; fold conf.
  - apply (start_service_all_running conf o Hwf Hnd Hdep); try done.
    + apply Htargets. left.
    + by apply Hpos.
  - apply forEach_skip. intros s Hs.
    apply (start_service_all_running conf o Hwf Hnd Hdep); try done.
    + by apply Htargets.
    + by apply Hpos.
Qed.

Lemma start_all_running_witness :
  start None (mkWorld stoppable_sys [])
  = (Ok tt, mkWorld stoppable_sys []).
Proof.
  apply (start_all_running None (mkWorld stoppable_sys [])).
  - apply test_conf_wf.
  - apply test_conf_acyclic.
  - intros s Hs. exact Hs.
  - intros k Hk. simpl in Hk.
    repeat (apply elem_of_cons in Hk as [->|Hk]; [discriminate|]).
    by apply elem_of_nil in Hk.
Defined.

(** ** Stopping a service *)

(** X13.  When the stop callback of a running service throws, [stop(name)]
    ends with that exception after the one invocation, and the service
    keeps its value: it is not set to [null]. *)
Theorem stop_callback_throws (s : string) (w : world) (xs : list string)
    (start_cb : slot start_fn) (g : stop_fn) (e : exn) :
  dependencies (config (this w)) s = Ok xs →
  prop (_fns (this w)) s = Some (FnRecord start_cb (Callable g)) →
  read (sv w) s ≠ VNull →
  g (calls w) (read (sv w) s) (collectDeps xs (sv w)) = Throws e →
  stop (Some s) w
  = (Throw e,
     mkWorld (this w)
             (calls w ++ [StopCall s (read (sv w) s) (collectDeps xs (sv w))
                                   (Throws e)])).
Proof.
  intros (deps & Hdeps & Hxs)%dependencies_Ok Hentry Hrun Hg. simpl.
  rewrite stop_service_unfold, Hdeps.
  unfold read_stop, mbind, M_bind, gets, lift. simpl.
  rewrite (lookup_fn_own _ _ _ Hentry). simpl.
  rewrite (proj2 (is_null_false _) Hrun). simpl. rewrite Hxs.
  unfold call_stop, mbind, M_bind, gets, lift, record_call, modify. simpl.
  rewrite Hg. simpl. by destruct w.
Qed.

Lemma stop_callback_throws_witness :
  stop (Some "sum") (mkWorld stop_fails_sys [])
  = (Throw (Thrown (VStr "busy")),
     mkWorld stop_fails_sys
             [StopCall "sum" (VNum 3)
                       (collectDeps ["x"; "y"] (_services stop_fails_sys))
                       (Throws (Thrown (VStr "busy")))])
  ∧ get stop_fails_sys "sum" = VNum 3.
Proof.
  split; [|reflexivity].
  apply (stop_callback_throws "sum" (mkWorld stop_fails_sys []) ["x"; "y"]
           (Callable startSum) (λ _ _ _, Throws (Thrown (VStr "busy")))).
  - reflexivity.
  - reflexivity.
  - discriminate.
  - reflexivity.
Defined.

(** ** The stored order under the operations *)





(** ** Stopping everything *)









(** ** The string representation *)

Lemma started_names_cons (c : Config) (k : string) (v0 : value)
    (order : list string) (services : gmap string value) (fns : Fns) :
  started_names (mkSystem ((k, v0) :: c) order services fns)
  = match services !! k with
    | Some v =>
        if is_null v then started_names (mkSystem c order services fns)
        else k :: started_names (mkSystem c order services fns)
    | None => started_names (mkSystem c order services fns)
    end.
Proof.
  unfold started_names, service_entries. simpl.
  destruct (services !! k) as [v|]; simpl; [|done].
  rewrite filter_cons. simpl. by destruct (is_null v).
Qed.

Lemma started_names_elem_of (sys : System) (k : string) :
  k ∈ started_names sys
  ↔ k ∈ keys (config sys) ∧ ∃ v, _services sys !! k = Some v ∧ v ≠ VNull.
Proof.
  destruct sys as [c order services fns]. simpl.
  induction c as [|[k' v0] c IH].
  - split; [by intros ?%elem_of_nil|by intros [?%elem_of_nil _]].
  - rewrite started_names_cons. simpl. rewrite elem_of_cons.
    destruct (services !! k') as [v|] eqn:Hk'.
    + destruct (is_null v) eqn:Hnull.
      * rewrite IH. apply is_null_true in Hnull as ->. split.
        -- intros [? ?]. auto.
        -- intros [[->|?] (v & Hv & Hnn)]; [congruence|eauto].
      * rewrite elem_of_cons, IH. apply is_null_false in Hnull. split.
        -- intros [->|[? ?]]; eauto.
        -- intros [[->|?] ?]; auto.
    + rewrite IH. split.
      * intros [? ?]. auto.
      * intros [[->|?] (v & Hv & Hnn)]; [congruence|eauto].
Qed.


Lemma join_empty (l : list string) :
  join ", " l = "" ↔ l = [] ∨ l = [""].
Proof.
  unfold join. destruct l as [|x [|y l]]; simpl.
  - split; auto.
  - split; [intros ->; by right|]. by intros [?|[= ->]].
  - split; [by destruct x|]. by intros [?|?].
Qed.

Lemma toString_started (sys : System) :
  toString sys = "[object System]" ↔ join ", " (started_names sys) = "".
Proof.
  unfold toString. fold (started_names sys).
  destruct (join ", " (started_names sys)) as [|a s] eqn:Hj; simpl; [done|].
  split; intros H; discriminate H.
Qed.



(** ** The order of independent services *)

Lemma makeNodesHash_index (nodes : list string) (x : string) (i : nat) :
  NoDup nodes → nodes !! i = Some x →
  Toposort.makeNodesHash nodes !! x = Some i.
Proof.
  intros Hnd Hi.
  destruct (proj2 (ToposortFacts.makeNodesHash_is_Some nodes x)) as [j Hj];
    [by eapply list_elem_of_lookup_2|].
  pose proof (ToposortFacts.makeNodesHash_lookup _ _ _ Hj) as Hj'.
  by rewrite (NoDup_lookup _ _ _ _ Hnd Hi Hj').
Qed.

Lemma visit_all_no_edges (nodes : list string) (fuel : nat) :
  NoDup nodes →
  ∀ (l rest : list string) (V : gset nat),
    nodes = l ++ rest → (∀ i, i ∈ V → (length l ≤ i)%nat) →
    ∃ V',
      foldM (λ st (ix : nat * string),
               if decide (ix.1 ∈ Toposort.visited st) then Ok st
               else Toposort.visit (Toposort.makeNodesHash nodes)
                      (Toposort.makeOutgoingEdges []) (S fuel) ∅ st ix.2)
            (Toposort.mkState V rest) (reverse (imap pair l))
      = Ok (Toposort.mkState V' (l ++ rest)).
Proof.
  intros Hnd l. induction l as [|x l IH] using rev_ind; intros rest V Hnodes HV.
  - simpl. eauto.
  - rewrite imap_app, reverse_app. simpl.
    rewrite Nat.add_0_r.
    assert (length l ∉ V) as Hfresh.
    { intros Hin%HV. rewrite length_app in Hin. simpl in Hin. lia. }
    rewrite decide_False by done.
    rewrite decide_False by set_solver.
    assert (Toposort.makeNodesHash nodes !! x = Some (length l)) as ->.
    { apply makeNodesHash_index; [done|].
      rewrite Hnodes, <-app_assoc. by apply list_lookup_middle. }
    simpl. rewrite decide_False by done.
    unfold Toposort.makeOutgoingEdges. simpl. rewrite lookup_empty. simpl.
    destruct (IH (x :: rest) ({[length l]} ∪ V)) as [V' HV'].
    + by rewrite Hnodes, <-app_assoc.
    + intros i [->%elem_of_singleton|Hi%HV]%elem_of_union; [done|].
      rewrite length_app in Hi. simpl in Hi. lia.
    + exists V'. rewrite <-app_assoc. exact HV'.
Qed.

(** X18.  (The sort is [Toposort.array], the model of the external
    package.)  A configuration with distinct service names none of which
    has a dependency is sorted into its key order. *)
Theorem sortDeps_independent (conf : Config) :
  NoDup (keys conf) →
  (∀ s, s ∈ keys conf → dependencies conf s = Ok []) →
  sortDeps conf = Ok (keys conf).
Proof.
  intros Hnd Hnone.
  destruct (edges_total conf) as [es Hes]; [by eauto|].
  assert (es = []) as ->.
  { destruct es as [|[d s] es]; [done|].
    assert (depends conf d s) as (xs & Hxs & Hd).
    { apply (edges_spec _ _ Hes). left. }
    rewrite (Hnone s) in Hxs by by eapply dependencies_keys.
    injection Hxs as <-. by apply elem_of_nil in Hd. }
  unfold sortDeps. rewrite Hes. simpl.
  rewrite ToposortCorrect.array_unfold. simpl.
  destruct (visit_all_no_edges (keys conf) (length (keys conf)) Hnd
              (keys conf) [] ∅) as [V' HV'].
  - by rewrite app_nil_r.
  - by intros i ?%elem_of_empty.
  - unfold Graph.visit_all. rewrite HV'. simpl. by rewrite app_nil_r.
Qed.

Lemma sortDeps_independent_witness :
  sortDeps [("b", VObj []); ("a", VObj [("port", VNum 80)]); ("c", VArr [])]
  = Ok ["b"; "a"; "c"].
Proof.
  apply (sortDeps_independent
           [("b", VObj []); ("a", VObj [("port", VNum 80)]); ("c", VArr [])]).
  - refine (proj1 (wf_configb_spec _ _)). vm_compute. reflexivity.
  - intros s Hs. simpl in Hs.
    repeat (apply elem_of_cons in Hs as [->|Hs]; [reflexivity|]).
    by apply elem_of_nil in Hs.
Defined.

(** ** What construction returns *)

(** X19.  An object that [System(config, fns, validate)] returns has a
    getter for every service and holds, in each field that no getter has
    replaced, what the constructor assigned: the configuration and the
    registry it was given, [null] for every service and nothing else, and
    an order that lists every service once, each after the services that
    its record names as dependencies, directly or through other services.
    The configuration then has no cycle, and it passed
    validation if that was asked for.  Unless a service bears the name of a
    field, the object is a system with these fields, for which the
    [toString] of the prototype gives the bare representation. *)
Theorem new_System_Ok (conf : Config) (fns : Fns) (validate : bool)
    (obj : partial) :
  NoDup (keys conf) →
  new_System conf fns validate = Ok obj →
  ∃ order,
    p_getters obj = keys conf
    ∧ p_config obj = (if decide ("config" ∈ keys conf) then None else Some conf)
    ∧ p_order obj = (if decide ("_order" ∈ keys conf) then None else Some order)
    ∧ p_services obj = (if decide ("_services" ∈ keys conf) then None
                        else Some (nullifyVals conf))
    ∧ p_fns obj = (if decide ("_fns" ∈ keys conf) then None else Some fns)
    ∧ order ≡ₚ keys conf
    ∧ (∀ d s, tc (Spec.requires conf) d s → before order d s)
    ∧ Spec.acyclic conf
    ∧ (validate = true → check conf fns = Ok true)
    ∧ ((∀ f, f ∈ field_names → f ∉ keys conf) →
       obj = built (mkSystem conf order (nullifyVals conf) fns)
       ∧ toString (mkSystem conf order (nullifyVals conf) fns)
         = "[object System]").
Proof.
  intros Hnd. rewrite new_System_unfold.
  intros (b & Hb & (order & Ho & [= <-])%bind_Ok)%bind_Ok. simpl.
  destruct (sortDeps_sound conf order Hnd Ho) as [Hperm Hbefore].
  exists order. split_and!; try done.
  - intros d s Hds. apply Hbefore. eapply tc_impl; [|exact Hds].
    intros a c. apply Spec_requires_depends.
  - intros x Hx. apply (sortDeps_Ok_acyclic conf order Hnd Ho x).
    eapply tc_impl; [|exact Hx]. intros a c. apply Spec_requires_depends.
  - intros ->. rewrite Hb. f_equal. unfold check in Hb.
    by apply bind_Ok in Hb as (? & _ & (? & _ & [= <-])%bind_Ok).
  - intros Hnames. split; [by apply object_built|].
    apply toString_started, join_empty. left. apply elem_of_nil_inv.
    intros k (_ & v & Hv & Hnn)%started_names_elem_of. simpl in Hv.
    rewrite nullifyVals_lookup in Hv. case_decide; congruence.
Qed.

Lemma new_System_Ok_witness :
  ∃ order,
    p_getters (built test_sys) = keys test_conf
    ∧ p_config (built test_sys) = Some test_conf
    ∧ p_order (built test_sys) = Some order
    ∧ p_services (built test_sys) = Some (nullifyVals test_conf)
    ∧ p_fns (built test_sys) = Some test_fns
    ∧ order ≡ₚ keys test_conf
    ∧ (∀ d s, tc (Spec.requires test_conf) d s → before order d s)
    ∧ Spec.acyclic test_conf
    ∧ check test_conf test_fns = Ok true
    ∧ built test_sys
      = built (mkSystem test_conf order (nullifyVals test_conf) test_fns)
    ∧ toString (mkSystem test_conf order (nullifyVals test_conf) test_fns)
      = "[object System]".
Proof.
  destruct (new_System_Ok test_conf test_fns true (built test_sys))
    as (order & Hg & Hc & Ho & Hs & Hf & Hperm & Hbefore & Hac & Hval & Hsys).
  - apply test_conf_wf.
  - vm_compute. reflexivity.
  - destruct Hsys as [Hbuilt Hstr].
    { intros f Hf' Hk. unfold field_names in Hf'. simpl in Hk. set_solver. }
    exists order. split_and!; auto.
Defined.

(** ** Each start callback runs once *)

Lemma once_same (w : world) (r : outcome unit) : once w r w.
Proof.
  intros new ->%app_inv_nil x. split_and!; [by unfold invocations; simpl; lia|done|done].
Qed.

Lemma once_seq (conf : Config) (R : string → Prop) (w w1 w2 : world)
    (r : outcome unit) :
  evolves conf R w (Ok tt) w1 → evolves conf R w1 r w2 →
  once w (Ok tt) w1 → once w1 r w2 → once w r w2.
Proof.
  intros E1 E2 O1 O2 new Hnew x.
  destruct (ev_calls _ _ _ _ _ E1) as (new1 & Hn1 & _).
  destruct (ev_calls _ _ _ _ _ E2) as (new2 & Hn2 & _).
  rewrite Hn2, Hn1, <-app_assoc in Hnew. apply app_inv_head in Hnew as <-.
  destruct (O1 new1 Hn1 x) as (Hle1 & Hrun1 & Hdone1).
  destruct (O2 new2 Hn2 x) as (Hle2 & Hrun2 & Hdone2).
  rewrite invocations_app.
  assert (∀ k, read (sv w1) k ≠ VNull → read (sv w2) k ≠ VNull) as Hmono2.
  { intros k Hk. unfold read. rewrite (ev_mono _ _ _ _ _ E2); [done|].
    by apply is_null_false. }
  assert (∀ k, read (sv w) k ≠ VNull → read (sv w1) k ≠ VNull) as Hmono1.
  { intros k Hk. unfold read. rewrite (ev_mono _ _ _ _ _ E1); [done|].
    by apply is_null_false. }
  assert (invocations x new1 = 1%nat → invocations x new2 = 0%nat) as Hex.
  { intros H1. apply Hrun2, Hdone1; done. }
  split_and!.
  - destruct (decide (invocations x new1 = 1%nat)) as [H1|H1];
      [rewrite (Hex H1)|]; lia.
  - intros Hx. rewrite (Hrun1 Hx), (Hrun2 (Hmono1 _ Hx)). done.
  - intros Hr Hsum.
    destruct (decide (invocations x new1 = 1%nat)) as [H1|H1].
    + apply Hmono2, Hdone1; done.
    + apply Hdone2; [done|lia].
Qed.

Lemma start_service_once (conf : Config) (fns : Fns) (fuel : nat) :
  nonnull_fns conf fns →
  ∀ (s : string) (w w' : world) (r : outcome unit),
    config (this w) = conf → _fns (this w) = fns →
    start_service fuel s w = (r, w') →
    evolves conf (λ _, True) w r w' ∧ once w r w'.
Proof.
  intros Hnn. induction fuel as [|fuel IH]; intros s w w' r Hc Hf Hrun.
  { injection Hrun as <- <-. split; [by apply evolves_same|apply once_same]. }
  assert (evolves conf (λ _, True) w r w') as Hev.
  { eapply evolves_weaken; [|by eapply start_service_evolves]. done. }
  split; [done|].
  rewrite start_service_S, Hc in Hrun.
  destruct (dependencies conf s) as [xs| |] eqn:Hxs;
    [|injection Hrun as <- <-; apply once_same..].
  destruct (forEach (start_service fuel) xs w) as [r1 w1] eqn:Hdeps.
  assert (∀ x a b c, config (this a) = conf ∧ _fns (this a) = fns →
                     start_service fuel x a = (b, c) →
                     (evolves conf (λ _, True) a b c
                      ∧ config (this c) = conf ∧ _fns (this c) = fns)
                     ∧ once a b c) as Hstep.
  { intros x a b c [Ha Hfa] Hx. destruct (IH x a c b Ha Hfa Hx) as [E O].
    split_and!; [done|by apply (ev_config' _ _ _ _ _ E)| |done].
    by rewrite (ev_fns _ _ _ _ _ E). }
  assert (evolves conf (λ _, True) w r1 w1 ∧ once w r1 w1
          ∧ _fns (this w1) = fns) as (E1 & O1 & Hf1).
  { clear Hrun Hev Hxs. revert w r1 w1 Hc Hf Hdeps.
    induction xs as [|x xs IHxs]; intros w r1 w1 Hc Hf Hdeps.
    - injection Hdeps as <- <-.
      split_and!; [by apply evolves_same|apply once_same|done].
    - rewrite forEach_cons in Hdeps.
      destruct (start_service fuel x w) as [r0 w0] eqn:Hx.
      destruct (Hstep x w r0 w0 (conj Hc Hf) Hx) as [(E0 & Hc0 & Hf0) O0].
      destruct r0 as [[]| |]; [|by injection Hdeps as <- <-..].
      destruct (IHxs w0 r1 w1 Hc0 Hf0 Hdeps) as (E & O & Hfw).
      split_and!; [by eapply evolves_seq|by eapply once_seq|done]. }
  destruct r1 as [[]| |]; [|by injection Hrun as <- <-..].
  pose proof (ev_config' _ _ _ _ _ E1) as Hc1.
  destruct (is_null (read (sv w1) s)) eqn:Hnull;
    [|by injection Hrun as <- <-].
  apply is_null_true in Hnull.
  assert (is_Some (sv w1 !! s)) as Hown by (apply read_null in Hnull; eauto).
  eapply once_seq; [exact E1| |exact O1|].
  { eapply evolves_weaken; [|by eapply call_start_evolves]. done. }
  destruct (start_callback (_fns (this w1)) s) as [f|] eqn:Hcb.
  - rewrite (call_start_Some _ _ _ _ Hcb) in Hrun. simpl in Hrun.
    set (args := collectDeps xs (sv w1)) in *.
    destruct (f (calls w1) (config (this w1)) args) as [v|e] eqn:Hres;
      simpl in Hrun; injection Hrun as <- <-; intros new Hnew x; simpl in *.
    + apply app_inv_head in Hnew as <-. unfold invocations. simpl.
      destruct (decide (s = x)) as [->|Hne].
      * rewrite bool_decide_eq_true_2 by done. simpl.
        split_and!; [lia|by intros ?|].
        intros _ _. rewrite (assign_own _ _ _ Hown).
        rewrite (read_own _ _ v) by apply lookup_insert_eq.
        rewrite Hf1 in Hcb. rewrite Hc1 in Hres.
        eapply Hnn; [exact Hcb|exact Hres].
      * rewrite bool_decide_eq_false_2 by done. simpl.
        split_and!; [lia|done|done].
    + apply app_inv_head in Hnew as <-. unfold invocations. simpl.
      destruct (decide (s = x)) as [->|Hne].
      * rewrite bool_decide_eq_true_2 by done. simpl.
        split_and!; [lia|by intros ?|done].
      * rewrite bool_decide_eq_false_2 by done. simpl.
        split_and!; [lia|done|done].
  - destruct (call_start_None s (collectDeps xs (sv w1)) w1 Hcb) as [msg Hmsg].
    rewrite Hmsg in Hrun. injection Hrun as <- <-. apply once_same.
Qed.

(** X20.  In one start operation, of one service or of all, no start
    callback runs twice and none runs for a service that was already
    running, provided the start callbacks of the registry return values
    other than [null]. *)
Theorem start_invokes_once (service : option string) (w w' : world)
    (r : outcome unit) (new : list call) :
  nonnull_fns (config (this w)) (_fns (this w)) →
  start service w = (r, w') →
  calls w' = calls w ++ new →
  ∀ x, (invocations x new ≤ 1)%nat
       ∧ (read (sv w) x ≠ VNull → invocations x new = 0%nat).
Proof.
  intros Hnn Hrun Hnew x.
  assert (∀ s a b c, config (this a) = config (this w)
                     ∧ _fns (this a) = _fns (this w) →
                     start_service (depth w) s a = (b, c) →
                     (evolves (config (this w)) (λ _, True) a b c
                      ∧ config (this c) = config (this w)
                      ∧ _fns (this c) = _fns (this w))
                     ∧ once a b c) as Hstep.
  { intros s a b c [Ha Hfa] Hs.
    destruct (start_service_once _ _ (depth w) Hnn s a c b Ha Hfa Hs)
      as [E O].
    split_and!; [done|by apply (ev_config' _ _ _ _ _ E)| |done].
    by rewrite (ev_fns _ _ _ _ _ E). }
  assert (once w r w') as Honce.
  { destruct service as [s|].
    - rewrite start_Some in Hrun. by apply (Hstep s w r w').
    - rewrite start_None in Hrun.
      assert (∀ xs a b c, config (this a) = config (this w) →
                          _fns (this a) = _fns (this w) →
                          forEach (start_service (depth w)) xs a = (b, c) →
                          once a b c) as Hall.
      { induction xs as [|y xs IHxs]; intros a b c Ha Hfa Hxs.
        - injection Hxs as <- <-. apply once_same.
        - rewrite forEach_cons in Hxs.
          destruct (start_service (depth w) y a) as [r0 w0] eqn:Hy.
          destruct (Hstep y a r0 w0 (conj Ha Hfa) Hy)
            as [(E0 & Hc0 & Hf0) O0].
          destruct r0 as [[]| |]; [|by injection Hxs as <- <-..].
          eapply once_seq; [exact E0| |exact O0|by eapply IHxs].
          eapply forEach_evolves; [|exact Hc0|exact Hxs].
          intros z a0 b0 c0 _ Ha0 Hz.
          eapply evolves_weaken;
            [|exact (start_service_evolves _ _ _ _ _ _ Ha0 Hz)]. done. }
      by eapply Hall. }
  destruct (Honce new Hnew x) as (Hle & Hz & _). done.
Qed.

Lemma start_invokes_once_witness :
  let w := mkWorld test_sys [] in
  let w' := (start (Some "sum") w).2 in
  (invocations "x" (calls w') ≤ 1)%nat
  ∧ (read (sv w) "x" ≠ VNull → invocations "x" (calls w') = 0%nat).
Proof.
  intros w w'.
  apply (start_invokes_once (Some "sum") w w' (start (Some "sum") w).1
                            (calls w')).
  - apply test_fns_nonnull.
  - unfold w'. by destruct (start (Some "sum") w).
  - reflexivity.
Defined.
